(** * The entity graph of protoc-gen-star ([ast.go])

    A shallow embedding of [ProcessDescriptors] and of the [graph] methods
    it calls, together with the properties of the graph it builds.

    Go pointers are addresses into an explicit object store, so that
    "the same object" is equality of addresses.  Every [hydrate*] method is
    a computation in a state-and-failure monad over that store and the three
    maps of the [graph] struct. *)

From stdpp Require Import gmap strings list fin_maps.
From Stdlib Require Import ZArith.

Set Default Proof Using "Type".
Local Open Scope Z_scope.
Local Open Scope nat_scope.

(** ** Descriptors: the decoded input *)

(** [descriptor.FieldDescriptorProto_Type], under the names [ProtoType]
    gives them; [ast.go] names [GroupT], [EnumT] and [MessageT]. *)
Inductive ProtoType :=
  | DoubleT | FloatT | Int64T | UInt64T | Int32T | Fixed64T | Fixed32T
  | BoolT | StringT | GroupT | MessageT | BytesT | UInt32T | EnumT
  | SFixed32 | SFixed64 | SInt32 | SInt64.

(** [descriptor.FieldDescriptorProto_Label]. *)
Inductive ProtoLabel := Optional | Required | Repeated.

#[global] Instance ProtoType_eq_dec : EqDecision ProtoType.
Proof. solve_decision. Defined.
#[global] Instance ProtoLabel_eq_dec : EqDecision ProtoLabel.
Proof. solve_decision. Defined.

(** The getters of the generated descriptor structs return the zero value
    for an unset field; the records hold what the getters return, except
    for [OneofIndex], which [hydrateMessage] reads as a pointer. *)
Record FieldDescriptorProto := {
  fdp_name : string;
  fdp_number : Z;
  fdp_label : ProtoLabel;
  fdp_type : ProtoType;
  fdp_type_name : string;
  fdp_oneof_index : option Z;
}.

Record EnumValueDescriptorProto := { evdp_name : string; evdp_number : Z }.

Record EnumDescriptorProto := {
  edp_name : string;
  edp_value : list EnumValueDescriptorProto;
}.

Record OneofDescriptorProto := { odp_name : string }.

#[warnings="-register-all"]
Inductive DescriptorProto :=
  MkDescriptorProto (name : string)
                    (field : list FieldDescriptorProto)
                    (nested_type : list DescriptorProto)
                    (enum_type : list EnumDescriptorProto)
                    (oneof_decl : list OneofDescriptorProto)
                    (map_entry : bool).

Definition dp_name (md : DescriptorProto) : string :=
  match md with MkDescriptorProto n _ _ _ _ _ => n end.
Definition dp_field (md : DescriptorProto) : list FieldDescriptorProto :=
  match md with MkDescriptorProto _ f _ _ _ _ => f end.
Definition dp_nested_type (md : DescriptorProto) : list DescriptorProto :=
  match md with MkDescriptorProto _ _ n _ _ _ => n end.
Definition dp_enum_type (md : DescriptorProto) : list EnumDescriptorProto :=
  match md with MkDescriptorProto _ _ _ e _ _ => e end.
Definition dp_oneof_decl (md : DescriptorProto) : list OneofDescriptorProto :=
  match md with MkDescriptorProto _ _ _ _ o _ => o end.
(** [md.GetOptions().GetMapEntry()] *)
Definition dp_map_entry (md : DescriptorProto) : bool :=
  match md with MkDescriptorProto _ _ _ _ _ b => b end.

Record MethodDescriptorProto := {
  mdp_name : string;
  mdp_input_type : string;
  mdp_output_type : string;
}.

Record ServiceDescriptorProto := {
  sdp_name : string;
  sdp_method : list MethodDescriptorProto;
}.

(** [descriptor.SourceCodeInfo_Location] *)
Record Location := {
  loc_path : list Z;
  loc_span : list Z;
  loc_leading_comments : string;
  loc_trailing_comments : string;
}.

Record FileDescriptorProto := {
  fdesc_name : string;
  fdesc_package : string;
  fdesc_message_type : list DescriptorProto;
  fdesc_enum_type : list EnumDescriptorProto;
  fdesc_service : list ServiceDescriptorProto;
  fdesc_source_code_info : list Location;
  fdesc_syntax : string;
}.

(** [plugin_go.CodeGeneratorRequest] *)
Record CodeGeneratorRequest := {
  file_to_generate : list string;
  proto_file : list FileDescriptorProto;
}.

(** ** The object store *)

(** An address of the store; [Entity], [File], [Message], ... interface
    values are addresses, their dynamic type is the kind of the object
    stored there. *)
Abbreviation ptr := nat (only parsing).

(** [FieldTypeElem]: [scalarE], [enumE], [embedE].  The back-reference
    [typ] to the owning [FieldType] is not kept: no method of [ast.go]
    reads it. *)
Inductive FieldTypeElem :=
  | scalarE (ptype : ProtoType)
  | enumE (ptype : ProtoType) (enum : ptr)
  | embedE (ptype : ProtoType) (msg : ptr).

(** [FieldType]: [scalarT], [enumT], [embedT], [repT], [mapT]. *)
Inductive FieldType :=
  | scalarT (fld : ptr)
  | enumT (fld : ptr) (enum : ptr)
  | embedT (fld : ptr) (msg : ptr)
  | repT (fld : ptr) (el : FieldTypeElem)
  | mapT (fld : ptr) (key el : FieldTypeElem).

(** [sci{desc: loc}] *)
Definition SourceCodeInfo := Location.

Record file := {
  f_pkg : ptr;
  f_desc : FileDescriptorProto;
  f_enums : list ptr;
  f_msgs : list ptr;
  f_srvs : list ptr;
  f_buildTarget : bool;
  f_syntaxInfo : option SourceCodeInfo;
  f_packageInfo : option SourceCodeInfo;
}.

Record msg := {
  m_desc : DescriptorProto;
  m_parent : ptr;
  m_fqn : string;
  m_msgs : list ptr;
  m_preservedMsgs : list (option ptr);
  m_enums : list ptr;
  m_fields : list ptr;
  m_oneofs : list ptr;
  m_maps : list ptr;
  m_info : option SourceCodeInfo;
}.

Record enum := {
  e_desc : EnumDescriptorProto;
  e_parent : ptr;
  e_fqn : string;
  e_vals : list ptr;
  e_info : option SourceCodeInfo;
}.

Record enumVal := {
  ev_desc : EnumValueDescriptorProto;
  ev_enum : ptr;
  ev_fqn : string;
  ev_info : option SourceCodeInfo;
}.

Record service := {
  s_desc : ServiceDescriptorProto;
  s_file : ptr;
  s_fqn : string;
  s_methods : list ptr;
  s_info : option SourceCodeInfo;
}.

Record method := {
  mt_desc : MethodDescriptorProto;
  mt_service : ptr;
  mt_fqn : string;
  mt_in : option ptr;
  mt_out : option ptr;
  mt_info : option SourceCodeInfo;
}.

Record field := {
  fl_desc : FieldDescriptorProto;
  fl_msg : ptr;
  fl_fqn : string;
  fl_typ : option FieldType;
  fl_info : option SourceCodeInfo;
}.

Record oneof := {
  o_desc : OneofDescriptorProto;
  o_msg : ptr;
  o_fqn : string;
  o_flds : list ptr;
  o_info : option SourceCodeInfo;
}.

(** The values of the [Entity] interface. *)
Inductive object :=
  | OFile (x : file)
  | OMsg (x : msg)
  | OEnum (x : enum)
  | OEnumVal (x : enumVal)
  | OService (x : service)
  | OMethod (x : method)
  | OField (x : field)
  | OOneOf (x : oneof).

(** [pkg]; a [Package] is not an [Entity] and is kept in a store of its
    own. *)
Record pkg := {
  pk_fd : FileDescriptorProto;
  pk_files : list ptr;
}.

(** The three maps of [graph].  A [targets] value [None] is the [nil]
    [File] that [ProcessDescriptors] stores for every requested name. *)
Record graph := {
  targets : gmap string (option ptr);
  packages : gmap string ptr;
  entities : gmap string ptr;
}.

Record state := {
  heap : list object;
  pkgs : list pkg;
  gr : graph;
}.

Definition set_heap (h : list object) (st : state) : state :=
  {| heap := h; pkgs := pkgs st; gr := gr st |}.
Definition set_pkgs (ps : list pkg) (st : state) : state :=
  {| heap := heap st; pkgs := ps; gr := gr st |}.
Definition set_gr (g : graph) (st : state) : state :=
  {| heap := heap st; pkgs := pkgs st; gr := g |}.

(** ** The construction monad *)

(** Modelled from the spec: the [Debugger] ([Fail], [Failf]) is not among
    the sources; it is "a collaborator capable of recording a fatal message
    and halting", so a call of [Fail] or [Failf] ends the construction with
    the message.  [Failf] keeps its format and arguments apart. *)
Inductive fatal :=
  | Fail (msg : string)
  | Failf (format : string) (args : list string).

(** The result of a computation: a value and the new state, a fatal
    failure reported to the [Debugger], a Go run-time panic (nil
    dereference, failed type assertion, index out of range), or a
    recursion that does not end. *)
Inductive outcome (A : Type) :=
  | Done (a : A) (st : state)
  | Fatal (e : fatal)
  | Panic
  | Diverge.
Arguments Done {A} a st.
Arguments Fatal {A} e.
Arguments Panic {A}.
Arguments Diverge {A}.

Definition M (A : Type) : Type := state → outcome A.

Definition ret {A} (a : A) : M A := λ st, Done a st.

Definition bind {A B} (c : M A) (k : A → M B) : M B :=
  λ st, match c st with
        | Done a st' => k a st'
        | Fatal e => Fatal e
        | Panic => Panic
        | Diverge => Diverge
        end.

Declare Scope M_scope.
Delimit Scope M_scope with M.
Notation "x <- c ;; k" := (bind c (λ x, k))
  (at level 100, c at next level, right associativity) : M_scope.
Notation "c ;; k" := (bind c (λ _, k))
  (at level 100, right associativity) : M_scope.
Local Open Scope M_scope.

Definition get : M state := λ st, Done st st.
Definition put (st : state) : M unit := λ _, Done tt st.
Definition fail {A} (e : fatal) : M A := λ _, Fatal e.
Definition panic {A} : M A := λ _, Panic.

(** [for _, x := range l { f x }] *)
Definition forM_ {A} (f : A → M unit) : list A → M unit :=
  fix go l :=
    match l with
    | [] => ret tt
    | x :: l' => f x ;; go l'
    end.

(** [for i, x := range l { f i x }], counting from [i]. *)
Definition forMi_ {A} (f : nat → A → M unit) : nat → list A → M unit :=
  fix go i l :=
    match l with
    | [] => ret tt
    | x :: l' => f i x ;; go (S i) l'
    end.

Definition mapM {A B} (f : A → M B) : list A → M (list B) :=
  fix go l :=
    match l with
    | [] => ret []
    | x :: l' => y <- f x ;; ys <- go l' ;; ret (y :: ys)
    end.

(** *** Reading and writing objects *)

(** [&T{...}]: a fresh object at the next address. *)
Definition new (o : object) : M ptr :=
  λ st, Done (length (heap st)) (set_heap (heap st ++ [o]) st).

(** Dereference; a dangling or nil address panics. *)
Definition deref (p : ptr) : M object :=
  λ st, match heap st !! p with Some o => Done o st | None => Panic end.

Definition store (p : ptr) (o : object) : M unit :=
  λ st, match heap st !! p with
        | Some _ => Done tt (set_heap (<[p:=o]> (heap st)) st)
        | None => Panic
        end.

(** Type assertions [e.(File)], [e.(Message)], ...: the object when it has
    the kind, a panic otherwise. *)
Definition asFile (p : ptr) : M file :=
  o <- deref p ;; match o with OFile x => ret x | _ => panic end.
Definition asMessage (p : ptr) : M msg :=
  o <- deref p ;; match o with OMsg x => ret x | _ => panic end.
Definition asEnum (p : ptr) : M enum :=
  o <- deref p ;; match o with OEnum x => ret x | _ => panic end.
Definition asService (p : ptr) : M service :=
  o <- deref p ;; match o with OService x => ret x | _ => panic end.
Definition asMethod (p : ptr) : M method :=
  o <- deref p ;; match o with OMethod x => ret x | _ => panic end.
Definition asField (p : ptr) : M field :=
  o <- deref p ;; match o with OField x => ret x | _ => panic end.
Definition asOneOf (p : ptr) : M oneof :=
  o <- deref p ;; match o with OOneOf x => ret x | _ => panic end.

Definition new_pkg (p : pkg) : M ptr :=
  λ st, Done (length (pkgs st)) (set_pkgs (pkgs st ++ [p]) st).

(** *** Field updates of the stored records *)

Definition file_set_enums (l : list ptr) (x : file) : file :=
  {| f_pkg := f_pkg x; f_desc := f_desc x; f_enums := l; f_msgs := f_msgs x;
     f_srvs := f_srvs x; f_buildTarget := f_buildTarget x;
     f_syntaxInfo := f_syntaxInfo x; f_packageInfo := f_packageInfo x |}.
Definition file_set_msgs (l : list ptr) (x : file) : file :=
  {| f_pkg := f_pkg x; f_desc := f_desc x; f_enums := f_enums x; f_msgs := l;
     f_srvs := f_srvs x; f_buildTarget := f_buildTarget x;
     f_syntaxInfo := f_syntaxInfo x; f_packageInfo := f_packageInfo x |}.
Definition file_set_srvs (l : list ptr) (x : file) : file :=
  {| f_pkg := f_pkg x; f_desc := f_desc x; f_enums := f_enums x;
     f_msgs := f_msgs x; f_srvs := l; f_buildTarget := f_buildTarget x;
     f_syntaxInfo := f_syntaxInfo x; f_packageInfo := f_packageInfo x |}.
Definition file_set_buildTarget (b : bool) (x : file) : file :=
  {| f_pkg := f_pkg x; f_desc := f_desc x; f_enums := f_enums x;
     f_msgs := f_msgs x; f_srvs := f_srvs x; f_buildTarget := b;
     f_syntaxInfo := f_syntaxInfo x; f_packageInfo := f_packageInfo x |}.
Definition file_set_syntaxInfo (i : option SourceCodeInfo) (x : file) : file :=
  {| f_pkg := f_pkg x; f_desc := f_desc x; f_enums := f_enums x;
     f_msgs := f_msgs x; f_srvs := f_srvs x; f_buildTarget := f_buildTarget x;
     f_syntaxInfo := i; f_packageInfo := f_packageInfo x |}.
Definition file_set_packageInfo (i : option SourceCodeInfo) (x : file) : file :=
  {| f_pkg := f_pkg x; f_desc := f_desc x; f_enums := f_enums x;
     f_msgs := f_msgs x; f_srvs := f_srvs x; f_buildTarget := f_buildTarget x;
     f_syntaxInfo := f_syntaxInfo x; f_packageInfo := i |}.

Definition msg_set_msgs (l : list ptr) (x : msg) : msg :=
  {| m_desc := m_desc x; m_parent := m_parent x; m_fqn := m_fqn x;
     m_msgs := l; m_preservedMsgs := m_preservedMsgs x; m_enums := m_enums x;
     m_fields := m_fields x; m_oneofs := m_oneofs x; m_maps := m_maps x;
     m_info := m_info x |}.
Definition msg_set_preservedMsgs (l : list (option ptr)) (x : msg) : msg :=
  {| m_desc := m_desc x; m_parent := m_parent x; m_fqn := m_fqn x;
     m_msgs := m_msgs x; m_preservedMsgs := l; m_enums := m_enums x;
     m_fields := m_fields x; m_oneofs := m_oneofs x; m_maps := m_maps x;
     m_info := m_info x |}.
Definition msg_set_enums (l : list ptr) (x : msg) : msg :=
  {| m_desc := m_desc x; m_parent := m_parent x; m_fqn := m_fqn x;
     m_msgs := m_msgs x; m_preservedMsgs := m_preservedMsgs x; m_enums := l;
     m_fields := m_fields x; m_oneofs := m_oneofs x; m_maps := m_maps x;
     m_info := m_info x |}.
Definition msg_set_fields (l : list ptr) (x : msg) : msg :=
  {| m_desc := m_desc x; m_parent := m_parent x; m_fqn := m_fqn x;
     m_msgs := m_msgs x; m_preservedMsgs := m_preservedMsgs x;
     m_enums := m_enums x; m_fields := l; m_oneofs := m_oneofs x;
     m_maps := m_maps x; m_info := m_info x |}.
Definition msg_set_oneofs (l : list ptr) (x : msg) : msg :=
  {| m_desc := m_desc x; m_parent := m_parent x; m_fqn := m_fqn x;
     m_msgs := m_msgs x; m_preservedMsgs := m_preservedMsgs x;
     m_enums := m_enums x; m_fields := m_fields x; m_oneofs := l;
     m_maps := m_maps x; m_info := m_info x |}.
Definition msg_set_maps (l : list ptr) (x : msg) : msg :=
  {| m_desc := m_desc x; m_parent := m_parent x; m_fqn := m_fqn x;
     m_msgs := m_msgs x; m_preservedMsgs := m_preservedMsgs x;
     m_enums := m_enums x; m_fields := m_fields x; m_oneofs := m_oneofs x;
     m_maps := l; m_info := m_info x |}.
Definition msg_set_info (i : option SourceCodeInfo) (x : msg) : msg :=
  {| m_desc := m_desc x; m_parent := m_parent x; m_fqn := m_fqn x;
     m_msgs := m_msgs x; m_preservedMsgs := m_preservedMsgs x;
     m_enums := m_enums x; m_fields := m_fields x; m_oneofs := m_oneofs x;
     m_maps := m_maps x; m_info := i |}.

Definition enum_set_vals (l : list ptr) (x : enum) : enum :=
  {| e_desc := e_desc x; e_parent := e_parent x; e_fqn := e_fqn x;
     e_vals := l; e_info := e_info x |}.
Definition enum_set_info (i : option SourceCodeInfo) (x : enum) : enum :=
  {| e_desc := e_desc x; e_parent := e_parent x; e_fqn := e_fqn x;
     e_vals := e_vals x; e_info := i |}.
Definition enumVal_set_info (i : option SourceCodeInfo) (x : enumVal) : enumVal :=
  {| ev_desc := ev_desc x; ev_enum := ev_enum x; ev_fqn := ev_fqn x;
     ev_info := i |}.
Definition service_set_methods (l : list ptr) (x : service) : service :=
  {| s_desc := s_desc x; s_file := s_file x; s_fqn := s_fqn x;
     s_methods := l; s_info := s_info x |}.
Definition service_set_info (i : option SourceCodeInfo) (x : service) : service :=
  {| s_desc := s_desc x; s_file := s_file x; s_fqn := s_fqn x;
     s_methods := s_methods x; s_info := i |}.
Definition method_set_in (p : option ptr) (x : method) : method :=
  {| mt_desc := mt_desc x; mt_service := mt_service x; mt_fqn := mt_fqn x;
     mt_in := p; mt_out := mt_out x; mt_info := mt_info x |}.
Definition method_set_out (p : option ptr) (x : method) : method :=
  {| mt_desc := mt_desc x; mt_service := mt_service x; mt_fqn := mt_fqn x;
     mt_in := mt_in x; mt_out := p; mt_info := mt_info x |}.
Definition method_set_info (i : option SourceCodeInfo) (x : method) : method :=
  {| mt_desc := mt_desc x; mt_service := mt_service x; mt_fqn := mt_fqn x;
     mt_in := mt_in x; mt_out := mt_out x; mt_info := i |}.
Definition field_set_typ (t : option FieldType) (x : field) : field :=
  {| fl_desc := fl_desc x; fl_msg := fl_msg x; fl_fqn := fl_fqn x;
     fl_typ := t; fl_info := fl_info x |}.
Definition field_set_info (i : option SourceCodeInfo) (x : field) : field :=
  {| fl_desc := fl_desc x; fl_msg := fl_msg x; fl_fqn := fl_fqn x;
     fl_typ := fl_typ x; fl_info := i |}.
Definition oneof_set_flds (l : list ptr) (x : oneof) : oneof :=
  {| o_desc := o_desc x; o_msg := o_msg x; o_fqn := o_fqn x;
     o_flds := l; o_info := o_info x |}.
Definition oneof_set_info (i : option SourceCodeInfo) (x : oneof) : oneof :=
  {| o_desc := o_desc x; o_msg := o_msg x; o_fqn := o_fqn x;
     o_flds := o_flds x; o_info := i |}.

(** In-place updates through a typed pointer. *)
Definition updFile (p : ptr) (f : file → file) : M unit :=
  x <- asFile p ;; store p (OFile (f x)).
Definition updMessage (p : ptr) (f : msg → msg) : M unit :=
  x <- asMessage p ;; store p (OMsg (f x)).
Definition updEnum (p : ptr) (f : enum → enum) : M unit :=
  x <- asEnum p ;; store p (OEnum (f x)).
Definition updService (p : ptr) (f : service → service) : M unit :=
  x <- asService p ;; store p (OService (f x)).
Definition updMethod (p : ptr) (f : method → method) : M unit :=
  x <- asMethod p ;; store p (OMethod (f x)).
Definition updField (p : ptr) (f : field → field) : M unit :=
  x <- asField p ;; store p (OField (f x)).
Definition updOneOf (p : ptr) (f : oneof → oneof) : M unit :=
  x <- asOneOf p ;; store p (OOneOf (f x)).

(** ** Methods of the entities

    [ast.go] calls these methods of [file], [msg], [field], ... whose
    definitions are not among the sources. *)

(** Modelled from the spec: [Name] of a [File], its declared path. *)
Definition file_Name (x : file) : string := fdesc_name (f_desc x).

(** Modelled from the spec: [FullyQualifiedName], "dot-separated,
    package-qualified", of the form ".{package}.{entity}" as the comment of
    [AST.Lookup] has it.  The name of an entity is its parent's name, a dot
    and its own name; neither changes after creation, so the object holds
    the name computed when it is created. *)
Definition FullyQualifiedName (o : object) : string :=
  match o with
  | OFile x => "." +:+ fdesc_package (f_desc x)
  | OMsg x => m_fqn x
  | OEnum x => e_fqn x
  | OEnumVal x => ev_fqn x
  | OService x => s_fqn x
  | OMethod x => mt_fqn x
  | OField x => fl_fqn x
  | OOneOf x => o_fqn x
  end.

Definition fullyQualifiedName (parent : ptr) (name : string) : M string :=
  o <- deref parent ;; ret (FullyQualifiedName o +:+ "." +:+ name).

(** Modelled from the spec: the [add*] methods append the child to the
    collection its owner keeps ("owned child collections"). *)
Definition pkg_addFile (p : ptr) (fl : ptr) : M unit :=
  λ st, match pkgs st !! p with
        | Some x => Done tt (set_pkgs
            (<[p := {| pk_fd := pk_fd x; pk_files := pk_files x ++ [fl] |}]>
               (pkgs st)) st)
        | None => Panic
        end.

Definition file_addEnum (fl e : ptr) : M unit :=
  updFile fl (λ x, file_set_enums (f_enums x ++ [e]) x).
Definition file_addMessage (fl m : ptr) : M unit :=
  updFile fl (λ x, file_set_msgs (f_msgs x ++ [m]) x).
Definition file_addService (fl s : ptr) : M unit :=
  updFile fl (λ x, file_set_srvs (f_srvs x ++ [s]) x).
Definition enum_addValue (e ev : ptr) : M unit :=
  updEnum e (λ x, enum_set_vals (e_vals x ++ [ev]) x).
Definition service_addMethod (s m : ptr) : M unit :=
  updService s (λ x, service_set_methods (s_methods x ++ [m]) x).
Definition msg_addEnum (m e : ptr) : M unit :=
  updMessage m (λ x, msg_set_enums (m_enums x ++ [e]) x).
Definition msg_addMessage (m nm : ptr) : M unit :=
  updMessage m (λ x, msg_set_msgs (m_msgs x ++ [nm]) x).
Definition msg_addMapEntry (m nm : ptr) : M unit :=
  updMessage m (λ x, msg_set_maps (m_maps x ++ [nm]) x).
Definition msg_addOneOf (m o : ptr) : M unit :=
  updMessage m (λ x, msg_set_oneofs (m_oneofs x ++ [o]) x).
Definition msg_addField (m f : ptr) : M unit :=
  updMessage m (λ x, msg_set_fields (m_fields x ++ [f]) x).
Definition oneof_addField (o f : ptr) : M unit :=
  updOneOf o (λ x, oneof_set_flds (o_flds x ++ [f]) x).

(** Modelled from the spec: [IsMapEntry], "a message is a map-entry if the
    descriptor explicitly marks it so". *)
Definition IsMapEntry (m : ptr) : M bool :=
  x <- asMessage m ;; ret (dp_map_entry (m_desc x)).

Definition MapEntries (m : ptr) : M (list ptr) :=
  x <- asMessage m ;; ret (m_maps x).
Definition Fields (m : ptr) : M (list ptr) :=
  x <- asMessage m ;; ret (m_fields x).
Definition Descriptor (fld : ptr) : M FieldDescriptorProto :=
  x <- asField fld ;; ret (fl_desc x).
Definition field_Type (fld : ptr) : M (option FieldType) :=
  x <- asField fld ;; ret (fl_typ x).
Definition field_addType (fld : ptr) (t : FieldType) : M unit :=
  updField fld (field_set_typ (Some t)).

(** [l[i]]: an index out of range panics. *)
Definition index {A} (l : list A) (i : nat) : M A :=
  match l !! i with Some x => ret x | None => panic end.

(** Modelled from the spec: [AllMessages] of a message and of a file, the
    ordinary (not map-entry) messages below it at every depth, the pass
    being "over all messages' fields".  The recursion follows the store,
    so it is bounded by [fuel]; nested messages form a tree and the size of
    the store is enough ([fileAllMessages_terminates]). *)
Fixpoint msg_AllMessages (fuel : nat) (m : ptr) : M (list ptr) :=
  match fuel with
  | 0 => λ _, Diverge
  | S n =>
      x <- asMessage m ;;
      sub <- mapM (msg_AllMessages n) (m_msgs x) ;;
      ret (m_msgs x ++ concat sub)
  end.

Definition file_AllMessages (fl : ptr) : M (list ptr) :=
  st <- get ;;
  x <- asFile fl ;;
  sub <- mapM (msg_AllMessages (length (heap st))) (f_msgs x) ;;
  ret (f_msgs x ++ concat sub).

(** Modelled from the spec: [ProtoType] and [ProtoLabel] of a [scalarT],
    the "underlying protocol type" and the label of its field. *)
Definition scalarT_ProtoType (s : ptr) : M ProtoType :=
  d <- Descriptor s ;; ret (fdp_type d).
Definition scalarT_ProtoLabel (s : ptr) : M ProtoLabel :=
  d <- Descriptor s ;; ret (fdp_label d).

(** Modelled from the spec: [toElem], the element-level type of a field
    type, "re-deriving their element-level type from the same
    classification rules"; a repeated or map type has none, which is a
    panic. *)
Definition toElem (t : FieldType) : M FieldTypeElem :=
  match t with
  | scalarT f => pt <- scalarT_ProtoType f ;; ret (scalarE pt)
  | enumT f e => pt <- scalarT_ProtoType f ;; ret (enumE pt e)
  | embedT f m => pt <- scalarT_ProtoType f ;; ret (embedE pt m)
  | repT _ _ | mapT _ _ _ => panic
  end.

(** Modelled from the spec: the field numbers of [descriptor.proto] that
    the location paths are made of. *)
Definition packagePath : Z := 2.
Definition messageTypePath : Z := 4.
Definition enumTypePath : Z := 5.
Definition servicePath : Z := 6.
Definition syntaxPath : Z := 12.
Definition messageTypeFieldPath : Z := 2.
Definition messageTypeNestedTypePath : Z := 3.
Definition messageTypeEnumTypePath : Z := 4.
Definition messageTypeOneofDeclPath : Z := 8.
Definition enumTypeValuePath : Z := 2.
Definition serviceTypeMethodPath : Z := 2.

(** The [i]-th child of [o] in the repeated descriptor field [n]. *)
Definition child (o : object) (n i : Z) : option ptr :=
  if decide (i < 0)%Z then None else
  let k := Z.to_nat i in
  match o with
  | OFile x =>
      if decide (n = messageTypePath) then f_msgs x !! k
      else if decide (n = enumTypePath) then f_enums x !! k
      else if decide (n = servicePath) then f_srvs x !! k
      else None
  | OMsg x =>
      if decide (n = messageTypeFieldPath) then m_fields x !! k
      else if decide (n = messageTypeNestedTypePath)
           then mjoin (m_preservedMsgs x !! k)
      else if decide (n = messageTypeEnumTypePath) then m_enums x !! k
      else if decide (n = messageTypeOneofDeclPath) then m_oneofs x !! k
      else None
  | OEnum x => if decide (n = enumTypeValuePath) then e_vals x !! k else None
  | OService x =>
      if decide (n = serviceTypeMethodPath) then s_methods x !! k else None
  | _ => None
  end.

(** Modelled from the spec: [childAtPath], "walking the File's child
    structure (enclosing message, its nested message/enum/field lists,
    etc.) one path segment at a time until the addressed entity is found",
    a segment being a pair of a field number and an index; [None] ([nil])
    when the path resolves to nothing. *)
Fixpoint childAtPath (h : list object) (e : ptr) (path : list Z)
  : option ptr :=
  match path with
  | [] => match h !! e with Some _ => Some e | None => None end
  | [_] => None
  | n :: i :: rest =>
      match h !! e with
      | Some o =>
          match child o n i with
          | Some c => childAtPath h c rest
          | None => None
          end
      | None => None
      end
  end.

(** Modelled from the spec: [addSourceCodeInfo] attaches the location to
    the entity; on a [File] it is the "file-level syntax commentary". *)
Definition addSourceCodeInfo (e : ptr) (info : SourceCodeInfo) : M unit :=
  o <- deref e ;;
  store e match o with
          | OFile x => OFile (file_set_syntaxInfo (Some info) x)
          | OMsg x => OMsg (msg_set_info (Some info) x)
          | OEnum x => OEnum (enum_set_info (Some info) x)
          | OEnumVal x => OEnumVal (enumVal_set_info (Some info) x)
          | OService x => OService (service_set_info (Some info) x)
          | OMethod x => OMethod (method_set_info (Some info) x)
          | OField x => OField (field_set_info (Some info) x)
          | OOneOf x => OOneOf (oneof_set_info (Some info) x)
          end.

(** Modelled from the spec: [addPackageSourceCodeInfo], the "package-level
    commentary" of a [File]. *)
Definition addPackageSourceCodeInfo (f : ptr) (info : SourceCodeInfo)
  : M unit :=
  updFile f (file_set_packageInfo (Some info)).

(** ** [ast.go] *)

Definition set_targets (t : gmap string (option ptr)) (g : graph) : graph :=
  {| targets := t; packages := packages g; entities := entities g |}.
Definition set_packages (p : gmap string ptr) (g : graph) : graph :=
  {| targets := targets g; packages := p; entities := entities g |}.
Definition set_entities (e : gmap string ptr) (g : graph) : graph :=
  {| targets := targets g; packages := packages g; entities := e |}.

Definition Targets (g : graph) : gmap string (option ptr) := targets g.
Definition Packages (g : graph) : gmap string ptr := packages g.

(** [Lookup]: the entity ([None] is [nil]) and whether it was found. *)
Definition Lookup (g : graph) (name : string) : option ptr * bool :=
  match entities g !! name with
  | Some e => (Some e, true)
  | None => (None, false)
  end.

Definition resolveFQN (o : object) : string :=
  match o with
  | OFile f => file_Name f
  | _ => FullyQualifiedName o
  end.

Definition add (e : ptr) : M unit :=
  o <- deref e ;;
  st <- get ;;
  put (set_gr (set_entities (<[resolveFQN o := e]> (entities (gr st)))
                 (gr st)) st).

Definition mustSeen (fqn : string) : M ptr :=
  st <- get ;;
  match entities (gr st) !! fqn with
  | Some existing => ret existing
  | None => fail (Failf "expected entity %q has not been hydrated" [fqn])
  end.

Definition hydratePackage (f : FileDescriptorProto) : M ptr :=
  let lookup := fdesc_package f in
  st <- get ;;
  match packages (gr st) !! lookup with
  | Some pkg => ret pkg
  | None =>
      p <- new_pkg {| pk_fd := f; pk_files := [] |} ;;
      st <- get ;;
      put (set_gr (set_packages (<[lookup := p]> (packages (gr st)))
                     (gr st)) st) ;;
      ret p
  end.

Definition hydrateEnumValue (e : ptr) (vd : EnumValueDescriptorProto)
  : M ptr :=
  fqn <- fullyQualifiedName e (evdp_name vd) ;;
  ev <- new (OEnumVal {| ev_desc := vd; ev_enum := e; ev_fqn := fqn;
                         ev_info := None |}) ;;
  add ev ;;
  ret ev.

Definition hydrateEnum (p : ptr) (ed : EnumDescriptorProto) : M ptr :=
  fqn <- fullyQualifiedName p (edp_name ed) ;;
  e <- new (OEnum {| e_desc := ed; e_parent := p; e_fqn := fqn;
                     e_vals := []; e_info := None |}) ;;
  add e ;;
  forM_ (λ vd, ev <- hydrateEnumValue e vd ;; enum_addValue e ev)
        (edp_value ed) ;;
  ret e.

Definition hydrateMethod (s : ptr) (md : MethodDescriptorProto) : M ptr :=
  fqn <- fullyQualifiedName s (mdp_name md) ;;
  m <- new (OMethod {| mt_desc := md; mt_service := s; mt_fqn := fqn;
                       mt_in := None; mt_out := None; mt_info := None |}) ;;
  add m ;;
  i <- mustSeen (mdp_input_type md) ;;
  asMessage i ;;
  updMethod m (method_set_in (Some i)) ;;
  o <- mustSeen (mdp_output_type md) ;;
  asMessage o ;;
  updMethod m (method_set_out (Some o)) ;;
  ret m.

Definition hydrateService (f : ptr) (sd : ServiceDescriptorProto) : M ptr :=
  fqn <- fullyQualifiedName f (sdp_name sd) ;;
  s <- new (OService {| s_desc := sd; s_file := f; s_fqn := fqn;
                        s_methods := []; s_info := None |}) ;;
  add s ;;
  forM_ (λ md, m <- hydrateMethod s md ;; service_addMethod s m)
        (sdp_method sd) ;;
  ret s.

Definition hydrateField (m : ptr) (fd : FieldDescriptorProto) : M ptr :=
  fqn <- fullyQualifiedName m (fdp_name fd) ;;
  f <- new (OField {| fl_desc := fd; fl_msg := m; fl_fqn := fqn;
                      fl_typ := None; fl_info := None |}) ;;
  add f ;;
  ret f.

Definition hydrateOneOf (m : ptr) (od : OneofDescriptorProto) : M ptr :=
  fqn <- fullyQualifiedName m (odp_name od) ;;
  o <- new (OOneOf {| o_desc := od; o_msg := m; o_fqn := fqn;
                      o_flds := []; o_info := None |}) ;;
  add o ;;
  ret o.

(** [m.preservedMsgs[i] = nm] *)
Definition setPreservedMsg (m : ptr) (i : nat) (nm : ptr) : M unit :=
  x <- asMessage m ;;
  if decide (i < length (m_preservedMsgs x))
  then store m (OMsg (msg_set_preservedMsgs
                        (<[i := Some nm]> (m_preservedMsgs x)) x))
  else panic.

(** [m.oneofs[*idx].addField(fld)] *)
Definition addToOneOf (m : ptr) (idx : Z) (fld : ptr) : M unit :=
  x <- asMessage m ;;
  if decide (idx < 0)%Z then panic else
  o <- index (m_oneofs x) (Z.to_nat idx) ;;
  oneof_addField o fld.

Fixpoint hydrateMessage (p : ptr) (md : DescriptorProto) {struct md}
  : M ptr :=
  match md with
  | MkDescriptorProto name field nested_type enum_type oneof_decl _ =>
      fqn <- fullyQualifiedName p name ;;
      m <- new (OMsg {| m_desc := md; m_parent := p; m_fqn := fqn;
                        m_msgs := []; m_preservedMsgs := []; m_enums := [];
                        m_fields := []; m_oneofs := []; m_maps := [];
                        m_info := None |}) ;;
      add m ;;
      forM_ (λ ed, e <- hydrateEnum m ed ;; msg_addEnum m e) enum_type ;;
      updMessage m (msg_set_preservedMsgs
                      (replicate (length nested_type) None)) ;;
      forMi_ (λ i nmd,
                nm <- hydrateMessage m nmd ;;
                b <- IsMapEntry nm ;;
                (if b then msg_addMapEntry m nm else msg_addMessage m nm) ;;
                setPreservedMsg m i nm)
             0 nested_type ;;
      forM_ (λ od, o <- hydrateOneOf m od ;; msg_addOneOf m o) oneof_decl ;;
      forM_ (λ fd,
               fld <- hydrateField m fd ;;
               msg_addField m fld ;;
               d <- Descriptor fld ;;
               match fdp_oneof_index d with
               | Some idx => addToOneOf m idx fld
               | None => ret tt
               end)
            field ;;
      ret m
  end.

Definition hydrateEnumFieldType (s : ptr) : M FieldType :=
  d <- Descriptor s ;;
  e <- mustSeen (fdp_type_name d) ;;
  asEnum e ;;
  ret (enumT s e).

Definition hydrateEmbedFieldType (s : ptr) : M FieldType :=
  d <- Descriptor s ;;
  m <- mustSeen (fdp_type_name d) ;;
  asMessage m ;;
  ret (embedT s m).

(** [r] is the [repT] under construction: its [scalarT] is [s]; its [el]
    is replaced by the value element. *)
Definition hydrateMapFieldType (s : ptr) (m : ptr) : M FieldType :=
  flds <- Fields m ;;
  f0 <- index flds 0 ;;
  t0 <- field_Type f0 ;;
  key <- match t0 with Some t => toElem t | None => panic end ;;
  flds <- Fields m ;;
  f1 <- index flds 1 ;;
  t1 <- field_Type f1 ;;
  el <- match t1 with Some t => toElem t | None => panic end ;;
  ret (mapT s key el).

Definition hydrateRepeatedFieldType (s : ptr) : M FieldType :=
  pt <- scalarT_ProtoType s ;;
  match pt with
  | EnumT =>
      d <- Descriptor s ;;
      e <- mustSeen (fdp_type_name d) ;;
      asEnum e ;;
      ret (repT s (enumE pt e))
  | MessageT =>
      d <- Descriptor s ;;
      m <- mustSeen (fdp_type_name d) ;;
      asMessage m ;;
      b <- IsMapEntry m ;;
      if b then hydrateMapFieldType s m
      else ret (repT s (embedE pt m))
  | _ => ret (repT s (scalarE pt))
  end.

Definition hydrateFieldType (fld : ptr) : M FieldType :=
  let s := fld in
  pt <- scalarT_ProtoType s ;;
  if decide (pt = GroupT) then
    fail (Fail "group types are deprecated and unsupported. Use an embedded message instead.")
  else
    lbl <- scalarT_ProtoLabel s ;;
    if decide (lbl = Repeated) then hydrateRepeatedFieldType s
    else if decide (pt = EnumT) then hydrateEnumFieldType s
    else if decide (pt = MessageT) then hydrateEmbedFieldType s
    else ret (scalarT s).

(** The body of the loop of [hydrateSourceCodeInfo] for one location. *)
Definition hydrateLocation (f : ptr) (loc : Location) : M unit :=
  let info : SourceCodeInfo := loc in
  let path := loc_path loc in
  let attach : M unit :=
    st <- get ;;
    match childAtPath (heap st) f path with
    | Some e => addSourceCodeInfo e info
    | None => ret tt
    end in
  match path with
  | [n] =>
      if decide (n = syntaxPath) then addSourceCodeInfo f info ;; attach
      else if decide (n = packagePath)
           then addPackageSourceCodeInfo f info ;; attach
      else ret tt
  | _ => attach
  end.

Definition hydrateSourceCodeInfo (f : ptr) (fd : FileDescriptorProto)
  : M unit :=
  forM_ (hydrateLocation f) (fdesc_source_code_info fd).

(** The two inner loops of the last pass of [hydrateFile]. *)
Definition classifyFields (flds : list ptr) : M unit :=
  forM_ (λ fld, t <- hydrateFieldType fld ;; field_addType fld t) flds.

Definition classifyMessage (m : ptr) : M unit :=
  mes <- MapEntries m ;;
  forM_ (λ me, flds <- Fields me ;; classifyFields flds) mes ;;
  flds <- Fields m ;;
  classifyFields flds.

Definition hydrateFile (pkg : ptr) (f : FileDescriptorProto) : M ptr :=
  fl <- new (OFile {| f_pkg := pkg; f_desc := f; f_enums := [];
                      f_msgs := []; f_srvs := []; f_buildTarget := false;
                      f_syntaxInfo := None; f_packageInfo := None |}) ;;
  add fl ;;
  st <- get ;;
  let buildTarget :=
    match targets (gr st) !! fdesc_name f with
    | Some _ => true
    | None => false
    end in
  updFile fl (file_set_buildTarget buildTarget) ;;
  (if buildTarget
   then st <- get ;;
        put (set_gr (set_targets (<[fdesc_name f := Some fl]>
                                    (targets (gr st))) (gr st)) st)
   else ret tt) ;;
  forM_ (λ e, x <- hydrateEnum fl e ;; file_addEnum fl x)
        (fdesc_enum_type f) ;;
  forM_ (λ md, x <- hydrateMessage fl md ;; file_addMessage fl x)
        (fdesc_message_type f) ;;
  forM_ (λ sd, x <- hydrateService fl sd ;; file_addService fl x)
        (fdesc_service f) ;;
  ms <- file_AllMessages fl ;;
  forM_ classifyMessage ms ;;
  hydrateSourceCodeInfo fl f ;;
  ret fl.

(** The state [ProcessDescriptors] starts from: empty stores and maps. *)
Definition empty_state : state :=
  {| heap := []; pkgs := [];
     gr := {| targets := ∅; packages := ∅; entities := ∅ |} |}.

Definition initTargets (names : list string) : M unit :=
  forM_ (λ f, st <- get ;;
              put (set_gr (set_targets (<[f := None]> (targets (gr st)))
                             (gr st)) st))
        names.

Definition processFile (f : FileDescriptorProto) : M unit :=
  pkg <- hydratePackage f ;;
  fl <- hydrateFile pkg f ;;
  pkg_addFile pkg fl.

(** [ProcessDescriptors]: the returned [AST] is the [graph] of the final
    state, read together with the store its addresses point into. *)
Definition ProcessDescriptors (req : CodeGeneratorRequest) : outcome unit :=
  (initTargets (file_to_generate req) ;;
   forM_ processFile (proto_file req)) empty_state.

(** ** Reasoning about computations *)

(** [wp c Q st]: if [c] run from [st] returns, its value and final state
    satisfy [Q]. *)
Definition wp {A} (c : M A) (Q : A → state → Prop) (st : state) : Prop :=
  match c st with
  | Done a st' => Q a st'
  | _ => True
  end.

Lemma wp_done {A} (c : M A) Q st a st' :
  wp c Q st → c st = Done a st' → Q a st'.
Proof. unfold wp. intros H E. by rewrite E in H. Qed.

Lemma wp_intro {A} (c : M A) (Q : A → state → Prop) st :
  (∀ a st', c st = Done a st' → Q a st') → wp c Q st.
Proof. unfold wp. intros H. destruct (c st); auto. Qed.

Lemma wp_mono {A} (c : M A) (Q Q' : A → state → Prop) st :
  wp c Q st → (∀ a st', Q a st' → Q' a st') → wp c Q' st.
Proof. unfold wp. destruct (c st); auto. Qed.

Lemma wp_ret {A} (a : A) (Q : A → state → Prop) st : Q a st → wp (ret a) Q st.
Proof. done. Qed.

Lemma wp_bind {A B} (c : M A) (k : A → M B) Q st :
  wp c (λ a st', wp (k a) Q st') st → wp (bind c k) Q st.
Proof. unfold wp, bind. destruct (c st); auto. Qed.

Lemma wp_bind_inv {A B} (c : M A) (k : A → M B) Q st :
  wp (bind c k) Q st → wp c (λ a st', wp (k a) Q st') st.
Proof. unfold wp, bind. destruct (c st); auto. Qed.

Lemma wp_get (Q : state → state → Prop) st : Q st st → wp get Q st.
Proof. done. Qed.

Lemma wp_put s (Q : unit → state → Prop) st : Q tt s → wp (put s) Q st.
Proof. done. Qed.

Lemma wp_fail {A} e (Q : A → state → Prop) st : wp (fail e) Q st.
Proof. done. Qed.

Lemma wp_panic {A} (Q : A → state → Prop) st : wp panic Q st.
Proof. done. Qed.

Lemma wp_new o (Q : ptr → state → Prop) st :
  Q (length (heap st)) (set_heap (heap st ++ [o]) st) → wp (new o) Q st.
Proof. done. Qed.

Lemma wp_deref p (Q : object → state → Prop) st :
  (∀ o, heap st !! p = Some o → Q o st) → wp (deref p) Q st.
Proof. unfold wp, deref. destruct (heap st !! p); auto. Qed.

Lemma wp_store p o (Q : unit → state → Prop) st :
  (∀ o0, heap st !! p = Some o0 → Q tt (set_heap (<[p:=o]> (heap st)) st)) →
  wp (store p o) Q st.
Proof. unfold wp, store. destruct (heap st !! p); eauto. Qed.

Lemma wp_index {A} (l : list A) i (Q : A → state → Prop) st :
  (∀ x, l !! i = Some x → Q x st) → wp (index l i) Q st.
Proof. unfold index. destruct (l !! i); [intros; by apply wp_ret; auto | done]. Qed.

Lemma wp_asFile p (Q : file → state → Prop) st :
  (∀ x, heap st !! p = Some (OFile x) → Q x st) → wp (asFile p) Q st.
Proof.
  intros H. apply wp_bind, wp_deref. intros [] E; try apply wp_panic.
  by apply wp_ret, H.
Qed.

Lemma wp_asMessage p (Q : msg → state → Prop) st :
  (∀ x, heap st !! p = Some (OMsg x) → Q x st) → wp (asMessage p) Q st.
Proof.
  intros H. apply wp_bind, wp_deref. intros [] E; try apply wp_panic.
  by apply wp_ret, H.
Qed.

Lemma wp_asEnum p (Q : enum → state → Prop) st :
  (∀ x, heap st !! p = Some (OEnum x) → Q x st) → wp (asEnum p) Q st.
Proof.
  intros H. apply wp_bind, wp_deref. intros [] E; try apply wp_panic.
  by apply wp_ret, H.
Qed.

Lemma wp_asService p (Q : service → state → Prop) st :
  (∀ x, heap st !! p = Some (OService x) → Q x st) → wp (asService p) Q st.
Proof.
  intros H. apply wp_bind, wp_deref. intros [] E; try apply wp_panic.
  by apply wp_ret, H.
Qed.

Lemma wp_asMethod p (Q : method → state → Prop) st :
  (∀ x, heap st !! p = Some (OMethod x) → Q x st) → wp (asMethod p) Q st.
Proof.
  intros H. apply wp_bind, wp_deref. intros [] E; try apply wp_panic.
  by apply wp_ret, H.
Qed.

Lemma wp_asField p (Q : field → state → Prop) st :
  (∀ x, heap st !! p = Some (OField x) → Q x st) → wp (asField p) Q st.
Proof.
  intros H. apply wp_bind, wp_deref. intros [] E; try apply wp_panic.
  by apply wp_ret, H.
Qed.

Lemma wp_asOneOf p (Q : oneof → state → Prop) st :
  (∀ x, heap st !! p = Some (OOneOf x) → Q x st) → wp (asOneOf p) Q st.
Proof.
  intros H. apply wp_bind, wp_deref. intros [] E; try apply wp_panic.
  by apply wp_ret, H.
Qed.

(** Loops: an invariant kept by the body is kept by the loop. *)
Lemma wp_forM_ {A} (f : A → M unit) (I : state → Prop) l st :
  I st → (∀ x s, x ∈ l → I s → wp (f x) (λ _, I) s) →
  wp (forM_ f l) (λ _, I) st.
Proof.
  revert st. induction l as [|x l IH]; intros st HI Hf; [done|].
  apply wp_bind. eapply wp_mono; [apply Hf; [left|done]|].
  intros [] s Hs. apply IH; [done|]. intros y s' Hy. apply Hf. by right.
Qed.

Lemma wp_forMi_ {A} (f : nat → A → M unit) (I : state → Prop) l i st :
  I st → (∀ j x s, l !! (j - i) = Some x → i ≤ j → I s → wp (f j x) (λ _, I) s) →
  wp (forMi_ f i l) (λ _, I) st.
Proof.
  revert i st. induction l as [|x l IH]; intros i st HI Hf; [done|].
  apply wp_bind. eapply wp_mono.
  { apply Hf; [|done..]. by rewrite Nat.sub_diag. }
  intros [] s Hs. apply IH; [done|]. intros j y s' Hy Hj. apply Hf; [|lia].
  replace (j - i) with (S (j - S i)) by lia. done.
Qed.

Lemma wp_mapM {A B} (f : A → M B) (I : state → Prop) l st :
  I st → (∀ x s, x ∈ l → I s → wp (f x) (λ _, I) s) →
  wp (mapM f l) (λ _, I) st.
Proof.
  revert st. induction l as [|x l IH]; intros st HI Hf; [done|].
  apply wp_bind. eapply wp_mono; [apply Hf; [left|done]|].
  intros b s Hs. apply wp_bind. eapply wp_mono.
  { apply IH; [done|]. intros y s' Hy. apply Hf. by right. }
  intros bs s' Hs'. by apply wp_ret.
Qed.

(** Induction on descriptors through their nested types. *)
Lemma DescriptorProto_nested_ind (P : DescriptorProto → Prop) :
  (∀ name field nested_type enum_type oneof_decl map_entry,
     Forall P nested_type →
     P (MkDescriptorProto name field nested_type enum_type oneof_decl
                          map_entry)) →
  ∀ md, P md.
Proof.
  intros H. fix IH 1. intros [n f nested e o b]. apply H.
  induction nested as [|x l IHl]; constructor; [apply IH | apply IHl].
Qed.

(** ** What construction never changes *)

(** The part of an object fixed at its creation: its kind, descriptor,
    parent and name (and, for a file, the build-target flag, which
    [hydrateFile] sets before anything else can see the file). *)
Definition core (o : object) : object :=
  match o with
  | OFile x => OFile {| f_pkg := f_pkg x; f_desc := f_desc x; f_enums := [];
                        f_msgs := []; f_srvs := [];
                        f_buildTarget := f_buildTarget x;
                        f_syntaxInfo := None; f_packageInfo := None |}
  | OMsg x => OMsg {| m_desc := m_desc x; m_parent := m_parent x;
                      m_fqn := m_fqn x; m_msgs := []; m_preservedMsgs := [];
                      m_enums := []; m_fields := []; m_oneofs := [];
                      m_maps := []; m_info := None |}
  | OEnum x => OEnum {| e_desc := e_desc x; e_parent := e_parent x;
                        e_fqn := e_fqn x; e_vals := []; e_info := None |}
  | OEnumVal x => OEnumVal {| ev_desc := ev_desc x; ev_enum := ev_enum x;
                              ev_fqn := ev_fqn x; ev_info := None |}
  | OService x => OService {| s_desc := s_desc x; s_file := s_file x;
                              s_fqn := s_fqn x; s_methods := [];
                              s_info := None |}
  | OMethod x => OMethod {| mt_desc := mt_desc x; mt_service := mt_service x;
                            mt_fqn := mt_fqn x; mt_in := None; mt_out := None;
                            mt_info := None |}
  | OField x => OField {| fl_desc := fl_desc x; fl_msg := fl_msg x;
                          fl_fqn := fl_fqn x; fl_typ := None;
                          fl_info := None |}
  | OOneOf x => OOneOf {| o_desc := o_desc x; o_msg := o_msg x;
                          o_fqn := o_fqn x; o_flds := []; o_info := None |}
  end.

Lemma resolveFQN_core o o' : core o' = core o → resolveFQN o' = resolveFQN o.
Proof. destruct o, o'; simpl; intros [=]; unfold file_Name; congruence. Qed.

(** [ext h h']: every object of [h] is still in [h'], at the same
    address and with the same core. *)
Definition ext (h h' : list object) : Prop :=
  ∀ p o, h !! p = Some o → ∃ o', h' !! p = Some o' ∧ core o' = core o.

Lemma ext_refl h : ext h h.
Proof. intros p o E. eauto. Qed.

Lemma ext_trans h1 h2 h3 : ext h1 h2 → ext h2 h3 → ext h1 h3.
Proof.
  intros H12 H23 p o E. destruct (H12 _ _ E) as (o2 & E2 & C2).
  destruct (H23 _ _ E2) as (o3 & E3 & C3). exists o3. split; congruence.
Qed.

Lemma ext_app h o : ext h (h ++ [o]).
Proof. intros p o' E. exists o'. split; [by apply lookup_app_l_Some|done]. Qed.

Lemma ext_insert h p o o' :
  h !! p = Some o → core o' = core o → ext h (<[p:=o']> h).
Proof.
  intros E C q oq Eq. destruct (decide (q = p)) as [->|Hne].
  - exists o'. split; [|congruence].
    apply list_lookup_insert_eq. by eapply lookup_lt_Some.
  - exists oq. by rewrite list_lookup_insert_ne.
Qed.

Lemma ext_length h h' : ext h h' → length h ≤ length h'.
Proof.
  intros H. destruct h as [|o h] using rev_ind; [simpl; lia|].
  destruct (H (length h) o) as (o' & E & _).
  { by rewrite lookup_app_r, Nat.sub_diag. }
  apply lookup_lt_Some in E. rewrite length_app. simpl. lia.
Qed.

(** Kinds and names of objects, which depend on the core only. *)
Definition is_msg (h : list object) (c : ptr) : Prop :=
  ∃ y, h !! c = Some (OMsg y).
Definition msg_flagged (h : list object) (c : ptr) (b : bool) : Prop :=
  ∃ y, h !! c = Some (OMsg y) ∧ dp_map_entry (m_desc y) = b.
Definition msg_named (h : list object) (c : ptr) (n : string) : Prop :=
  ∃ y, h !! c = Some (OMsg y) ∧ m_fqn y = n.
Definition enum_named (h : list object) (c : ptr) (n : string) : Prop :=
  ∃ y, h !! c = Some (OEnum y) ∧ e_fqn y = n.

Lemma is_msg_ext h h' c : ext h h' → is_msg h c → is_msg h' c.
Proof.
  intros H [y E]. destruct (H _ _ E) as (o' & E' & C).
  destruct o'; simplify_eq/=. by eexists.
Qed.

Lemma msg_flagged_ext h h' c b :
  ext h h' → msg_flagged h c b → msg_flagged h' c b.
Proof.
  intros H (y & E & F). destruct (H _ _ E) as (o' & E' & C).
  destruct o'; simplify_eq/=; eexists; split; [done|]; congruence.
Qed.

Lemma msg_named_ext h h' c n : ext h h' → msg_named h c n → msg_named h' c n.
Proof.
  intros H (y & E & F). destruct (H _ _ E) as (o' & E' & C).
  destruct o'; simplify_eq/=; eexists; split; [done|]; congruence.
Qed.

Lemma enum_named_ext h h' c n :
  ext h h' → enum_named h c n → enum_named h' c n.
Proof.
  intros H (y & E & F). destruct (H _ _ E) as (o' & E' & C).
  destruct o'; simplify_eq/=; eexists; split; [done|]; congruence.
Qed.

(** A field type is linked when the entity it refers to is an object of
    the right kind whose name is the type name of the field. *)
Definition linked (h : list object) (d : FieldDescriptorProto)
  (t : FieldType) : Prop :=
  match t with
  | enumT _ e | repT _ (enumE _ e) => enum_named h e (fdp_type_name d)
  | embedT _ m | repT _ (embedE _ m) => msg_named h m (fdp_type_name d)
  | _ => True
  end.

Lemma linked_ext h h' d t : ext h h' → linked h d t → linked h' d t.
Proof.
  intros H. destruct t as [| | |? []|]; simpl;
    eauto using enum_named_ext, msg_named_ext.
Qed.

(** What holds of every stored object: the ordinary nested messages of a
    message are messages not flagged as map entries, created after it; its
    map entries are messages flagged as map entries; the references of
    fields and methods are linked, and a field that has a type is not a
    group. *)
Definition obj_ok (h : list object) (p : ptr) (o : object) : Prop :=
  match o with
  | OFile x => Forall (is_msg h) (f_msgs x)
  | OMsg x =>
      Forall (λ c, p < c ∧ msg_flagged h c false) (m_msgs x) ∧
      Forall (λ c, msg_flagged h c true) (m_maps x)
  | OField x =>
      ∀ t, fl_typ x = Some t →
           linked h (fl_desc x) t ∧ fdp_type (fl_desc x) ≠ GroupT
  | OMethod x =>
      (∀ i, mt_in x = Some i → msg_named h i (mdp_input_type (mt_desc x))) ∧
      (∀ i, mt_out x = Some i → msg_named h i (mdp_output_type (mt_desc x)))
  | _ => True
  end.

Lemma obj_ok_ext h h' p o : ext h h' → obj_ok h p o → obj_ok h' p o.
Proof.
  intros H. destruct o; simpl; try done.
  - intros HF. eapply Forall_impl; [done|]. eauto using is_msg_ext.
  - intros [H1 H2]. split.
    + eapply Forall_impl; [done|]. intros c [? ?].
      eauto using msg_flagged_ext.
    + eapply Forall_impl; [done|]. eauto using msg_flagged_ext.
  - intros [H1 H2]. split; eauto using msg_named_ext.
  - intros H1 t Ht. destruct (H1 _ Ht). eauto using linked_ext.
Qed.

(** The invariant of construction. *)
Record Inv (st : state) : Prop := {
  ents_ok : ∀ k e, entities (gr st) !! k = Some e →
            ∃ o, heap st !! e = Some o ∧ resolveFQN o = k;
  all_reg : ∀ e o, heap st !! e = Some o →
            is_Some (entities (gr st) !! resolveFQN o);
  objs_ok : ∀ p o, heap st !! p = Some o → obj_ok (heap st) p o;
}.

(** The state after [e := &T{...}; g.add(e)]. *)
Definition after_new_add (o : object) (st : state) : state :=
  {| heap := heap st ++ [o]; pkgs := pkgs st;
     gr := set_entities (<[resolveFQN o := length (heap st)]>
                           (entities (gr st))) (gr st) |}.

Lemma new_add_eq {A} o (k : ptr → M A) st :
  (e <- new o ;; add e ;; k e) st = k (length (heap st)) (after_new_add o st).
Proof.
  unfold bind, new, add, deref, bind, get, put. simpl.
  by rewrite lookup_app_r, Nat.sub_diag.
Qed.

Lemma Inv_new_add o st :
  Inv st → obj_ok (heap st ++ [o]) (length (heap st)) o →
  Inv (after_new_add o st).
Proof.
  intros [Ha Hb Hc] Ho. split; simpl.
  - intros k e. rewrite lookup_insert. case_decide as Hk; intros E.
    + simplify_eq. exists o. by rewrite lookup_app_r, Nat.sub_diag.
    + destruct (Ha _ _ E) as (o' & E' & F). exists o'.
      split; [by apply lookup_app_l_Some|done].
  - intros e o' E. rewrite lookup_insert. case_decide; [done|].
    apply lookup_app_Some in E as [E|[Hl E]]; [by eapply Hb|].
    destruct (e - length (heap st)) as [|n] eqn:En; simplify_eq/=.
  - intros p o' E. apply lookup_app_Some in E as [E|[Hl E]].
    + eapply obj_ok_ext; [apply ext_app|]. by apply Hc.
    + destruct (p - length (heap st)) as [|n] eqn:En; simplify_eq/=.
      by replace p with (length (heap st)) by lia.
Qed.

Lemma Inv_store p o o' st :
  Inv st → heap st !! p = Some o → core o' = core o →
  obj_ok (heap st) p o' →
  Inv (set_heap (<[p:=o']> (heap st)) st).
Proof.
  intros [Ha Hb Hc] E C Ho.
  assert (Hext : ext (heap st) (<[p:=o']> (heap st))) by by eapply ext_insert.
  split; simpl.
  - intros k e Ek. destruct (Ha _ _ Ek) as (oe & Ee & F).
    destruct (Hext _ _ Ee) as (oe' & Ee' & C'). exists oe'.
    split; [done|]. rewrite <- F. by apply resolveFQN_core.
  - intros e oe Ee. destruct (decide (e = p)) as [->|Hne].
    + rewrite list_lookup_insert_eq in Ee by by eapply lookup_lt_Some.
      simplify_eq. rewrite (resolveFQN_core _ _ C). by eapply Hb.
    + rewrite list_lookup_insert_ne in Ee by done. by eapply Hb.
  - intros q oq Eq. eapply obj_ok_ext; [done|].
    destruct (decide (q = p)) as [->|Hne].
    + rewrite list_lookup_insert_eq in Eq by by eapply lookup_lt_Some.
      by simplify_eq.
    + rewrite list_lookup_insert_ne in Eq by done. by apply Hc.
Qed.

(** [inner st st']: what the methods called by [hydrateFile] do to the
    state: objects are added and updated, none of them a file, and the
    targets, the packages and the package store are left alone. *)
Record inner (st st' : state) : Prop := {
  in_ext : ext (heap st) (heap st');
  in_targets : targets (gr st') = targets (gr st);
  in_packages : packages (gr st') = packages (gr st);
  in_pkgs : pkgs st' = pkgs st;
  in_files : ∀ p x, heap st' !! p = Some (OFile x) → p < length (heap st);
}.

Lemma inner_refl st : inner st st.
Proof.
  split; try done; [apply ext_refl|]. intros p x E. by eapply lookup_lt_Some.
Qed.

Lemma inner_trans st1 st2 st3 : inner st1 st2 → inner st2 st3 → inner st1 st3.
Proof.
  intros [E1 T1 P1 K1 F1] [E2 T2 P2 K2 F2]. split; try congruence.
  - by eapply ext_trans.
  - intros p x E. specialize (F2 _ _ E).
    apply lookup_lt_is_Some in F2 as [o2 Eo2].
    destruct (E2 _ _ Eo2) as (o3 & Eo3 & C). simplify_eq.
    destruct o2; simplify_eq/=. by eapply F1.
Qed.

Lemma inner_new_add o st :
  (∀ x, o ≠ OFile x) → inner st (after_new_add o st).
Proof.
  intros Ho. split; try done; [apply ext_app|]. simpl. intros p x E.
  apply lookup_app_Some in E as [E|[Hl E]]; [by eapply lookup_lt_Some|].
  destruct (p - length (heap st)); simplify_eq/=. by destruct (Ho x).
Qed.

Lemma inner_store p o o' st :
  heap st !! p = Some o → core o' = core o →
  inner st (set_heap (<[p:=o']> (heap st)) st).
Proof.
  intros E C. split; try done; [by eapply ext_insert|]. simpl. intros q x Eq.
  apply lookup_lt_Some in Eq. by rewrite length_insert in Eq.
Qed.

(** [good st st']: [st'] is reached from [st] by the methods called by
    [hydrateFile], and satisfies the invariant. *)
Definition good (st st' : state) : Prop := Inv st' ∧ inner st st'.

Lemma good_refl st : Inv st → good st st.
Proof. split; [done|apply inner_refl]. Qed.

Lemma good_trans st1 st2 st3 : inner st1 st2 → good st2 st3 → good st1 st3.
Proof. intros H [? ?]. split; [done|by eapply inner_trans]. Qed.

Lemma good_new_add st0 st o :
  good st0 st → (∀ x, o ≠ OFile x) →
  obj_ok (heap st ++ [o]) (length (heap st)) o →
  good st0 (after_new_add o st).
Proof.
  intros [HI Hin] Ho Hok. split; [by apply Inv_new_add|].
  eapply inner_trans; [done|by apply inner_new_add].
Qed.

Lemma good_store st0 st p o o' :
  good st0 st → heap st !! p = Some o → core o' = core o →
  obj_ok (heap st) p o' →
  good st0 (set_heap (<[p:=o']> (heap st)) st).
Proof.
  intros [HI Hin] E C Hok. split; [by eapply Inv_store|].
  eapply inner_trans; [done|by eapply inner_store].
Qed.

Lemma good_valid st0 st p o :
  good st0 st → heap st0 !! p = Some o →
  ∃ o', heap st !! p = Some o' ∧ core o' = core o.
Proof. intros [_ [He _ _ _ _]] E. by apply He. Qed.

Lemma wp_new_add {A} o (k : ptr → M A) Q st :
  wp (k (length (heap st))) Q (after_new_add o st) →
  wp (e <- new o ;; add e ;; k e) Q st.
Proof. unfold wp. by rewrite new_add_eq. Qed.

Lemma wp_fullyQualifiedName p n (Q : string → state → Prop) st :
  (∀ s, Q s st) → wp (fullyQualifiedName p n) Q st.
Proof. intros H. apply wp_bind, wp_deref. intros o _. apply wp_ret, H. Qed.

Lemma wp_mustSeen fqn (Q : ptr → state → Prop) st :
  (∀ e, entities (gr st) !! fqn = Some e → Q e st) → wp (mustSeen fqn) Q st.
Proof.
  intros H. unfold mustSeen. apply wp_bind, wp_get.
  destruct (entities (gr st) !! fqn) eqn:E; [by apply wp_ret, H|done].
Qed.

Lemma wp_updFile p f (Q : unit → state → Prop) st :
  (∀ x, heap st !! p = Some (OFile x) →
        Q tt (set_heap (<[p:=OFile (f x)]> (heap st)) st)) →
  wp (updFile p f) Q st.
Proof.
  intros H. apply wp_bind, wp_asFile. intros x E. apply wp_store.
  intros _ _. by apply H.
Qed.

Lemma wp_updMessage p f (Q : unit → state → Prop) st :
  (∀ x, heap st !! p = Some (OMsg x) →
        Q tt (set_heap (<[p:=OMsg (f x)]> (heap st)) st)) →
  wp (updMessage p f) Q st.
Proof.
  intros H. apply wp_bind, wp_asMessage. intros x E. apply wp_store.
  intros _ _. by apply H.
Qed.

Lemma wp_updEnum p f (Q : unit → state → Prop) st :
  (∀ x, heap st !! p = Some (OEnum x) →
        Q tt (set_heap (<[p:=OEnum (f x)]> (heap st)) st)) →
  wp (updEnum p f) Q st.
Proof.
  intros H. apply wp_bind, wp_asEnum. intros x E. apply wp_store.
  intros _ _. by apply H.
Qed.

Lemma wp_updService p f (Q : unit → state → Prop) st :
  (∀ x, heap st !! p = Some (OService x) →
        Q tt (set_heap (<[p:=OService (f x)]> (heap st)) st)) →
  wp (updService p f) Q st.
Proof.
  intros H. apply wp_bind, wp_asService. intros x E. apply wp_store.
  intros _ _. by apply H.
Qed.

Lemma wp_updMethod p f (Q : unit → state → Prop) st :
  (∀ x, heap st !! p = Some (OMethod x) →
        Q tt (set_heap (<[p:=OMethod (f x)]> (heap st)) st)) →
  wp (updMethod p f) Q st.
Proof.
  intros H. apply wp_bind, wp_asMethod. intros x E. apply wp_store.
  intros _ _. by apply H.
Qed.

Lemma wp_updField p f (Q : unit → state → Prop) st :
  (∀ x, heap st !! p = Some (OField x) →
        Q tt (set_heap (<[p:=OField (f x)]> (heap st)) st)) →
  wp (updField p f) Q st.
Proof.
  intros H. apply wp_bind, wp_asField. intros x E. apply wp_store.
  intros _ _. by apply H.
Qed.

Lemma wp_updOneOf p f (Q : unit → state → Prop) st :
  (∀ x, heap st !! p = Some (OOneOf x) →
        Q tt (set_heap (<[p:=OOneOf (f x)]> (heap st)) st)) →
  wp (updOneOf p f) Q st.
Proof.
  intros H. apply wp_bind, wp_asOneOf. intros x E. apply wp_store.
  intros _ _. by apply H.
Qed.

(** *** The hydrators keep the invariant *)

Lemma hydrateEnumValue_good e vd st0 st :
  good st0 st → wp (hydrateEnumValue e vd) (λ _, good st0) st.
Proof.
  intros HG. unfold hydrateEnumValue.
  apply wp_bind, wp_fullyQualifiedName. intros fqn.
  apply wp_new_add, wp_ret. by apply good_new_add.
Qed.

Lemma hydrateEnum_good p ed st0 st :
  good st0 st → wp (hydrateEnum p ed) (λ _, good st0) st.
Proof.
  intros HG. unfold hydrateEnum.
  apply wp_bind, wp_fullyQualifiedName. intros fqn.
  apply wp_new_add, wp_bind.
  eapply wp_mono.
  { apply (wp_forM_ _ (good st0)); [by apply good_new_add|].
    intros vd s _ Hs. apply wp_bind.
    eapply wp_mono; [by apply hydrateEnumValue_good|].
    intros ev s' Hs'. apply wp_updEnum. intros x E.
    by eapply good_store. }
  intros [] s Hs. by apply wp_ret.
Qed.

Lemma ents_ok_msg st fqn i y :
  Inv st → entities (gr st) !! fqn = Some i → heap st !! i = Some (OMsg y) →
  msg_named (heap st) i fqn.
Proof.
  intros HI Ei Ey. destruct (ents_ok _ HI _ _ Ei) as (o & Eo & F).
  simplify_eq/=. by exists y.
Qed.

Lemma ents_ok_enum st fqn i y :
  Inv st → entities (gr st) !! fqn = Some i → heap st !! i = Some (OEnum y) →
  enum_named (heap st) i fqn.
Proof.
  intros HI Ei Ey. destruct (ents_ok _ HI _ _ Ei) as (o & Eo & F).
  simplify_eq/=. by exists y.
Qed.

Lemma after_new_add_lookup o st :
  heap (after_new_add o st) !! length (heap st) = Some o.
Proof. simpl. by rewrite lookup_app_r, Nat.sub_diag. Qed.

Lemma set_heap_lookup p o st :
  p < length (heap st) →
  heap (set_heap (<[p:=o]> (heap st)) st) !! p = Some o.
Proof. intros H. simpl. by apply list_lookup_insert_eq. Qed.

(** Two reads of the same address give the same object. *)
Ltac same_object :=
  repeat match goal with
         | H1 : ?l !! ?p = Some _, H2 : ?l !! ?p = Some _ |- _ =>
             rewrite H1 in H2; simplify_eq/=
         end.

Lemma hydrateMethod_good s md st0 st :
  good st0 st → wp (hydrateMethod s md) (λ _, good st0) st.
Proof.
  intros HG. unfold hydrateMethod.
  apply wp_bind, wp_fullyQualifiedName. intros fqn.
  apply wp_new_add.
  match goal with |- wp _ _ ?s => set (st1 := s) end.
  assert (HG1 : good st0 st1).
  { apply good_new_add; [done..|]. by split. }
  pose proof (after_new_add_lookup _ _ : heap st1 !! _ = _) as E1.
  clearbody st1.
  apply wp_bind, wp_mustSeen. intros i Ei.
  apply wp_bind, wp_asMessage. intros y Ey.
  apply wp_bind, wp_updMethod. intros x Ex. same_object.
  match goal with |- wp _ _ ?s => set (st2 := s) end.
  assert (HG2 : good st0 st2).
  { eapply good_store; [done..|]. split; [|done]. intros i' [= <-].
    eapply ents_ok_msg; [apply HG1|done..]. }
  pose proof (set_heap_lookup _ _ _ (lookup_lt_Some _ _ _ E1)
              : heap st2 !! _ = _) as E2.
  clearbody st2.
  apply wp_bind, wp_mustSeen. intros o Eo.
  apply wp_bind, wp_asMessage. intros yo Eyo.
  apply wp_bind, wp_updMethod. intros x' Ex'.
  pose proof (objs_ok _ (proj1 HG2) _ _ E2) as [Hin _]. same_object.
  apply wp_ret. eapply good_store; [done..|].
  split; [done|]. intros i' [= <-].
  eapply ents_ok_msg; [apply HG2|done..].
Qed.

Lemma hydrateService_good f sd st0 st :
  good st0 st → wp (hydrateService f sd) (λ _, good st0) st.
Proof.
  intros HG. unfold hydrateService.
  apply wp_bind, wp_fullyQualifiedName. intros fqn.
  apply wp_new_add, wp_bind.
  eapply wp_mono.
  { apply (wp_forM_ _ (good st0)); [by apply good_new_add|].
    intros vd s _ Hs. apply wp_bind.
    eapply wp_mono; [by apply hydrateMethod_good|].
    intros ev s' Hs'. apply wp_updService. intros x E.
    by eapply good_store. }
  intros [] s Hs. by apply wp_ret.
Qed.

Lemma hydrateField_good m fd st0 st :
  good st0 st → wp (hydrateField m fd) (λ _, good st0) st.
Proof.
  intros HG. unfold hydrateField.
  apply wp_bind, wp_fullyQualifiedName. intros fqn.
  apply wp_new_add, wp_ret. by apply good_new_add.
Qed.

Lemma hydrateOneOf_good m od st0 st :
  good st0 st → wp (hydrateOneOf m od) (λ _, good st0) st.
Proof.
  intros HG. unfold hydrateOneOf.
  apply wp_bind, wp_fullyQualifiedName. intros fqn.
  apply wp_new_add, wp_ret. by apply good_new_add.
Qed.

(** An update that leaves the nested messages, map entries and references
    of the object alone. *)
Lemma good_store_same st0 st p o o' :
  good st0 st → heap st !! p = Some o → core o' = core o →
  (obj_ok (heap st) p o → obj_ok (heap st) p o') →
  good st0 (set_heap (<[p:=o']> (heap st)) st).
Proof.
  intros HG E C H. eapply good_store; [done..|].
  apply H. by apply (objs_ok _ (proj1 HG)).
Qed.

Lemma wp_IsMapEntry m (Q : bool → state → Prop) st :
  (∀ b, msg_flagged (heap st) m b → Q b st) → wp (IsMapEntry m) Q st.
Proof.
  intros H. apply wp_bind, wp_asMessage. intros x E. apply wp_ret, H.
  by exists x.
Qed.

Lemma wp_Descriptor fld (Q : FieldDescriptorProto → state → Prop) st :
  (∀ x, heap st !! fld = Some (OField x) → Q (fl_desc x) st) →
  wp (Descriptor fld) Q st.
Proof. intros H. apply wp_bind, wp_asField. intros x E. by apply wp_ret, H. Qed.

Lemma hydrateMessage_good md :
  ∀ p st0 st, good st0 st →
  wp (hydrateMessage p md)
     (λ r st', good st0 st' ∧ length (heap st) ≤ r ∧ is_msg (heap st') r) st.
Proof.
  induction md as [name field nested_type enum_type oneof_decl map_entry IH]
    using DescriptorProto_nested_ind.
  intros p st0 st HG. simpl.
  apply wp_bind, wp_fullyQualifiedName. intros fqn.
  apply wp_new_add.
  match goal with |- wp _ _ ?s => set (st1 := s) end.
  assert (HG1 : good st0 st1) by (apply good_new_add; [done..|by split]).
  pose proof (after_new_add_lookup _ _ : heap st1 !! _ = _) as E1.
  clearbody st1. set (m := length (heap st)) in *.
  assert (Hm : ∀ s, good st1 s → m < length (heap s) ∧ is_msg (heap s) m).
  { intros s Hs. destruct (good_valid _ _ _ _ Hs E1) as (o' & Eo & C).
    split; [by eapply lookup_lt_Some|]. destruct o'; simplify_eq/=.
    by eexists. }
  eapply wp_mono with (Q := λ r s, good st1 s ∧ r = m).
  2:{ intros r s [Hs ->]. split; [|split; [done|by apply Hm]].
      eapply good_trans; [apply HG1|done]. }
  assert (HI1 : good st1 st1) by (apply good_refl, HG1).
  revert HI1. generalize st1 at 2 4. intros s0 Hs0.
  (* nested enums *)
  apply wp_bind. eapply wp_mono.
  { apply (wp_forM_ _ (good st1)); [done|].
    intros ed s _ Hs. apply wp_bind.
    eapply wp_mono; [by apply hydrateEnum_good|].
    intros e s' Hs'. apply wp_updMessage. intros x E.
    by eapply good_store_same. }
  clear s0 Hs0. intros [] s0 Hs0.
  apply wp_bind, wp_updMessage. intros x0 Ex0.
  match goal with |- wp _ _ ?s => assert (Hs1 : good st1 s) end.
  { by eapply good_store_same. }
  revert Hs1. generalize (set_heap
    (<[m:=OMsg (msg_set_preservedMsgs (replicate (length nested_type) None)
                  x0)]> (heap s0)) s0).
  clear s0 Hs0 x0 Ex0. intros s0 Hs0.
  (* nested messages *)
  apply wp_bind. eapply wp_mono.
  { apply (wp_forMi_ _ (good st1)); [done|].
    intros j nmd s Hj _ Hs. apply wp_bind.
    eapply wp_mono; [eapply (Forall_lookup_1 _ _ _ _ IH Hj); done|].
    intros nm s' (Hs' & Hnm & _).
    apply wp_bind, wp_IsMapEntry. intros b Hb.
    apply wp_bind.
    eapply wp_mono with (Q := λ _, good st1).
    { destruct b; apply wp_updMessage; intros x E.
      - eapply good_store_same; [done..|]. simpl. intros [H1 H2].
        split; [done|]. apply Forall_app. split; [done|]. by constructor.
      - eapply good_store_same; [done..|]. simpl. intros [H1 H2].
        split; [|done]. apply Forall_app. split; [done|].
        constructor; [|done]. split; [|done].
        destruct (Hm _ Hs). lia. }
    intros [] s'' Hs''. unfold setPreservedMsg.
    apply wp_bind, wp_asMessage. intros x E.
    case_decide; [|done]. apply wp_store. intros _ _.
    by eapply good_store_same. }
  clear s0 Hs0. intros [] s0 Hs0.
  (* one-of groups *)
  apply wp_bind. eapply wp_mono.
  { apply (wp_forM_ _ (good st1)); [done|].
    intros od s _ Hs. apply wp_bind.
    eapply wp_mono; [by apply hydrateOneOf_good|].
    intros e s' Hs'. apply wp_updMessage. intros x E.
    by eapply good_store_same. }
  clear s0 Hs0. intros [] s0 Hs0.
  (* fields *)
  apply wp_bind. eapply wp_mono.
  { apply (wp_forM_ _ (good st1)); [done|].
    intros fd s _ Hs. apply wp_bind.
    eapply wp_mono; [by apply hydrateField_good|].
    intros fld s' Hs'. apply wp_bind, wp_updMessage. intros x E.
    match goal with |- wp _ _ ?s => assert (Hs2 : good st1 s) end.
    { by eapply good_store_same. }
    apply wp_bind, wp_Descriptor. intros xf Exf.
    destruct (fdp_oneof_index (fl_desc xf)) as [idx|]; [|by apply wp_ret].
    unfold addToOneOf. apply wp_bind, wp_asMessage. intros x' E'.
    case_decide; [done|]. apply wp_bind, wp_index. intros o Eo.
    apply wp_updOneOf. intros xo Exo. by eapply good_store_same. }
  intros [] s Hs. by apply wp_ret.
Qed.

(** The classifier reads the graph and does not change it; the type it
    returns is linked. *)
Lemma wp_scalarT_ProtoType s (Q : ProtoType → state → Prop) st :
  (∀ x, heap st !! s = Some (OField x) → Q (fdp_type (fl_desc x)) st) →
  wp (scalarT_ProtoType s) Q st.
Proof. intros H. apply wp_bind, wp_Descriptor. intros x E. by apply wp_ret, H. Qed.

Lemma wp_scalarT_ProtoLabel s (Q : ProtoLabel → state → Prop) st :
  (∀ x, heap st !! s = Some (OField x) → Q (fdp_label (fl_desc x)) st) →
  wp (scalarT_ProtoLabel s) Q st.
Proof. intros H. apply wp_bind, wp_Descriptor. intros x E. by apply wp_ret, H. Qed.

Lemma wp_Fields m (Q : list ptr → state → Prop) st :
  (∀ x, heap st !! m = Some (OMsg x) → Q (m_fields x) st) →
  wp (Fields m) Q st.
Proof. intros H. apply wp_bind, wp_asMessage. intros x E. by apply wp_ret, H. Qed.

Lemma wp_MapEntries m (Q : list ptr → state → Prop) st :
  (∀ x, heap st !! m = Some (OMsg x) → Q (m_maps x) st) →
  wp (MapEntries m) Q st.
Proof. intros H. apply wp_bind, wp_asMessage. intros x E. by apply wp_ret, H. Qed.

Lemma wp_field_Type fld (Q : option FieldType → state → Prop) st :
  (∀ x, heap st !! fld = Some (OField x) → Q (fl_typ x) st) →
  wp (field_Type fld) Q st.
Proof. intros H. apply wp_bind, wp_asField. intros x E. by apply wp_ret, H. Qed.

Lemma toElem_pure t st : wp (toElem t) (λ _ s, s = st) st.
Proof.
  destruct t; simpl; try done;
    apply wp_bind, wp_scalarT_ProtoType; intros x E; by apply wp_ret.
Qed.

Lemma hydrateMapFieldType_pure s m st :
  wp (hydrateMapFieldType s m) (λ t s', s' = st ∧ ∃ k e, t = mapT s k e) st.
Proof.
  unfold hydrateMapFieldType.
  apply wp_bind, wp_Fields. intros x E.
  apply wp_bind, wp_index. intros f0 E0.
  apply wp_bind, wp_field_Type. intros x0 Ex0.
  apply wp_bind. eapply wp_mono with (Q := λ _ s', s' = st).
  { destruct (fl_typ x0); [apply toElem_pure|done]. }
  intros key ? ->.
  apply wp_bind, wp_Fields. intros x' E'.
  apply wp_bind, wp_index. intros f1 Ef1.
  apply wp_bind, wp_field_Type. intros x1 Ex1.
  apply wp_bind. eapply wp_mono with (Q := λ _ s', s' = st).
  { destruct (fl_typ x1); [apply toElem_pure|done]. }
  intros el ? ->. apply wp_ret. eauto.
Qed.

Lemma wp_Descriptor_at fld x (Q : FieldDescriptorProto → state → Prop) st :
  heap st !! fld = Some (OField x) → Q (fl_desc x) st →
  wp (Descriptor fld) Q st.
Proof. intros E H. apply wp_Descriptor. intros x' E'. by same_object. Qed.

Lemma wp_scalarT_ProtoType_at s x (Q : ProtoType → state → Prop) st :
  heap st !! s = Some (OField x) → Q (fdp_type (fl_desc x)) st →
  wp (scalarT_ProtoType s) Q st.
Proof. intros E H. by eapply wp_bind, wp_Descriptor_at, wp_ret. Qed.

Lemma wp_scalarT_ProtoLabel_at s x (Q : ProtoLabel → state → Prop) st :
  heap st !! s = Some (OField x) → Q (fdp_label (fl_desc x)) st →
  wp (scalarT_ProtoLabel s) Q st.
Proof. intros E H. by eapply wp_bind, wp_Descriptor_at, wp_ret. Qed.

Lemma hydrateFieldType_linked_at fld x st :
  Inv st → heap st !! fld = Some (OField x) →
  wp (hydrateFieldType fld)
     (λ t st', st' = st ∧ linked (heap st) (fl_desc x) t ∧
               fdp_type (fl_desc x) ≠ GroupT) st.
Proof.
  intros HI Ex. unfold hydrateFieldType.
  eapply wp_bind, wp_scalarT_ProtoType_at; [done|].
  case_decide as Hgroup; [done|].
  eapply wp_mono with (Q := λ t st', st' = st ∧ linked (heap st) (fl_desc x) t);
    [|by intros t s' [-> ?]].
  eapply wp_bind, wp_scalarT_ProtoLabel_at; [done|].
  case_decide.
  { unfold hydrateRepeatedFieldType.
    eapply wp_bind, wp_scalarT_ProtoType_at; [done|].
    destruct (fdp_type (fl_desc x)); try by apply wp_ret.
    - eapply wp_bind, wp_Descriptor_at; [done|].
      apply wp_bind, wp_mustSeen. intros m Em.
      apply wp_bind, wp_asMessage. intros y Ey.
      apply wp_bind, wp_IsMapEntry. intros [] Hb.
      + eapply wp_mono; [apply hydrateMapFieldType_pure|].
        by intros t s' (-> & k & e & ->).
      + apply wp_ret. split; [done|]. simpl. by eapply ents_ok_msg.
    - eapply wp_bind, wp_Descriptor_at; [done|].
      apply wp_bind, wp_mustSeen. intros e Ee.
      apply wp_bind, wp_asEnum. intros y Ey.
      apply wp_ret. split; [done|]. simpl. by eapply ents_ok_enum. }
  case_decide.
  { unfold hydrateEnumFieldType.
    eapply wp_bind, wp_Descriptor_at; [done|].
    apply wp_bind, wp_mustSeen. intros e Ee.
    apply wp_bind, wp_asEnum. intros y Ey.
    apply wp_ret. split; [done|]. simpl. by eapply ents_ok_enum. }
  case_decide.
  { unfold hydrateEmbedFieldType.
    eapply wp_bind, wp_Descriptor_at; [done|].
    apply wp_bind, wp_mustSeen. intros m Em.
    apply wp_bind, wp_asMessage. intros y Ey.
    apply wp_ret. split; [done|]. simpl. by eapply ents_ok_msg. }
  by apply wp_ret.
Qed.

Lemma hydrateFieldType_linked fld st :
  Inv st →
  wp (hydrateFieldType fld)
     (λ t st', st' = st ∧
               ∀ x, heap st !! fld = Some (OField x) →
                    linked (heap st) (fl_desc x) t ∧
                    fdp_type (fl_desc x) ≠ GroupT) st.
Proof.
  intros HI. destruct (heap st !! fld) as [o|] eqn:E.
  2:{ unfold hydrateFieldType. apply wp_bind, wp_scalarT_ProtoType.
      intros x Ex. congruence. }
  destruct o;
    try (unfold hydrateFieldType; apply wp_bind, wp_scalarT_ProtoType;
         intros x' Ex'; congruence).
  eapply wp_mono; [by apply hydrateFieldType_linked_at|].
  intros t s' [-> Hl]. split; [done|]. by intros x' [= <-].
Qed.

Lemma classifyFields_good flds st0 st :
  good st0 st → wp (classifyFields flds) (λ _, good st0) st.
Proof.
  intros HG. apply (wp_forM_ _ (good st0)); [done|].
  intros fld s _ Hs. apply wp_bind.
  eapply wp_mono; [apply hydrateFieldType_linked, Hs|].
  intros t s' [-> Hl]. apply wp_updField. intros x Ex.
  eapply good_store; [done..|]. simpl. intros t' [= <-]. by apply Hl.
Qed.

Lemma classifyMessage_good m st0 st :
  good st0 st → wp (classifyMessage m) (λ _, good st0) st.
Proof.
  intros HG. unfold classifyMessage.
  apply wp_bind, wp_MapEntries. intros x Ex.
  apply wp_bind. eapply wp_mono.
  { apply (wp_forM_ _ (good st0)); [done|].
    intros me s _ Hs. apply wp_bind, wp_Fields. intros y Ey.
    by apply classifyFields_good. }
  intros [] s Hs. apply wp_bind, wp_Fields. intros y Ey.
  by apply classifyFields_good.
Qed.

Lemma msg_AllMessages_pure fuel m st :
  wp (msg_AllMessages fuel m) (λ _ s, s = st) st.
Proof.
  revert m. induction fuel as [|n IH]; intros m; [done|]. simpl.
  apply wp_bind, wp_asMessage. intros x Ex.
  apply wp_bind. eapply wp_mono.
  { apply (wp_mapM _ (λ s, s = st)); [done|]. by intros c s _ ->. }
  intros sub s ->. by apply wp_ret.
Qed.

Lemma file_AllMessages_pure fl st :
  wp (file_AllMessages fl) (λ _ s, s = st) st.
Proof.
  unfold file_AllMessages. apply wp_bind, wp_get.
  apply wp_bind, wp_asFile. intros x Ex.
  apply wp_bind. eapply wp_mono.
  { apply (wp_mapM _ (λ s, s = st)); [done|].
    intros c s _ ->. apply msg_AllMessages_pure. }
  intros sub s ->. by apply wp_ret.
Qed.

Lemma core_addSourceCodeInfo_obj o info :
  core match o with
       | OFile x => OFile (file_set_syntaxInfo (Some info) x)
       | OMsg x => OMsg (msg_set_info (Some info) x)
       | OEnum x => OEnum (enum_set_info (Some info) x)
       | OEnumVal x => OEnumVal (enumVal_set_info (Some info) x)
       | OService x => OService (service_set_info (Some info) x)
       | OMethod x => OMethod (method_set_info (Some info) x)
       | OField x => OField (field_set_info (Some info) x)
       | OOneOf x => OOneOf (oneof_set_info (Some info) x)
       end = core o.
Proof. by destruct o. Qed.

Lemma addSourceCodeInfo_good e info st0 st :
  good st0 st → wp (addSourceCodeInfo e info) (λ _, good st0) st.
Proof.
  intros HG. unfold addSourceCodeInfo. apply wp_bind, wp_deref.
  intros o Eo. apply wp_store. intros _ _.
  eapply good_store_same; [done| done |apply core_addSourceCodeInfo_obj|].
  by destruct o.
Qed.

Lemma hydrateLocation_good f loc st0 st :
  good st0 st → wp (hydrateLocation f loc) (λ _, good st0) st.
Proof.
  intros HG. unfold hydrateLocation.
  assert (Hattach : ∀ s, good st0 s →
    wp (st <- get ;;
        match childAtPath (heap st) f (loc_path loc) with
        | Some e => addSourceCodeInfo e loc
        | None => ret tt
        end) (λ _, good st0) s).
  { intros s Hs. apply wp_bind, wp_get.
    destruct (childAtPath _ _ _); [by apply addSourceCodeInfo_good|done]. }
  destruct (loc_path loc) as [|n [|i rest]]; [by apply Hattach| |by apply Hattach].
  case_decide.
  { apply wp_bind. eapply wp_mono; [by apply addSourceCodeInfo_good|].
    intros [] s Hs. by apply Hattach. }
  case_decide; [|done].
  apply wp_bind, wp_updFile. intros x Ex. apply Hattach.
  by eapply good_store_same.
Qed.

Lemma hydrateSourceCodeInfo_good f fd st0 st :
  good st0 st → wp (hydrateSourceCodeInfo f fd) (λ _, good st0) st.
Proof.
  intros HG. apply (wp_forM_ _ (good st0)); [done|].
  intros loc s _ Hs. by apply hydrateLocation_good.
Qed.

(** *** [hydrateFile] *)

(** The new [file] once [buildTarget] is assigned. *)
Definition new_file (pkg : ptr) (f : FileDescriptorProto) (st : state)
  : file :=
  {| f_pkg := pkg; f_desc := f; f_enums := []; f_msgs := []; f_srvs := [];
     f_buildTarget := match targets (gr st) !! fdesc_name f with
                      | Some _ => true
                      | None => false
                      end;
     f_syntaxInfo := None; f_packageInfo := None |}.

(** The state after the first statements of [hydrateFile], up to the
    assignment of [g.targets]. *)
Definition after_file (pkg : ptr) (f : FileDescriptorProto) (st : state)
  : state :=
  {| heap := heap st ++ [OFile (new_file pkg f st)];
     pkgs := pkgs st;
     gr := {| targets := match targets (gr st) !! fdesc_name f with
                         | Some _ => <[fdesc_name f := Some (length (heap st))]>
                                       (targets (gr st))
                         | None => targets (gr st)
                         end;
              packages := packages (gr st);
              entities := <[fdesc_name f := length (heap st)]>
                            (entities (gr st)) |} |}.

(** The rest of [hydrateFile]. *)
Definition hydrateFile_rest (fl : ptr) (f : FileDescriptorProto) : M ptr :=
  forM_ (λ e, x <- hydrateEnum fl e ;; file_addEnum fl x)
        (fdesc_enum_type f) ;;
  forM_ (λ md, x <- hydrateMessage fl md ;; file_addMessage fl x)
        (fdesc_message_type f) ;;
  forM_ (λ sd, x <- hydrateService fl sd ;; file_addService fl x)
        (fdesc_service f) ;;
  ms <- file_AllMessages fl ;;
  forM_ classifyMessage ms ;;
  hydrateSourceCodeInfo fl f ;;
  ret fl.

Lemma hydrateFile_eq pkg f st :
  hydrateFile pkg f st
  = hydrateFile_rest (length (heap st)) f (after_file pkg f st).
Proof.
  unfold hydrateFile. rewrite new_add_eq.
  unfold bind at 1. unfold get at 1.
  unfold bind at 1. unfold updFile, asFile, bind, deref, store. simpl.
  rewrite lookup_app_r, Nat.sub_diag by done. simpl.
  rewrite lookup_app_r, Nat.sub_diag by done. simpl.
  rewrite insert_app_r_alt, Nat.sub_diag by done. simpl.
  unfold hydrateFile_rest, after_file, new_file, bind. simpl.
  by destruct (targets (gr st) !! fdesc_name f).
Qed.

Lemma Inv_after_file pkg f st : Inv st → Inv (after_file pkg f st).
Proof.
  intros HI.
  pose proof (Inv_new_add (OFile (new_file pkg f st)) st HI) as H.
  destruct H as [Ha Hb Hc]; [by constructor|]. by split.
Qed.

Lemma hydrateFile_rest_good fl f st0 st :
  good st0 st → is_Some (heap st !! fl) →
  wp (hydrateFile_rest fl f) (λ r st', good st0 st' ∧ r = fl) st.
Proof.
  intros HG Hfl. unfold hydrateFile_rest.
  apply wp_bind. eapply wp_mono.
  { apply (wp_forM_ _ (good st0)); [done|].
    intros ed s _ Hs. apply wp_bind.
    eapply wp_mono; [by apply hydrateEnum_good|].
    intros e s' Hs'. apply wp_updFile. intros x E.
    by eapply good_store_same. }
  intros [] s1 Hs1.
  apply wp_bind. eapply wp_mono.
  { apply (wp_forM_ _ (good st0)); [done|].
    intros md s _ Hs. apply wp_bind.
    eapply wp_mono; [by apply hydrateMessage_good|].
    intros m s' (Hs' & _ & Hm). apply wp_updFile. intros x E.
    eapply good_store_same; [done..|]. simpl. intros H.
    apply Forall_app. split; [done|]. by constructor. }
  intros [] s2 Hs2.
  apply wp_bind. eapply wp_mono.
  { apply (wp_forM_ _ (good st0)); [done|].
    intros sd s _ Hs. apply wp_bind.
    eapply wp_mono; [by apply hydrateService_good|].
    intros e s' Hs'. apply wp_updFile. intros x E.
    by eapply good_store_same. }
  intros [] s3 Hs3.
  apply wp_bind. eapply wp_mono; [apply file_AllMessages_pure|].
  intros ms ? ->.
  apply wp_bind. eapply wp_mono.
  { apply (wp_forM_ _ (good st0)); [done|].
    intros m s _ Hs. by apply classifyMessage_good. }
  intros [] s4 Hs4.
  apply wp_bind. eapply wp_mono; [by apply hydrateSourceCodeInfo_good|].
  intros [] s5 Hs5. by apply wp_ret.
Qed.

(** ** The whole batch *)

(** A file object with its package, descriptor and build-target flag. *)
Definition file_at (h : list object) (fl pkg : ptr)
  (d : FileDescriptorProto) (bt : bool) : Prop :=
  ∃ x, h !! fl = Some (OFile x) ∧ f_pkg x = pkg ∧ f_desc x = d ∧
       f_buildTarget x = bt.

Lemma file_at_inner st st' fl pkg d bt :
  inner st st' → file_at (heap st') fl pkg d bt ↔ file_at (heap st) fl pkg d bt.
Proof.
  intros Hin. split.
  - intros (x & E & <- & <- & <-).
    pose proof (in_files _ _ Hin _ _ E) as Hlt.
    apply lookup_lt_is_Some in Hlt as [o Eo].
    destruct (in_ext _ _ Hin _ _ Eo) as (o' & Eo' & C). same_object.
    destruct o; simplify_eq/=. by eexists.
  - intros (x & E & <- & <- & <-).
    destruct (in_ext _ _ Hin _ _ E) as (o' & Eo' & C).
    destruct o'; simplify_eq/=. by eexists.
Qed.

(** The invariant of the loop of [ProcessDescriptors] over the files
    [done] processed so far, for the requested [names]. *)
Record Top (names : list string) (done : list FileDescriptorProto)
  (st : state) : Prop := {
  top_inv : Inv st;
  top_dom : ∀ n, is_Some (targets (gr st) !! n) ↔ n ∈ names;
  top_hit : ∀ n fl, targets (gr st) !! n = Some (Some fl) →
            ∃ pkg d, file_at (heap st) fl pkg d true ∧ d ∈ done ∧
                     fdesc_name d = n;
  top_miss : ∀ n, targets (gr st) !! n = Some None →
             ∀ d, d ∈ done → fdesc_name d ≠ n;
  top_pkg : ∀ k p, packages (gr st) !! k = Some p →
            ∃ x, pkgs st !! p = Some x ∧ fdesc_package (pk_fd x) = k;
  top_pkg_dom : ∀ k, is_Some (packages (gr st) !! k) ↔
                ∃ d, d ∈ done ∧ fdesc_package d = k;
  top_file : ∀ fl pkg d bt, file_at (heap st) fl pkg d bt →
             d ∈ done ∧ packages (gr st) !! fdesc_package d = Some pkg ∧
             ∃ pk, pkgs st !! pkg = Some pk ∧ fl ∈ pk_files pk;
  top_built : ∀ d, d ∈ done → ∃ fl pkg bt, file_at (heap st) fl pkg d bt;
}.

Lemma hydratePackage_post f st p st' :
  hydratePackage f st = Done p st' →
  heap st' = heap st ∧ targets (gr st') = targets (gr st) ∧
  entities (gr st') = entities (gr st) ∧
  packages (gr st') = <[fdesc_package f := p]> (packages (gr st)) ∧
  ((packages (gr st) !! fdesc_package f = Some p ∧ pkgs st' = pkgs st) ∨
   (packages (gr st) !! fdesc_package f = None ∧ p = length (pkgs st) ∧
    pkgs st' = pkgs st ++ [{| pk_fd := f; pk_files := [] |}])).
Proof.
  unfold hydratePackage, bind, get. simpl.
  destruct (packages (gr st) !! fdesc_package f) as [q|] eqn:E.
  - intros [= <- <-]. repeat split; try done.
    + by rewrite insert_id.
    + by left.
  - unfold new_pkg, put, ret. simpl. intros [= <- <-]. repeat split; try done.
    by right.
Qed.

Lemma Inv_frame st st' :
  heap st' = heap st → entities (gr st') = entities (gr st) →
  Inv st → Inv st'.
Proof. intros Hh He [Ha Hb Hc]. split; rewrite ?Hh, ?He; done. Qed.

Lemma file_at_after_file pkg f st fl pkg' d bt :
  file_at (heap (after_file pkg f st)) fl pkg' d bt ↔
  file_at (heap st) fl pkg' d bt ∨
  (fl = length (heap st) ∧ pkg' = pkg ∧ d = f ∧
   bt = match targets (gr st) !! fdesc_name f with
        | Some _ => true
        | None => false
        end).
Proof.
  unfold file_at. simpl. split.
  - intros (x & E & <- & <- & <-).
    apply lookup_app_Some in E as [E|[Hl E]]; [left; by eexists|right].
    destruct (fl - length (heap st)) as [|n] eqn:En; simplify_eq/=.
    split; [lia|done].
  - intros [(x & E & <- & <- & <-)|(-> & -> & -> & ->)].
    + exists x. split; [by apply lookup_app_l_Some|done].
    + eexists. split; [by rewrite lookup_app_r, Nat.sub_diag|done].
Qed.

Lemma processFile_run f st st' :
  Inv st → processFile f st = Done tt st' →
  ∃ p st_p st_r pk,
    hydratePackage f st = Done p st_p ∧
    good (after_file p f st_p) st_r ∧
    pkgs st_r !! p = Some pk ∧
    st' = set_pkgs (<[p := {| pk_fd := pk_fd pk;
                              pk_files := pk_files pk ++ [length (heap st)] |}]>
                      (pkgs st_r)) st_r.
Proof.
  intros HI. unfold processFile, bind.
  destruct (hydratePackage f st) as [p st_p| | |] eqn:EP; try done.
  destruct (hydratePackage_post _ _ _ _ EP) as (Hh & _ & He & _).
  assert (HIp : Inv st_p) by by eapply Inv_frame.
  rewrite hydrateFile_eq.
  pose proof (hydrateFile_rest_good (length (heap st_p)) f
                (after_file p f st_p) (after_file p f st_p)) as Hw.
  unfold wp in Hw.
  destruct (hydrateFile_rest _ _ _) as [fl st_r| | |]; try done.
  destruct Hw as [HG ->].
  { by apply good_refl, Inv_after_file. }
  { simpl. rewrite lookup_app_r, Nat.sub_diag by done. eauto. }
  unfold pkg_addFile. destruct (pkgs st_r !! p) as [pk|] eqn:Epk; [|done].
  intros [= <-]. exists p, st_p, st_r, pk. by rewrite Hh.
Qed.

Lemma processFile_top names done f st st' :
  Top names done st → processFile f st = Done tt st' →
  Top names (done ++ [f]) st'.
Proof.
  intros HT Hrun.
  destruct (processFile_run _ _ _ (top_inv _ _ _ HT) Hrun)
    as (p & st_p & st_r & pk & EP & [HIr Hin] & Epk & ->).
  destruct (hydratePackage_post _ _ _ _ EP) as (Hh & Ht & He & Hp & Hpk).
  pose proof (in_pkgs _ _ Hin) as Hpkgs. simpl in Hpkgs.
  pose proof (in_targets _ _ Hin) as Htg. simpl in Htg.
  rewrite Ht, Hh in Htg.
  pose proof (in_packages _ _ Hin) as Hpa. simpl in Hpa.
  assert (Hfile : ∀ fl pkg d bt,
    file_at (heap st_r) fl pkg d bt ↔
    file_at (heap st) fl pkg d bt ∨
    (fl = length (heap st) ∧ pkg = p ∧ d = f ∧
     bt = match targets (gr st) !! fdesc_name f with
          | Some _ => true | None => false end)).
  { intros. rewrite (file_at_inner _ _ _ _ _ _ Hin), file_at_after_file.
    by rewrite Hh, Ht. }
  assert (Hold : ∀ q x, pkgs st !! q = Some x → pkgs st_p !! q = Some x).
  { intros q x E. destruct Hpk as [[_ ->]|(_ & _ & ->)]; [done|].
    by apply lookup_app_l_Some. }
  assert (Hpv : ∃ x, pkgs st_p !! p = Some x ∧
                     fdesc_package (pk_fd x) = fdesc_package f).
  { destruct Hpk as [[E ->]|(_ & -> & ->)].
    - by apply (top_pkg _ _ _ HT).
    - eexists. by rewrite lookup_app_r, Nat.sub_diag. }
  rewrite Hpkgs in Epk.
  split; simpl.
  - by eapply Inv_frame; [| |exact HIr].
  - intros n. rewrite Htg, <- (top_dom _ _ _ HT).
    destruct (targets (gr st) !! fdesc_name f) eqn:E; [|done].
    rewrite lookup_insert. case_decide; [|done]. subst.
    split; intros _; [by rewrite E|done].
  - intros n fl. rewrite Htg. intros E.
    assert (targets (gr st) !! n = Some (Some fl) ∨
            (n = fdesc_name f ∧ fl = length (heap st) ∧
             is_Some (targets (gr st) !! fdesc_name f))) as [E'|(-> & -> & Hs)].
    { destruct (targets (gr st) !! fdesc_name f) eqn:E1; [|by left].
      rewrite lookup_insert in E. case_decide; [right|by left].
      simplify_eq. eauto. }
    + destruct (top_hit _ _ _ HT _ _ E') as (pkg & d & Hf & Hd & Hn).
      exists pkg, d. rewrite Hfile, elem_of_app. auto.
    + exists p, f. rewrite Hfile, elem_of_app, list_elem_of_singleton.
      destruct Hs as [? ->]. split; [by right|auto].
  - intros n. rewrite Htg. intros E d.
    rewrite elem_of_app, list_elem_of_singleton.
    destruct (targets (gr st) !! fdesc_name f) eqn:E1.
    + rewrite lookup_insert in E. case_decide; [done|].
      intros [Hd| ->]; [by eapply (top_miss _ _ _ HT)|done].
    + intros [Hd| ->]; [by eapply (top_miss _ _ _ HT)|]. congruence.
  - intros k q. rewrite Hpa, Hp, Hpkgs, lookup_insert.
    case_decide.
    + intros [= <-]. subst k. rewrite list_lookup_insert_eq
        by by eapply lookup_lt_Some.
      eexists. split; [done|]. simpl. destruct Hpv as (x & Ex & Hx).
      by simplify_eq.
    + intros E. destruct (top_pkg _ _ _ HT _ _ E) as (x & Ex & Hx).
      destruct (decide (q = p)) as [->|Hne].
      * rewrite list_lookup_insert_eq by by eapply lookup_lt_Some.
        eexists. split; [done|]. simpl. apply Hold in Ex. by simplify_eq.
      * rewrite list_lookup_insert_ne by done. eauto.
  - intros k. rewrite Hpa, Hp, lookup_insert. case_decide.
    + subst. split; [|done]. intros _. exists f.
      by rewrite elem_of_app, list_elem_of_singleton; auto.
    + rewrite (top_pkg_dom _ _ _ HT). split; intros (d & Hd & Hk).
      * exists d. rewrite elem_of_app. auto.
      * apply elem_of_app in Hd as [Hd|Hd]; [eauto|].
        apply list_elem_of_singleton in Hd. congruence.
  - intros fl pkg d bt. rewrite Hfile, Hpa, Hp, Hpkgs, elem_of_app,
      list_elem_of_singleton.
    intros [Hf|(-> & -> & -> & ->)].
    + destruct (top_file _ _ _ HT _ _ _ _ Hf) as (Hd & Epkg & x & Ex & Hx).
      split; [by left|]. split.
      { rewrite lookup_insert. case_decide as Hk; [|done].
        rewrite <- Hk in Epkg. destruct Hpk as [[E' _]|[E' _]]; congruence. }
      destruct (decide (pkg = p)) as [->|Hne].
      * rewrite list_lookup_insert_eq by by eapply lookup_lt_Some.
        eexists. split; [done|]. simpl. apply Hold in Ex. simplify_eq.
        apply elem_of_app. auto.
      * rewrite list_lookup_insert_ne by done. eauto.
    + split; [by right|]. split; [by rewrite lookup_insert_eq|].
      rewrite list_lookup_insert_eq by by eapply lookup_lt_Some.
      eexists. split; [done|]. simpl.
      apply elem_of_app. right. by apply list_elem_of_singleton.
  - intros d. rewrite elem_of_app, list_elem_of_singleton.
    intros [Hd| ->].
    + destruct (top_built _ _ _ HT _ Hd) as (fl & pkg & bt & Hf).
      exists fl, pkg, bt. rewrite Hfile. auto.
    + do 3 eexists. rewrite Hfile. right. done.
Qed.

Lemma initTargets_run names st :
  ∃ st', initTargets names st = Done tt st' ∧
         heap st' = heap st ∧ pkgs st' = pkgs st ∧
         packages (gr st') = packages (gr st) ∧
         entities (gr st') = entities (gr st) ∧
         ∀ n, targets (gr st') !! n
              = if decide (n ∈ names) then Some None
                else targets (gr st) !! n.
Proof.
  revert st. induction names as [|f names IH]; intros st.
  - exists st. by repeat split.
  - unfold initTargets. simpl. unfold bind at 1. unfold bind at 1. simpl.
    match goal with |- context [forM_ _ names ?s] =>
      destruct (IH s) as (st' & E & Hh & Hp & Hpa & He & Ht) end.
    exists st'. unfold initTargets in E. rewrite E.
    repeat split; try done. intros n. rewrite Ht. simpl.
    rewrite lookup_insert.
    destruct (decide (n ∈ f :: names)) as [H|H]; rewrite elem_of_cons in H;
      destruct (decide (n ∈ names)), (decide (f = n));
      first [done | exfalso; intuition congruence].
Qed.

Lemma Inv_empty : Inv empty_state.
Proof. split; simpl; intros ? ?; by rewrite ?lookup_empty, ?lookup_nil. Qed.

Lemma processFiles_top names l :
  ∀ done st st', Top names done st → forM_ processFile l st = Done tt st' →
  Top names (done ++ l) st'.
Proof.
  induction l as [|f l IH]; intros done st st' HT.
  - intros [= <-]. by rewrite app_nil_r.
  - simpl. unfold bind at 1.
    destruct (processFile f st) as [[] st1| | |] eqn:E; try done.
    intros Hrun. replace (done ++ f :: l) with ((done ++ [f]) ++ l)
      by by rewrite <- app_assoc.
    eapply IH; [|done]. by eapply processFile_top.
Qed.

(** The graph returned by [ProcessDescriptors] satisfies the invariant of
    the whole batch. *)
Lemma ProcessDescriptors_top req st :
  ProcessDescriptors req = Done tt st →
  Top (file_to_generate req) (proto_file req) st.
Proof.
  unfold ProcessDescriptors, bind.
  destruct (initTargets_run (file_to_generate req) empty_state)
    as (st0 & -> & Hh & Hp & Hpa & He & Ht).
  apply (processFiles_top _ _ []).
  split; rewrite ?Hh, ?Hp, ?Hpa, ?He; simpl.
  - eapply Inv_frame; [done..|apply Inv_empty].
  - intros n. rewrite Ht. case_decide; [done|]. simpl.
    rewrite lookup_empty. split; [by intros []|done].
  - intros n fl. rewrite Ht. case_decide; [done|]. simpl.
    by rewrite lookup_empty.
  - intros n _ d Hd. by apply elem_of_nil in Hd.
  - intros k p. by rewrite lookup_empty.
  - intros k. rewrite lookup_empty. split; [by intros []|].
    intros (d & Hd & _). by apply elem_of_nil in Hd.
  - intros fl pkg d bt (x & E & _). by rewrite lookup_nil in E.
  - intros d Hd. by apply elem_of_nil in Hd.
Qed.

(** ** A batch of two files

    Package [x]: [b.proto] declares message [B] and enum [E]; [a.proto],
    processed after it, declares message [A] with a repeated field, a map
    field (and its map-entry message), an enum field and a message field,
    and a service.  [a.proto] and a file that is not in the batch are
    requested. *)
Module Example.
Local Open Scope string_scope.

Definition fld (name : string) (number : Z) (label : ProtoLabel)
  (type : ProtoType) (type_name : string) : FieldDescriptorProto :=
  {| fdp_name := name; fdp_number := number; fdp_label := label;
     fdp_type := type; fdp_type_name := type_name;
     fdp_oneof_index := None |}.

Definition B : DescriptorProto := MkDescriptorProto "B" [] [] [] [] false.

Definition E : EnumDescriptorProto :=
  {| edp_name := "E";
     edp_value := [{| evdp_name := "ZERO"; evdp_number := 0 |}] |}.

Definition TagsEntry : DescriptorProto :=
  MkDescriptorProto "TagsEntry"
    [fld "key" 1 Optional StringT ""; fld "value" 2 Optional MessageT ".x.B"]
    [] [] [] true.

Definition A : DescriptorProto :=
  MkDescriptorProto "A"
    [fld "items" 1 Repeated MessageT ".x.B";
     fld "tags" 2 Repeated MessageT ".x.A.TagsEntry";
     fld "kind" 3 Optional EnumT ".x.E";
     fld "one" 4 Optional MessageT ".x.B";
     fld "id" 5 Optional Int32T ""]
    [TagsEntry] [] [] false.

Definition S : ServiceDescriptorProto :=
  {| sdp_name := "S";
     sdp_method := [{| mdp_name := "Get"; mdp_input_type := ".x.A";
                       mdp_output_type := ".x.B" |}] |}.

Definition loc (path : list Z) (comment : string) : Location :=
  {| loc_path := path; loc_span := []; loc_leading_comments := comment;
     loc_trailing_comments := "" |}.

Definition b_proto : FileDescriptorProto :=
  {| fdesc_name := "b.proto"; fdesc_package := "x";
     fdesc_message_type := [B]; fdesc_enum_type := [E];
     fdesc_service := []; fdesc_source_code_info := [];
     fdesc_syntax := "proto3" |}.

Definition a_proto : FileDescriptorProto :=
  {| fdesc_name := "a.proto"; fdesc_package := "x";
     fdesc_message_type := [A]; fdesc_enum_type := [];
     fdesc_service := [S];
     fdesc_source_code_info :=
       [loc [12%Z] "syntax"; loc [2%Z] "package";
        loc [4; 0; 2; 0]%Z "items"; loc [4; 7]%Z "nothing"; loc [9%Z] "";
        loc [4; 0; 2; 0; 1]%Z ""];
     fdesc_syntax := "proto3" |}.

Definition req : CodeGeneratorRequest :=
  {| file_to_generate := ["a.proto"; "missing.proto"];
     proto_file := [b_proto; a_proto] |}.

(** The state [ProcessDescriptors] ends in. *)
Definition final : state :=
  Eval vm_compute in
    match ProcessDescriptors req with
    | Done _ st => st
    | _ => empty_state
    end.

Lemma run : ProcessDescriptors req = Done tt final.
Proof. vm_compute. reflexivity. Qed.
End Example.

(** ** Properties of the graph *)

(** An object whose resolved name no other object has is the one the
    registry holds under that name. *)
Lemma registered_unique st e o :
  Inv st → NoDup (resolveFQN <$> heap st) → heap st !! e = Some o →
  entities (gr st) !! resolveFQN o = Some e.
Proof.
  intros HI Hnd E. destruct (all_reg _ HI _ _ E) as [e' E'].
  destruct (ents_ok _ HI _ _ E') as (o' & Eo' & F).
  rewrite E'. f_equal. eapply NoDup_lookup; [done| |].
  - rewrite list_lookup_fmap, Eo'. simpl. by rewrite F.
  - by rewrite list_lookup_fmap, E.
Qed.

(** C1. FQN round-trip: in the graph built from a batch in which no two
    entities share a resolved FQN, [Lookup] at the resolved FQN of any
    hydrated entity (the declared path of a [File], the fully-qualified
    name of any other entity) returns that very object, and [true]. *)
Theorem fqn_round_trip req st :
  ProcessDescriptors req = Done tt st →
  NoDup (resolveFQN <$> heap st) →
  ∀ e o, heap st !! e = Some o →
         Lookup (gr st) (resolveFQN o) = (Some e, true).
Proof.
  intros Hrun Hnd e o E. unfold Lookup.
  by rewrite (registered_unique st e o
                (top_inv _ _ _ (ProcessDescriptors_top _ _ Hrun)) Hnd E).
Qed.

Lemma fqn_round_trip_witness :
  Lookup (gr Example.final) ".x.B" = (Some 3, true) ∧
  Lookup (gr Example.final) "a.proto" = (Some 4, true).
Proof.
  assert (Hnd : NoDup (resolveFQN <$> heap Example.final)).
  { apply (bool_decide_unpack _). vm_compute. exact I. }
  pose proof (fqn_round_trip Example.req Example.final Example.run Hnd) as H.
  split.
  - destruct (heap Example.final !! 3) as [o|] eqn:E;
      [|vm_compute in E; discriminate].
    specialize (H 3 o E). vm_compute in E. injection E as <-. exact H.
  - destruct (heap Example.final !! 4) as [o|] eqn:E;
      [|vm_compute in E; discriminate].
    specialize (H 4 o E). vm_compute in E. injection E as <-. exact H.
Defined.

(** What [mustSeen] returns is the address the registry holds. *)
Lemma mustSeen_run fqn st :
  mustSeen fqn st
  = match entities (gr st) !! fqn with
    | Some existing => Done existing st
    | None => Fatal (Failf "expected entity %q has not been hydrated" [fqn])
    end.
Proof. unfold mustSeen, bind, get. by destruct (entities (gr st) !! fqn). Qed.

Lemma Descriptor_run fld x st :
  heap st !! fld = Some (OField x) → Descriptor fld st = Done (fl_desc x) st.
Proof. intros E. unfold Descriptor, asField, bind, deref. by rewrite E. Qed.

Lemma asMessage_run p x st :
  heap st !! p = Some (OMsg x) → asMessage p st = Done x st.
Proof. intros E. unfold asMessage, bind, deref. by rewrite E. Qed.

Lemma asEnum_run p x st :
  heap st !! p = Some (OEnum x) → asEnum p st = Done x st.
Proof. intros E. unfold asEnum, bind, deref. by rewrite E. Qed.

Lemma IsMapEntry_run m y st :
  heap st !! m = Some (OMsg y) →
  IsMapEntry m st = Done (dp_map_entry (m_desc y)) st.
Proof. intros E. unfold IsMapEntry, bind. by rewrite (asMessage_run _ _ _ E). Qed.

Lemma asField_run p x st :
  heap st !! p = Some (OField x) → asField p st = Done x st.
Proof. intros E. unfold asField, bind, deref. by rewrite E. Qed.

(** *** The classifier, run on a stored field *)

Definition group_message : string :=
  "group types are deprecated and unsupported. Use an embedded message instead.".

Definition not_hydrated (fqn : string) : fatal :=
  Failf "expected entity %q has not been hydrated" [fqn].

Lemma hydrateEnumFieldType_run fld x st :
  heap st !! fld = Some (OField x) →
  hydrateEnumFieldType fld st
  = match entities (gr st) !! fdp_type_name (fl_desc x) with
    | None => Fatal (not_hydrated (fdp_type_name (fl_desc x)))
    | Some e => match heap st !! e with
                | Some (OEnum _) => Done (enumT fld e) st
                | _ => Panic
                end
    end.
Proof.
  intros Ex. unfold hydrateEnumFieldType. unfold bind at 1.
  rewrite (Descriptor_run _ _ _ Ex). unfold bind at 1. rewrite mustSeen_run.
  destruct (entities (gr st) !! _) as [e|]; [|done].
  unfold bind, asEnum, bind, deref.
  by destruct (heap st !! e) as [[]|].
Qed.

Lemma hydrateEmbedFieldType_run fld x st :
  heap st !! fld = Some (OField x) →
  hydrateEmbedFieldType fld st
  = match entities (gr st) !! fdp_type_name (fl_desc x) with
    | None => Fatal (not_hydrated (fdp_type_name (fl_desc x)))
    | Some m => match heap st !! m with
                | Some (OMsg _) => Done (embedT fld m) st
                | _ => Panic
                end
    end.
Proof.
  intros Ex. unfold hydrateEmbedFieldType. unfold bind at 1.
  rewrite (Descriptor_run _ _ _ Ex). unfold bind at 1. rewrite mustSeen_run.
  destruct (entities (gr st) !! _) as [e|]; [|done].
  unfold bind, asMessage, bind, deref.
  by destruct (heap st !! e) as [[]|].
Qed.

Lemma hydrateRepeatedFieldType_run fld x st :
  heap st !! fld = Some (OField x) →
  hydrateRepeatedFieldType fld st
  = match fdp_type (fl_desc x) with
    | EnumT =>
        match entities (gr st) !! fdp_type_name (fl_desc x) with
        | None => Fatal (not_hydrated (fdp_type_name (fl_desc x)))
        | Some e => match heap st !! e with
                    | Some (OEnum _) => Done (repT fld (enumE EnumT e)) st
                    | _ => Panic
                    end
        end
    | MessageT =>
        match entities (gr st) !! fdp_type_name (fl_desc x) with
        | None => Fatal (not_hydrated (fdp_type_name (fl_desc x)))
        | Some m => match heap st !! m with
                    | Some (OMsg y) =>
                        if dp_map_entry (m_desc y)
                        then hydrateMapFieldType fld m st
                        else Done (repT fld (embedE MessageT m)) st
                    | _ => Panic
                    end
        end
    | pt => Done (repT fld (scalarE pt)) st
    end.
Proof.
  intros Ex. unfold hydrateRepeatedFieldType, scalarT_ProtoType.
  unfold bind at 1. unfold bind at 1. rewrite (Descriptor_run _ _ _ Ex).
  simpl. destruct (fdp_type (fl_desc x)); try done.
  - unfold bind at 1. rewrite (Descriptor_run _ _ _ Ex).
    unfold bind at 1. rewrite mustSeen_run.
    destruct (entities (gr st) !! _) as [m|]; [|done].
    unfold bind at 1. unfold asMessage, bind at 1, deref.
    destruct (heap st !! m) as [[]|] eqn:Em; try done. simpl.
    unfold bind at 1. rewrite (IsMapEntry_run _ _ _ Em).
    by destruct (dp_map_entry _).
  - unfold bind at 1. rewrite (Descriptor_run _ _ _ Ex).
    unfold bind at 1. rewrite mustSeen_run.
    destruct (entities (gr st) !! _) as [m|]; [|done].
    unfold bind, asEnum, bind, deref.
    by destruct (heap st !! m) as [[]|].
Qed.

Lemma hydrateFieldType_run fld x st :
  heap st !! fld = Some (OField x) →
  hydrateFieldType fld st
  = if decide (fdp_type (fl_desc x) = GroupT)
    then Fatal (Fail group_message)
    else if decide (fdp_label (fl_desc x) = Repeated)
    then hydrateRepeatedFieldType fld st
    else if decide (fdp_type (fl_desc x) = EnumT)
    then hydrateEnumFieldType fld st
    else if decide (fdp_type (fl_desc x) = MessageT)
    then hydrateEmbedFieldType fld st
    else Done (scalarT fld) st.
Proof.
  intros Ex. unfold hydrateFieldType, scalarT_ProtoType, scalarT_ProtoLabel.
  unfold bind at 1. unfold bind at 1. rewrite (Descriptor_run _ _ _ Ex).
  simpl. case_decide; [done|].
  unfold bind at 1. unfold bind at 1. rewrite (Descriptor_run _ _ _ Ex).
  simpl. by repeat case_decide.
Qed.






(** *** Map fields *)

(** The element-level type of a field type, read off the store: what
    [toElem] returns when it returns. *)
Definition elem_of_type (h : list object) (t : FieldType)
  : option FieldTypeElem :=
  match t with
  | scalarT f =>
      match h !! f with
      | Some (OField x) => Some (scalarE (fdp_type (fl_desc x)))
      | _ => None
      end
  | enumT f e =>
      match h !! f with
      | Some (OField x) => Some (enumE (fdp_type (fl_desc x)) e)
      | _ => None
      end
  | embedT f m =>
      match h !! f with
      | Some (OField x) => Some (embedE (fdp_type (fl_desc x)) m)
      | _ => None
      end
  | repT _ _ | mapT _ _ _ => None
  end.

(** The element-level type of the [i]-th field of the message [y]. *)
Definition entry_elem (h : list object) (y : msg) (i : nat)
  : option FieldTypeElem :=
  match m_fields y !! i with
  | Some f =>
      match h !! f with
      | Some (OField x) =>
          match fl_typ x with
          | Some t => elem_of_type h t
          | None => None
          end
      | _ => None
      end
  | None => None
  end.

Lemma toElem_run t st :
  toElem t st = match elem_of_type (heap st) t with
                | Some e => Done e st
                | None => Panic
                end.
Proof.
  destruct t; simpl; try done;
    unfold scalarT_ProtoType, Descriptor, asField, bind, deref;
    by destruct (heap st !! fld) as [[]|].
Qed.

Lemma field_Type_run f st :
  field_Type f st = match heap st !! f with
                    | Some (OField x) => Done (fl_typ x) st
                    | _ => Panic
                    end.
Proof.
  unfold field_Type, asField, bind, deref.
  by destruct (heap st !! f) as [[]|].
Qed.

Lemma entry_elem_run {B} (y : msg) i (K : FieldTypeElem → M B) st :
  (f <- index (m_fields y) i ;;
   t <- field_Type f ;;
   e <- match t with Some t => toElem t | None => panic end ;;
   K e) st
  = match entry_elem (heap st) y i with
    | Some e => K e st
    | None => Panic
    end.
Proof.
  unfold entry_elem, index, bind at 1.
  destruct (m_fields y !! i) as [f|]; [|done]. simpl.
  unfold bind at 1. rewrite field_Type_run.
  destruct (heap st !! f) as [[]|]; try done.
  unfold bind at 1. destruct (fl_typ x) as [t|]; [|done].
  rewrite toElem_run. by destruct (elem_of_type _ _).
Qed.

Lemma hydrateMapFieldType_run fld m y st :
  heap st !! m = Some (OMsg y) →
  hydrateMapFieldType fld m st
  = match entry_elem (heap st) y 0, entry_elem (heap st) y 1 with
    | Some k, Some v => Done (mapT fld k v) st
    | _, _ => Panic
    end.
Proof.
  intros Em.
  assert (Hf : Fields m st = Done (m_fields y) st).
  { unfold Fields, bind. by rewrite (asMessage_run _ _ _ Em). }
  unfold hydrateMapFieldType. unfold bind at 1. rewrite Hf.
  rewrite entry_elem_run. destruct (entry_elem (heap st) y 0) as [k|]; [|done].
  unfold bind at 1. rewrite Hf. rewrite entry_elem_run.
  by destruct (entry_elem (heap st) y 1).
Qed.

(** A batch whose message [M] has a map field [tags], the entry message
    of which has the key field alone. *)
Module EntryExample.
Local Open Scope string_scope.

Definition TagsEntry : DescriptorProto :=
  MkDescriptorProto "TagsEntry"
    [Example.fld "key" 1 Optional StringT ""] [] [] [] true.

Definition M : DescriptorProto :=
  MkDescriptorProto "M"
    [Example.fld "tags" 1 Repeated MessageT ".x.M.TagsEntry"]
    [TagsEntry] [] [] false.

Definition m_proto : FileDescriptorProto :=
  {| fdesc_name := "m.proto"; fdesc_package := "x";
     fdesc_message_type := [M]; fdesc_enum_type := [];
     fdesc_service := []; fdesc_source_code_info := [];
     fdesc_syntax := "proto3" |}.

Definition req : CodeGeneratorRequest :=
  {| file_to_generate := ["m.proto"]; proto_file := [m_proto] |}.

(** The state in which [hydrateFile] applies the classifier to [tags]:
    the file (0), [M] (1), [TagsEntry] (2), [key] (3) and [tags] (4) are
    hydrated, and the field of the entry is classified. *)
Definition st : state :=
  Eval vm_compute in
    match (initTargets (file_to_generate req) ;;
           pkg <- hydratePackage m_proto ;;
           (λ s, (forM_ (λ md, x <- hydrateMessage 0 md ;;
                                file_addMessage 0 x)
                        (fdesc_message_type m_proto) ;;
                  mes <- MapEntries 1 ;;
                  forM_ (λ me, flds <- Fields me ;; classifyFields flds) mes)
                   (after_file pkg m_proto s)))
            empty_state with
    | Done _ s => s
    | _ => empty_state
    end.
End EntryExample.

(** The claim as it is worded fails: the field [tags] is repeated and its
    type is a message flagged as a map entry, and the classifier panics on
    it, as [ProcessDescriptors] does on the batch, because the entry has
    no second field. *)
Lemma map_shape_counterexample :
  (∃ x y,
     heap EntryExample.st !! 4 = Some (OField x) ∧
     fdp_label (fl_desc x) = Repeated ∧
     fdp_type (fl_desc x) = MessageT ∧
     entities (gr EntryExample.st) !! fdp_type_name (fl_desc x) = Some 2 ∧
     heap EntryExample.st !! 2 = Some (OMsg y) ∧
     dp_map_entry (m_desc y) = true ∧
     length (m_fields y) = 1) ∧
  hydrateFieldType 4 EntryExample.st = Panic ∧
  ProcessDescriptors EntryExample.req = Panic.
Proof.
  split; [|split].
  - do 2 eexists. split; [reflexivity|]. by vm_compute.
  - by vm_compute.
  - by vm_compute.
Qed.



(** *** The order of classification *)

(** C4. Classification order.  On any stored field (a field of a map-entry
    message is a field like any other): (1) a group type is a fatal
    failure, whatever the label; (2) otherwise a repeated label gives what
    the repeated-type handling gives, a [repT] whose element mirrors the
    underlying type: the scalar kind, the resolved enum, or the resolved
    message when it is not a map entry; (3) otherwise an enum type gives
    the [enumT] of the enum the registry holds; (4) otherwise a message
    type gives the [embedT] of the message the registry holds; (5)
    otherwise the result is the [scalarT] of the field, whose kind is the
    declared one. *)
Theorem classification_order fld x st :
  heap st !! fld = Some (OField x) →
  let d := fl_desc x in
  (fdp_type d = GroupT →
   hydrateFieldType fld st = Fatal (Fail group_message)) ∧
  (fdp_type d ≠ GroupT → fdp_label d = Repeated →
   hydrateFieldType fld st = hydrateRepeatedFieldType fld st ∧
   (fdp_type d ≠ EnumT → fdp_type d ≠ MessageT →
    hydrateFieldType fld st = Done (repT fld (scalarE (fdp_type d))) st) ∧
   (∀ e y, fdp_type d = EnumT →
      entities (gr st) !! fdp_type_name d = Some e →
      heap st !! e = Some (OEnum y) →
      hydrateFieldType fld st = Done (repT fld (enumE EnumT e)) st) ∧
   (∀ m y, fdp_type d = MessageT →
      entities (gr st) !! fdp_type_name d = Some m →
      heap st !! m = Some (OMsg y) → dp_map_entry (m_desc y) = false →
      hydrateFieldType fld st = Done (repT fld (embedE MessageT m)) st)) ∧
  (fdp_label d ≠ Repeated → fdp_type d = EnumT →
   ∀ e y, entities (gr st) !! fdp_type_name d = Some e →
          heap st !! e = Some (OEnum y) →
          hydrateFieldType fld st = Done (enumT fld e) st) ∧
  (fdp_label d ≠ Repeated → fdp_type d = MessageT →
   ∀ m y, entities (gr st) !! fdp_type_name d = Some m →
          heap st !! m = Some (OMsg y) →
          hydrateFieldType fld st = Done (embedT fld m) st) ∧
  (fdp_label d ≠ Repeated → fdp_type d ≠ GroupT → fdp_type d ≠ EnumT →
   fdp_type d ≠ MessageT →
   hydrateFieldType fld st = Done (scalarT fld) st ∧
   scalarT_ProtoType fld st = Done (fdp_type d) st).
Proof.
  intros Ex d. subst d. rewrite (hydrateFieldType_run _ _ _ Ex).
  split; [|split; [|split; [|split]]].
  - intros ->. done.
  - intros Hg Hl. split; [by repeat case_decide|].
    repeat case_decide; try done.
    rewrite (hydrateRepeatedFieldType_run _ _ _ Ex).
    split; [|split].
    + intros He Hm. by destruct (fdp_type (fl_desc x)).
    + intros e y Ht Ee Ey. by rewrite Ht, Ee, Ey.
    + intros m y Ht Em Ey Hy. by rewrite Ht, Em, Ey, Hy.
  - intros Hl Ht e y Ee Ey. repeat case_decide; try congruence.
    rewrite (hydrateEnumFieldType_run _ _ _ Ex). by rewrite Ee, Ey.
  - intros Hl Ht m y Em Ey. repeat case_decide; try congruence.
    rewrite (hydrateEmbedFieldType_run _ _ _ Ex). by rewrite Em, Ey.
  - intros Hl Hg He Hm. split; [by repeat case_decide|].
    unfold scalarT_ProtoType, bind. by rewrite (Descriptor_run _ _ _ Ex).
Qed.

Lemma classification_order_witness :
  hydrateFieldType 13 Example.final = Done (scalarT 13) Example.final ∧
  hydrateFieldType 11 Example.final = Done (enumT 11 1) Example.final ∧
  hydrateFieldType 12 Example.final = Done (embedT 12 3) Example.final ∧
  hydrateFieldType 9 Example.final
  = Done (repT 9 (embedE MessageT 3)) Example.final.
Proof.
  split; [|split; [|split]].
  - refine (proj1 (proj2 (proj2 (proj2 (proj2
      (classification_order 13 _ Example.final eq_refl))))
      _ _ _ _)); done.
  - refine (proj1 (proj2 (proj2
      (classification_order 11 _ Example.final eq_refl)))
      _ eq_refl 1 _ eq_refl eq_refl); done.
  - refine (proj1 (proj2 (proj2 (proj2
      (classification_order 12 _ Example.final eq_refl))))
      _ eq_refl 3 _ eq_refl eq_refl); done.
  - refine (proj2 (proj2 (proj2 (proj1 (proj2
      (classification_order 9 _ Example.final eq_refl)) _ eq_refl)))
      3 _ eq_refl eq_refl eq_refl eq_refl); done.
Defined.

(** *** Fatal failures *)



(** A batch whose only message has a group field. *)
Module GroupExample.
Local Open Scope string_scope.

Definition G : DescriptorProto :=
  MkDescriptorProto "G"
    [Example.fld "id" 1 Optional Int32T "";
     Example.fld "old" 2 Optional GroupT ".x.G.Old";
     Example.fld "name" 3 Optional StringT ""]
    [] [] [] false.

Definition g_proto : FileDescriptorProto :=
  {| fdesc_name := "g.proto"; fdesc_package := "x";
     fdesc_message_type := [G]; fdesc_enum_type := [];
     fdesc_service := []; fdesc_source_code_info := [];
     fdesc_syntax := "proto2" |}.

Definition req : CodeGeneratorRequest :=
  {| file_to_generate := ["g.proto"]; proto_file := [g_proto] |}.

(** A store holding the group field alone. *)
Definition st : state :=
  set_heap [OField {| fl_desc := Example.fld "old" 2 Optional GroupT "";
                      fl_msg := 0; fl_fqn := ".x.G.old"; fl_typ := None;
                      fl_info := None |}] empty_state.
End GroupExample.



(** The [method] that [hydrateMethod] creates under the service [o]. *)
Definition new_method (s : ptr) (o : object) (md : MethodDescriptorProto)
  : object :=
  OMethod {| mt_desc := md; mt_service := s;
             mt_fqn := FullyQualifiedName o +:+ "." +:+ mdp_name md;
             mt_in := None; mt_out := None; mt_info := None |}.

Lemma fullyQualifiedName_run p o n st :
  heap st !! p = Some o →
  fullyQualifiedName p n st = Done (FullyQualifiedName o +:+ "." +:+ n) st.
Proof. intros E. unfold fullyQualifiedName, bind, deref. by rewrite E. Qed.

Lemma hydrateMethod_input s o md st :
  heap st !! s = Some o →
  let st1 := after_new_add (new_method s o md) st in
  entities (gr st1) !! mdp_input_type md = None →
  hydrateMethod s md st = Fatal (not_hydrated (mdp_input_type md)).
Proof.
  intros Es st1 Ei. unfold hydrateMethod. unfold bind at 1.
  rewrite (fullyQualifiedName_run _ _ _ _ Es). rewrite new_add_eq.
  fold (new_method s o md). fold st1.
  unfold bind at 1. rewrite mustSeen_run. by rewrite Ei.
Qed.

Lemma hydrateMethod_output s o md st i y :
  heap st !! s = Some o →
  let st1 := after_new_add (new_method s o md) st in
  entities (gr st1) !! mdp_input_type md = Some i →
  heap st1 !! i = Some (OMsg y) →
  entities (gr st1) !! mdp_output_type md = None →
  hydrateMethod s md st = Fatal (not_hydrated (mdp_output_type md)).
Proof.
  intros Es st1 Ei Ey Eo. unfold hydrateMethod. unfold bind at 1.
  rewrite (fullyQualifiedName_run _ _ _ _ Es). rewrite new_add_eq.
  fold (new_method s o md). fold st1.
  unfold bind at 1. rewrite mustSeen_run, Ei.
  unfold bind at 1. rewrite (asMessage_run _ _ _ Ey).
  unfold bind at 1. unfold updMethod, asMethod, bind at 1, bind at 1, deref.
  pose proof (after_new_add_lookup (new_method s o md) st) as Em.
  fold st1 in Em. rewrite Em. simpl. unfold store. rewrite Em.
  unfold bind at 1. rewrite mustSeen_run. simpl in Eo |- *. by rewrite Eo.
Qed.

(** C6. Broken reference.  [mustSeen] on an FQN that the registry does not
    hold at that moment is the fatal failure that names the FQN, and on an
    FQN that it holds returns the registered entity without failing.  So
    is every resolution of a reference: the classifier on a field of enum
    or message type whose type name is absent, and [hydrateMethod] when
    the input type, or the output type, is absent once the method itself
    is registered. *)
Theorem broken_reference :
  (∀ fqn st,
     entities (gr st) !! fqn = None →
     mustSeen fqn st = Fatal (not_hydrated fqn)) ∧
  (∀ fqn e st,
     entities (gr st) !! fqn = Some e → mustSeen fqn st = Done e st) ∧
  (∀ fld x st,
     heap st !! fld = Some (OField x) →
     fdp_type (fl_desc x) = EnumT ∨ fdp_type (fl_desc x) = MessageT →
     entities (gr st) !! fdp_type_name (fl_desc x) = None →
     hydrateFieldType fld st
     = Fatal (not_hydrated (fdp_type_name (fl_desc x)))) ∧
  (∀ s o md st,
     heap st !! s = Some o →
     entities (gr (after_new_add (new_method s o md) st))
       !! mdp_input_type md = None →
     hydrateMethod s md st = Fatal (not_hydrated (mdp_input_type md))) ∧
  (∀ s o md st i y,
     heap st !! s = Some o →
     entities (gr (after_new_add (new_method s o md) st))
       !! mdp_input_type md = Some i →
     heap (after_new_add (new_method s o md) st) !! i = Some (OMsg y) →
     entities (gr (after_new_add (new_method s o md) st))
       !! mdp_output_type md = None →
     hydrateMethod s md st = Fatal (not_hydrated (mdp_output_type md))).
Proof.
  split; [|split; [|split; [|split]]].
  - intros fqn st E. by rewrite mustSeen_run, E.
  - intros fqn e st E. by rewrite mustSeen_run, E.
  - intros fld x st Ex Ht En. rewrite (hydrateFieldType_run _ _ _ Ex).
    case_decide as Hg; [destruct Ht; congruence|].
    case_decide.
    { rewrite (hydrateRepeatedFieldType_run _ _ _ Ex).
      destruct Ht as [-> | ->]; by rewrite En. }
    case_decide.
    { rewrite (hydrateEnumFieldType_run _ _ _ Ex). by rewrite En. }
    case_decide; [|destruct Ht; congruence].
    rewrite (hydrateEmbedFieldType_run _ _ _ Ex). by rewrite En.
  - intros s o md st Es Ei. by eapply hydrateMethod_input.
  - intros s o md st i y Es Ei Ey Eo. by eapply hydrateMethod_output.
Qed.

Lemma broken_reference_witness :
  mustSeen ".x.Missing" Example.final = Fatal (not_hydrated ".x.Missing") ∧
  mustSeen ".x.B" Example.final = Done 3 Example.final.
Proof.
  split.
  - apply (proj1 broken_reference). vm_compute. reflexivity.
  - apply (proj1 (proj2 broken_reference)). vm_compute. reflexivity.
Defined.


(** *** Targets *)

(** C7. Target resolution.  In the graph returned for a request, every
    requested name has an entry in the target map; when a descriptor of the
    batch has that name as its path, the entry is a [File] hydrated from a
    descriptor of the batch with that path, whose build-target flag is set;
    when none has, the entry is the [nil] it was given at the start. *)
Theorem target_resolution req st n :
  ProcessDescriptors req = Done tt st →
  n ∈ file_to_generate req →
  is_Some (Targets (gr st) !! n) ∧
  ((∃ d, d ∈ proto_file req ∧ fdesc_name d = n) →
   ∃ fl x, Targets (gr st) !! n = Some (Some fl) ∧
           heap st !! fl = Some (OFile x) ∧
           f_desc x ∈ proto_file req ∧ fdesc_name (f_desc x) = n ∧
           f_buildTarget x = true) ∧
  ((∀ d, d ∈ proto_file req → fdesc_name d ≠ n) →
   Targets (gr st) !! n = Some None).
Proof.
  intros Hrun Hn. pose proof (ProcessDescriptors_top _ _ Hrun) as HT.
  unfold Targets.
  pose proof (proj2 (top_dom _ _ _ HT n) Hn) as [v Ev].
  split; [by eexists|]. split.
  - intros (d & Hd & Hname). destruct v as [fl|].
    + destruct (top_hit _ _ _ HT _ _ Ev)
        as (pkg & d' & (x & Ex & _ & <- & Hbt) & Hd' & Hn').
      by exists fl, x.
    + by destruct (top_miss _ _ _ HT _ Ev _ Hd).
  - intros Hnone. destruct v as [fl|]; [|done].
    destruct (top_hit _ _ _ HT _ _ Ev)
      as (pkg & d' & _ & Hd' & Hn').
    by destruct (Hnone _ Hd').
Qed.

Lemma target_resolution_witness :
  is_Some (Targets (gr Example.final) !! "a.proto") ∧
  Targets (gr Example.final) !! "missing.proto" = Some None.
Proof.
  split.
  - refine (proj1 (target_resolution Example.req Example.final "a.proto"
                     Example.run _)).
    apply (bool_decide_unpack _). vm_compute. exact I.
  - refine (proj2 (proj2 (target_resolution Example.req Example.final
                            "missing.proto" Example.run _)) _).
    + apply (bool_decide_unpack _). vm_compute. exact I.
    + intros d Hd. apply elem_of_cons in Hd as [->|Hd]; [discriminate|].
      apply list_elem_of_singleton in Hd as ->. discriminate.
Defined.

(** *** Packages *)

(** C9. Package deduplication.  [hydratePackage] enters the package it
    returns in the package map under the declared package name, and for a
    descriptor whose package name is already in the map it returns the
    record found there and changes nothing: two descriptors of one package
    (the empty name included) get the same record.  In the graph returned
    for a batch, the package map has an entry exactly for the package names
    of the batch, and for every descriptor of the batch there is a [File]
    hydrated from it whose package is the record the map holds for its
    package name, and which is among the files of that record. *)
Theorem package_deduplication :
  (∀ f st p st',
     hydratePackage f st = Done p st' →
     packages (gr st') !! fdesc_package f = Some p) ∧
  (∀ f st p,
     packages (gr st) !! fdesc_package f = Some p →
     hydratePackage f st = Done p st) ∧
  (∀ req st,
     ProcessDescriptors req = Done tt st →
     (∀ k, is_Some (Packages (gr st) !! k) ↔
           ∃ d, d ∈ proto_file req ∧ fdesc_package d = k) ∧
     (∀ d, d ∈ proto_file req →
        ∃ fl x p pk,
          heap st !! fl = Some (OFile x) ∧ f_desc x = d ∧
          Packages (gr st) !! fdesc_package d = Some p ∧ f_pkg x = p ∧
          pkgs st !! p = Some pk ∧ fl ∈ pk_files pk)).
Proof.
  split; [|split].
  - intros f st p st' Hrun.
    destruct (hydratePackage_post _ _ _ _ Hrun) as (_ & _ & _ & -> & _).
    apply lookup_insert_eq.
  - intros f st p E. unfold hydratePackage, bind, get. simpl. by rewrite E.
  - intros req st Hrun. pose proof (ProcessDescriptors_top _ _ Hrun) as HT.
    split; [apply (top_pkg_dom _ _ _ HT)|].
    intros d Hd.
    destruct (top_built _ _ _ HT _ Hd) as (fl & p & bt & Hf).
    destruct (top_file _ _ _ HT _ _ _ _ Hf) as (_ & Ep & pk & Epk & Hin).
    destruct Hf as (x & Ex & <- & <- & _).
    by exists fl, x, (f_pkg x), pk.
Qed.

Lemma package_deduplication_witness :
  hydratePackage Example.a_proto Example.final = Done 0 Example.final ∧
  (is_Some (Packages (gr Example.final) !! "x") ↔
   ∃ d, d ∈ proto_file Example.req ∧ fdesc_package d = "x").
Proof.
  split.
  - exact (proj1 (proj2 package_deduplication) Example.a_proto Example.final
             0 eq_refl).
  - exact (proj1 (proj2 (proj2 package_deduplication) Example.req
                    Example.final Example.run) "x").
Defined.

(** *** Source locations *)

(** The object with the location attached, as [addSourceCodeInfo] stores
    it. *)
Definition with_info (o : object) (info : SourceCodeInfo) : object :=
  match o with
  | OFile x => OFile (file_set_syntaxInfo (Some info) x)
  | OMsg x => OMsg (msg_set_info (Some info) x)
  | OEnum x => OEnum (enum_set_info (Some info) x)
  | OEnumVal x => OEnumVal (enumVal_set_info (Some info) x)
  | OService x => OService (service_set_info (Some info) x)
  | OMethod x => OMethod (method_set_info (Some info) x)
  | OField x => OField (field_set_info (Some info) x)
  | OOneOf x => OOneOf (oneof_set_info (Some info) x)
  end.

Lemma addSourceCodeInfo_run e o info st :
  heap st !! e = Some o →
  addSourceCodeInfo e info st
  = Done tt (set_heap (<[e := with_info o info]> (heap st)) st).
Proof.
  intros E. unfold addSourceCodeInfo, bind, deref, store. by rewrite E, E.
Qed.

Lemma addPackageSourceCodeInfo_run f x info st :
  heap st !! f = Some (OFile x) →
  addPackageSourceCodeInfo f info st
  = Done tt (set_heap (<[f := OFile (file_set_packageInfo (Some info) x)]>
                         (heap st)) st).
Proof.
  intros E. unfold addPackageSourceCodeInfo, updFile, asFile, bind, deref,
    store. rewrite E. simpl. by rewrite E.
Qed.

Lemma childAtPath_valid h path : ∀ e c,
  childAtPath h e path = Some c → is_Some (h !! c).
Proof.
  assert (H : ∀ n path, length path ≤ n → ∀ e c,
              childAtPath h e path = Some c → is_Some (h !! c)).
  { intros n. induction n as [|n IH]; intros [|a [|i rest]] Hlen e c;
      simpl in *; try lia; try done.
    - destruct (h !! e) eqn:E; intros [= <-]; eauto.
    - destruct (h !! e) eqn:E; intros [= <-]; eauto.
    - destruct (h !! e) as [o|]; [|done].
      destruct (child o a i) as [c'|]; [|done].
      apply IH. lia. }
  intros e c. by apply (H (length path)).
Qed.

(** The lookup of the location's entity and the attachment that end the
    body of the loop. *)
Lemma attach_run f loc st :
  (s <- get ;;
   match childAtPath (heap s) f (loc_path loc) with
   | Some e => addSourceCodeInfo e loc
   | None => ret tt
   end) st
  = match childAtPath (heap st) f (loc_path loc) with
    | Some e =>
        match heap st !! e with
        | Some o => Done tt (set_heap (<[e := with_info o loc]> (heap st)) st)
        | None => Panic
        end
    | None => Done tt st
    end.
Proof.
  unfold bind, get. destruct (childAtPath _ _ _) as [e|] eqn:Ec; [|done].
  destruct (childAtPath_valid _ _ _ _ Ec) as [o Eo]. rewrite Eo.
  by apply addSourceCodeInfo_run.
Qed.

Lemma hydrateLocation_run f x loc st :
  heap st !! f = Some (OFile x) →
  hydrateLocation f loc st
  = match loc_path loc with
    | [n] =>
        if decide (n = syntaxPath) then
          Done tt (set_heap (<[f := OFile (file_set_syntaxInfo (Some loc) x)]>
                               (heap st)) st)
        else if decide (n = packagePath) then
          Done tt (set_heap (<[f := OFile (file_set_packageInfo (Some loc) x)]>
                               (heap st)) st)
        else Done tt st
    | path =>
        match childAtPath (heap st) f path with
        | Some e =>
            match heap st !! e with
            | Some o =>
                Done tt (set_heap (<[e := with_info o loc]> (heap st)) st)
            | None => Panic
            end
        | None => Done tt st
        end
    end.
Proof.
  intros Ef. unfold hydrateLocation.
  pose proof (attach_run f loc) as Ha.
  destruct (loc_path loc) as [|n [|i rest]] eqn:Ep.
  - by rewrite Ha.
  - case_decide.
    + unfold bind at 1. rewrite (addSourceCodeInfo_run _ _ _ _ Ef).
      by rewrite Ha.
    + case_decide; [|done]. unfold bind at 1.
      rewrite (addPackageSourceCodeInfo_run _ _ _ _ Ef). by rewrite Ha.
  - by rewrite Ha.
Qed.

Lemma hydrateLocation_total f x loc st :
  heap st !! f = Some (OFile x) →
  ∃ st' x', hydrateLocation f loc st = Done tt st' ∧
            heap st' !! f = Some (OFile x').
Proof.
  intros Ef. rewrite (hydrateLocation_run _ _ _ _ Ef).
  assert (Hlt : f < length (heap st)) by by eapply lookup_lt_Some.
  assert (Hattach : ∀ path,
    ∃ st' x',
      match childAtPath (heap st) f path with
      | Some e =>
          match heap st !! e with
          | Some o => Done tt (set_heap (<[e := with_info o loc]> (heap st)) st)
          | None => Panic
          end
      | None => Done tt st
      end = Done tt st' ∧ heap st' !! f = Some (OFile x')).
  { intros path. destruct (childAtPath _ _ _) as [e|] eqn:Ec; [|eauto].
    destruct (childAtPath_valid _ _ _ _ Ec) as [o Eo]. rewrite Eo.
    destruct (decide (e = f)) as [->|Hne].
    - rewrite Ef in Eo. injection Eo as <-. do 2 eexists.
      split; [done|]. simpl. by apply list_lookup_insert_eq.
    - do 2 eexists. split; [done|]. simpl.
      by rewrite list_lookup_insert_ne. }
  destruct (loc_path loc) as [|n [|i rest]]; [apply Hattach| |apply Hattach].
  repeat case_decide; do 2 eexists; (split; [done|]); simpl;
    first [by apply list_lookup_insert_eq | done].
Qed.

(** The locations [locs] bound one after the other from the state [st],
    ending in the state [st'], in the words of the specification: a path
    of length one that is the syntax field number attaches the location as
    the syntax commentary of the file; one that is the package field number
    attaches it as the package commentary; another path of length one is
    passed over; any other path is attached to the entity it resolves to
    from the file, and passed over when it resolves to nothing. *)
Inductive bound (f : ptr) : list Location → state → state → Prop :=
  | bound_end st : bound f [] st st
  | bound_syntax loc locs x st st' :
      loc_path loc = [syntaxPath] →
      heap st !! f = Some (OFile x) →
      bound f locs
        (set_heap (<[f := OFile (file_set_syntaxInfo (Some loc) x)]> (heap st))
           st) st' →
      bound f (loc :: locs) st st'
  | bound_package loc locs x st st' :
      loc_path loc = [packagePath] →
      heap st !! f = Some (OFile x) →
      bound f locs
        (set_heap (<[f := OFile (file_set_packageInfo (Some loc) x)]> (heap st))
           st) st' →
      bound f (loc :: locs) st st'
  | bound_other loc locs n st st' :
      loc_path loc = [n] → n ≠ syntaxPath → n ≠ packagePath →
      bound f locs st st' →
      bound f (loc :: locs) st st'
  | bound_entity loc locs e o st st' :
      length (loc_path loc) ≠ 1 →
      childAtPath (heap st) f (loc_path loc) = Some e →
      heap st !! e = Some o →
      bound f locs (set_heap (<[e := with_info o loc]> (heap st)) st) st' →
      bound f (loc :: locs) st st'
  | bound_nothing loc locs st st' :
      length (loc_path loc) ≠ 1 →
      childAtPath (heap st) f (loc_path loc) = None →
      bound f locs st st' →
      bound f (loc :: locs) st st'.

Lemma with_info_file (e : ptr) o loc (f : ptr) x (h : list object) :
  h !! f = Some (OFile x) → h !! e = Some o →
  ∃ x1, <[e := with_info o loc]> h !! f = Some (OFile x1) ∧
        f_packageInfo x1 = f_packageInfo x.
Proof.
  intros Ef Eo. destruct (decide (e = f)) as [->|Hne].
  - rewrite Ef in Eo. injection Eo as <-.
    rewrite list_lookup_insert_eq by by eapply lookup_lt_Some.
    by eexists.
  - rewrite list_lookup_insert_ne by done. by eexists.
Qed.

Lemma hydrateSourceCodeInfo_bound f locs : ∀ st x,
  heap st !! f = Some (OFile x) →
  ∃ st', forM_ (hydrateLocation f) locs st = Done tt st' ∧
         bound f locs st st'.
Proof.
  induction locs as [|loc locs IH]; intros st x Ef.
  { eexists. split; [done|]. constructor. }
  assert (Hlt : f < length (heap st)) by by eapply lookup_lt_Some.
  simpl. unfold bind at 1. rewrite (hydrateLocation_run _ _ _ _ Ef).
  assert (Hattach : ∀ path, loc_path loc = path → length path ≠ 1 →
    ∃ st',
      match
        match childAtPath (heap st) f path with
        | Some e =>
            match heap st !! e with
            | Some o => Done tt (set_heap (<[e := with_info o loc]> (heap st)) st)
            | None => Panic
            end
        | None => Done tt st
        end
      with
      | Done a st1 => forM_ (hydrateLocation f) locs st1
      | Fatal e => Fatal e
      | Panic => Panic
      | Diverge => Diverge
      end = Done tt st' ∧ bound f (loc :: locs) st st').
  { intros path Ep Hlen.
    destruct (childAtPath (heap st) f path) as [e|] eqn:Ec.
    - destruct (childAtPath_valid _ _ _ _ Ec) as [o Eo]. rewrite Eo.
      destruct (with_info_file e o loc f x _ Ef Eo) as (x1 & E1 & _).
      destruct (IH (set_heap (<[e := with_info o loc]> (heap st)) st) x1 E1)
        as (st' & Hrun & Hb).
      exists st'. split; [done|].
      eapply bound_entity; [by rewrite Ep|by rewrite Ep|done..].
    - destruct (IH _ _ Ef) as (st' & Hrun & Hb). exists st'.
      split; [done|]. eapply bound_nothing; [by rewrite Ep|by rewrite Ep|done]. }
  destruct (loc_path loc) as [|n [|i rest]] eqn:Ep.
  - by apply Hattach.
  - case_decide as Hs; [|case_decide as Hp].
    + subst n.
      edestruct (IH (set_heap (<[f := OFile (file_set_syntaxInfo (Some loc) x)]>
                                 (heap st)) st)) as (st' & Hrun & Hb).
      { simpl. by apply list_lookup_insert_eq. }
      exists st'. split; [done|]. by eapply bound_syntax.
    + subst n.
      edestruct (IH (set_heap (<[f := OFile (file_set_packageInfo (Some loc) x)]>
                                 (heap st)) st)) as (st' & Hrun & Hb).
      { simpl. by apply list_lookup_insert_eq. }
      exists st'. split; [done|]. by eapply bound_package.
    + destruct (IH _ _ Ef) as (st' & Hrun & Hb). exists st'.
      split; [done|]. by eapply bound_other.
  - apply Hattach; [done|simpl; lia].
Qed.

(** Once a location is the package commentary of the file, one stays so
    to the end of the loop. *)
Lemma bound_packageInfo f locs st st' :
  bound f locs st st' →
  ∀ x, heap st !! f = Some (OFile x) →
  ∃ x', heap st' !! f = Some (OFile x') ∧
        ((∃ l, f_packageInfo x = Some l ∧ loc_path l = [packagePath]) ∨
         (∃ l, l ∈ locs ∧ loc_path l = [packagePath]) →
         ∃ l', f_packageInfo x' = Some l' ∧ loc_path l' = [packagePath]).
Proof.
  induction 1 as [st|loc locs x st st' Hp Ex Hb IH|loc locs x st st' Hp Ex Hb IH
                  |loc locs n st st' Hp Hn1 Hn2 Hb IH
                  |loc locs e o st st' Hlen Hc Eo Hb IH
                  |loc locs st st' Hlen Hc Hb IH]; intros x0 Ef.
  - exists x0. split; [done|]. intros [H|(l & Hl & _)]; [done|].
    by apply elem_of_nil in Hl.
  - rewrite Ex in Ef. injection Ef as <-.
    edestruct IH as (x' & E' & Himp).
    { simpl. apply list_lookup_insert_eq. by eapply lookup_lt_Some. }
    exists x'. split; [done|]. intros Hor. apply Himp.
    destruct Hor as [H|(l & Hl & Hpl)]; [by left|].
    apply elem_of_cons in Hl as [->|Hl]; [|right; eauto].
    rewrite Hp in Hpl. discriminate.
  - rewrite Ex in Ef. injection Ef as <-.
    edestruct IH as (x' & E' & Himp).
    { simpl. apply list_lookup_insert_eq. by eapply lookup_lt_Some. }
    exists x'. split; [done|]. intros _. apply Himp. left. by exists loc.
  - destruct (IH _ Ef) as (x' & E' & Himp).
    exists x'. split; [done|]. intros Hor. apply Himp.
    destruct Hor as [H|(l & Hl & Hpl)]; [by left|].
    apply elem_of_cons in Hl as [->|Hl]; [|right; eauto].
    rewrite Hp in Hpl. congruence.
  - destruct (with_info_file e o loc f x0 _ Ef Eo) as (x1 & E1 & Hk).
    destruct (IH _ E1) as (x' & E' & Himp).
    exists x'. split; [done|]. intros Hor. apply Himp.
    destruct Hor as [H|(l & Hl & Hpl)]; [left; by rewrite Hk|].
    apply elem_of_cons in Hl as [->|Hl]; [|right; eauto].
    rewrite Hpl in Hlen. done.
  - destruct (IH _ Ef) as (x' & E' & Himp).
    exists x'. split; [done|]. intros Hor. apply Himp.
    destruct Hor as [H|(l & Hl & Hpl)]; [by left|].
    apply elem_of_cons in Hl as [->|Hl]; [|right; eauto].
    rewrite Hpl in Hlen. done.
Qed.

(** C8. Source-location binding.  For a location of a file: a path of
    length one equal to the syntax field number attaches the location as
    the syntax commentary of the file; one equal to the package field
    number attaches it as the package commentary; any other path of length
    one is skipped; a path of any other length is resolved by
    [childAtPath] from the file and the location is attached to the entity
    found, and when the path resolves to nothing the state is unchanged.
    [hydrateSourceCodeInfo] binds every location of the descriptor in this
    way, in the order of the descriptor, each from the state the one
    before it left, and always completes: no path is an error.  When one
    of the locations has the package field number as its path, the file
    ends with a package commentary of that path. *)
Theorem source_location_binding f x loc st :
  heap st !! f = Some (OFile x) →
  (loc_path loc = [syntaxPath] →
   hydrateLocation f loc st
   = Done tt (set_heap (<[f := OFile (file_set_syntaxInfo (Some loc) x)]>
                          (heap st)) st)) ∧
  (loc_path loc = [packagePath] →
   hydrateLocation f loc st
   = Done tt (set_heap (<[f := OFile (file_set_packageInfo (Some loc) x)]>
                          (heap st)) st)) ∧
  (∀ n, loc_path loc = [n] → n ≠ syntaxPath → n ≠ packagePath →
        hydrateLocation f loc st = Done tt st) ∧
  (length (loc_path loc) ≠ 1 →
   ∀ e, childAtPath (heap st) f (loc_path loc) = Some e →
        ∃ o, heap st !! e = Some o ∧
             hydrateLocation f loc st
             = Done tt (set_heap (<[e := with_info o loc]> (heap st)) st)) ∧
  (length (loc_path loc) ≠ 1 →
   childAtPath (heap st) f (loc_path loc) = None →
   hydrateLocation f loc st = Done tt st) ∧
  (∀ fd, ∃ st',
     hydrateSourceCodeInfo f fd st = Done tt st' ∧
     bound f (fdesc_source_code_info fd) st st' ∧
     ((∃ l, l ∈ fdesc_source_code_info fd ∧ loc_path l = [packagePath]) →
      ∃ x' l', heap st' !! f = Some (OFile x') ∧
               f_packageInfo x' = Some l' ∧ loc_path l' = [packagePath])).
Proof.
  intros Ef. rewrite (hydrateLocation_run _ _ _ _ Ef).
  split; [|split; [|split; [|split; [|split]]]].
  - intros ->. by case_decide.
  - intros ->. by repeat case_decide.
  - intros n -> H1 H2. by repeat case_decide.
  - intros Hlen e Ec. destruct (childAtPath_valid _ _ _ _ Ec) as [o Eo].
    exists o. split; [done|].
    destruct (loc_path loc) as [|n [|i rest]]; [|done|]; by rewrite Ec, Eo.
  - intros Hlen Ec.
    destruct (loc_path loc) as [|n [|i rest]]; [|done|]; by rewrite Ec.
  - intros fd. unfold hydrateSourceCodeInfo.
    destruct (hydrateSourceCodeInfo_bound f (fdesc_source_code_info fd) st x Ef)
      as (st' & Hrun & Hb).
    exists st'. split; [done|]. split; [done|]. intros Hl.
    destruct (bound_packageInfo _ _ _ _ Hb _ Ef) as (x' & E' & Himp).
    destruct Himp as (l' & ? & ?); [by right|]. by exists x', l'.
Qed.

Lemma source_location_binding_witness :
  ∃ st', hydrateSourceCodeInfo 4 Example.a_proto Example.final = Done tt st' ∧
         bound 4 (fdesc_source_code_info Example.a_proto) Example.final st' ∧
         ((∃ l, l ∈ fdesc_source_code_info Example.a_proto ∧
                loc_path l = [packagePath]) →
          ∃ x' l', heap st' !! 4 = Some (OFile x') ∧
                   f_packageInfo x' = Some l' ∧ loc_path l' = [packagePath]).
Proof.
  exact (proj2 (proj2 (proj2 (proj2 (proj2
           (source_location_binding 4 _ (Example.loc [] "") Example.final
              eq_refl))))) Example.a_proto).
Defined.

(** *** The order of the classification pass *)

Lemma hydrateFieldType_pure fld st :
  wp (hydrateFieldType fld) (λ _ s, s = st) st.
Proof.
  unfold hydrateFieldType.
  apply wp_bind, wp_scalarT_ProtoType. intros x Ex.
  case_decide; [done|].
  apply wp_bind, wp_scalarT_ProtoLabel. intros x' Ex'.
  case_decide.
  { unfold hydrateRepeatedFieldType.
    apply wp_bind, wp_scalarT_ProtoType. intros x'' Ex''.
    destruct (fdp_type (fl_desc x'')); try by apply wp_ret.
    - apply wp_bind, wp_Descriptor. intros ? ?.
      apply wp_bind, wp_mustSeen. intros m Em.
      apply wp_bind, wp_asMessage. intros y Ey.
      apply wp_bind, wp_IsMapEntry. intros [] Hb; [|by apply wp_ret].
      eapply wp_mono; [apply hydrateMapFieldType_pure|]. by intros t s' [-> _].
    - apply wp_bind, wp_Descriptor. intros ? ?.
      apply wp_bind, wp_mustSeen. intros e Ee.
      apply wp_bind, wp_asEnum. intros y Ey. by apply wp_ret. }
  case_decide.
  { unfold hydrateEnumFieldType.
    apply wp_bind, wp_Descriptor. intros ? ?.
    apply wp_bind, wp_mustSeen. intros e Ee.
    apply wp_bind, wp_asEnum. intros y Ey. by apply wp_ret. }
  case_decide; [|by apply wp_ret].
  unfold hydrateEmbedFieldType.
  apply wp_bind, wp_Descriptor. intros ? ?.
  apply wp_bind, wp_mustSeen. intros m Em.
  apply wp_bind, wp_asMessage. intros y Ey. by apply wp_ret.
Qed.

(** A stored field that has a [FieldType]. *)
Definition typed (h : list object) (f : ptr) : Prop :=
  ∃ z t, h !! f = Some (OField z) ∧ fl_typ z = Some t.

(** [cstep st st']: what the classification pass does to the state: some
    fields are given a type, and nothing else changes. *)
Definition cstep (st st' : state) : Prop :=
  pkgs st' = pkgs st ∧ gr st' = gr st ∧
  length (heap st') = length (heap st) ∧
  ∀ p o, heap st !! p = Some o →
         heap st' !! p = Some o ∨
         ∃ z t, o = OField z ∧
                heap st' !! p = Some (OField (field_set_typ (Some t) z)).

Lemma cstep_refl st : cstep st st.
Proof. repeat split; auto. Qed.

Lemma cstep_trans st1 st2 st3 : cstep st1 st2 → cstep st2 st3 → cstep st1 st3.
Proof.
  intros (P1 & G1 & L1 & H1) (P2 & G2 & L2 & H2).
  repeat split; try congruence. intros p o E.
  destruct (H1 _ _ E) as [E2|(z & t & -> & E2)];
    destruct (H2 _ _ E2) as [E3|(z' & t' & Hz & E3)]; eauto.
  right. injection Hz as <-. exists z, t'. by split.
Qed.

Lemma cstep_msg st st' m y :
  cstep st st' → heap st !! m = Some (OMsg y) → heap st' !! m = Some (OMsg y).
Proof.
  intros (_ & _ & _ & H) E. by destruct (H _ _ E) as [E'|(z & t & ? & _)].
Qed.

Lemma cstep_msg_inv st st' m y :
  cstep st st' → heap st' !! m = Some (OMsg y) → heap st !! m = Some (OMsg y).
Proof.
  intros (P & G & L & H) E.
  assert (is_Some (heap st !! m)) as [o Eo].
  { apply lookup_lt_is_Some. rewrite <- L. by eapply lookup_lt_Some. }
  destruct (H _ _ Eo) as [E'|(z & t & -> & E')]; congruence.
Qed.

Lemma cstep_typed st st' f :
  cstep st st' → typed (heap st) f → typed (heap st') f.
Proof.
  intros (_ & _ & _ & H) (z & t & E & Ht).
  destruct (H _ _ E) as [E'|(z' & t' & [= <-] & E')]; red; eauto.
Qed.

Lemma classifyFields_cstep flds : ∀ st st',
  classifyFields flds st = Done tt st' →
  cstep st st' ∧ Forall (typed (heap st')) flds.
Proof.
  induction flds as [|fld flds IH]; intros st st'.
  - intros [= <-]. split; [apply cstep_refl|constructor].
  - unfold classifyFields. simpl. unfold bind at 1. unfold bind at 1.
    pose proof (hydrateFieldType_pure fld st) as Hp. unfold wp in Hp.
    destruct (hydrateFieldType fld st) as [t s| | |]; try done. subst s.
    unfold field_addType, updField, asField, bind at 1, bind at 1, deref.
    destruct (heap st !! fld) as [[| | | | | |z|]|] eqn:Ez; try done.
    simpl. unfold store. rewrite Ez.
    match goal with |- forM_ _ _ ?s = _ → _ => set (s1 := s) end.
    intros Hrest. destruct (IH s1 st' Hrest) as [Hc HF].
    assert (Hc1 : cstep st s1).
    { repeat split; simpl; [by rewrite length_insert|]. intros p o E.
      destruct (decide (p = fld)) as [->|Hne].
      - right. exists z, t. rewrite Ez in E. injection E as <-.
        split; [done|]. apply list_lookup_insert_eq.
        by eapply lookup_lt_Some.
      - left. by rewrite list_lookup_insert_ne. }
    split; [by eapply cstep_trans|]. constructor; [|done].
    eapply cstep_typed; [done|]. exists (field_set_typ (Some t) z), t.
    split; [|done]. simpl. apply list_lookup_insert_eq.
    by eapply lookup_lt_Some.
Qed.

Lemma forM_app {A} (f : A → M unit) pre rest st st' :
  forM_ f (pre ++ rest) st = Done tt st' →
  ∃ s, forM_ f pre st = Done tt s ∧ forM_ f rest s = Done tt st'.
Proof.
  revert st. induction pre as [|x pre IH]; intros st; simpl.
  - intros H. by exists st.
  - unfold bind. destruct (f x st) as [[] s1| | |]; try done. apply IH.
Qed.

(** The fields of every map entry of the message [x] have a type. *)
Definition entries_typed (x : msg) (h : list object) : Prop :=
  ∀ me y, me ∈ m_maps x → h !! me = Some (OMsg y) →
          Forall (typed h) (m_fields y).

Lemma entries_typed_cstep x st st' :
  cstep st st' → entries_typed x (heap st) → entries_typed x (heap st').
Proof.
  intros Hc H me y Hme Ey.
  pose proof (cstep_msg_inv _ _ _ _ Hc Ey) as Ey0.
  eapply Forall_impl; [by apply (H me y Hme)|].
  intros f. by apply cstep_typed.
Qed.

Lemma classifyEntries_cstep mes : ∀ st st',
  forM_ (λ me, flds <- Fields me ;; classifyFields flds) mes st
  = Done tt st' →
  cstep st st' ∧
  ∀ me y, me ∈ mes → heap st' !! me = Some (OMsg y) →
          Forall (typed (heap st')) (m_fields y).
Proof.
  induction mes as [|me mes IH]; intros st st'.
  - intros [= <-]. split; [apply cstep_refl|].
    intros me y Hme. by apply elem_of_nil in Hme.
  - simpl. unfold bind at 1. unfold bind at 1.
    unfold Fields, asMessage, bind at 1, bind at 1, deref.
    destruct (heap st !! me) as [[|y| | | | | |]|] eqn:Ey; try done. simpl.
    destruct (classifyFields (m_fields y) st) as [[] s1| | |] eqn:Ec;
      try done.
    intros Hrest. destruct (classifyFields_cstep _ _ _ Ec) as [Hc1 HF1].
    destruct (IH _ _ Hrest) as [Hc2 HF2].
    split; [by eapply cstep_trans|]. intros me' y' Hme' Ey'.
    apply elem_of_cons in Hme' as [->|Hme']; [|by apply (HF2 me' y')].
    pose proof (cstep_msg _ _ _ _ (cstep_trans _ _ _ Hc1 Hc2) Ey) as Ey2.
    rewrite Ey2 in Ey'. injection Ey' as <-.
    eapply Forall_impl; [done|]. intros f. by apply cstep_typed.
Qed.

(** C10. Within the pass over a message, the fields of its map-entry
    messages are classified before its own fields: the pass is the loop
    over the map entries, after which every field of every map entry has a
    [FieldType], followed by the loop over the message's own fields; at
    the state in which any own field is classified the entries' fields
    still have their types.  So the map hydration of a field of the
    message over one of its map entries with two fields or more reads two
    fields that exist and have a [FieldType]: neither index is out of
    range and neither type is [nil]. *)
Theorem map_entries_classified_first m x st st' :
  heap st !! m = Some (OMsg x) →
  classifyMessage m st = Done tt st' →
  (∃ st_mid,
     forM_ (λ me, flds <- Fields me ;; classifyFields flds) (m_maps x) st
     = Done tt st_mid ∧
     classifyFields (m_fields x) st_mid = Done tt st' ∧
     entries_typed x (heap st_mid) ∧
     ∀ pre fld rest, m_fields x = pre ++ fld :: rest →
       ∃ s, classifyFields pre st_mid = Done tt s ∧
            classifyFields (fld :: rest) s = Done tt st' ∧
            entries_typed x (heap s)) ∧
  (∀ s, entries_typed x (heap s) →
     ∀ fld me y, me ∈ m_maps x → heap s !! me = Some (OMsg y) →
       2 ≤ length (m_fields y) →
       ∃ f0 f1 z0 z1 t0 t1,
         m_fields y !! 0 = Some f0 ∧ m_fields y !! 1 = Some f1 ∧
         heap s !! f0 = Some (OField z0) ∧ fl_typ z0 = Some t0 ∧
         heap s !! f1 = Some (OField z1) ∧ fl_typ z1 = Some t1 ∧
         hydrateMapFieldType fld me s
         = match elem_of_type (heap s) t0, elem_of_type (heap s) t1 with
           | Some key, Some el => Done (mapT fld key el) s
           | _, _ => Panic
           end).
Proof.
  intros Ex Hrun. split.
  - unfold classifyMessage in Hrun. unfold bind at 1 in Hrun.
    assert (HM : MapEntries m st = Done (m_maps x) st).
    { unfold MapEntries, bind. by rewrite (asMessage_run _ _ _ Ex). }
    rewrite HM in Hrun. unfold bind at 1 in Hrun.
    destruct (forM_ _ (m_maps x) st) as [[] st_mid| | |] eqn:Hent; try done.
    destruct (classifyEntries_cstep _ _ _ Hent) as [Hc HF].
    pose proof (cstep_msg _ _ _ _ Hc Ex) as Ex'.
    unfold bind at 1 in Hrun.
    assert (HFl : Fields m st_mid = Done (m_fields x) st_mid).
    { unfold Fields, bind. by rewrite (asMessage_run _ _ _ Ex'). }
    rewrite HFl in Hrun.
    exists st_mid. split; [done|]. split; [done|].
    assert (Htyped : entries_typed x (heap st_mid)).
    { intros me y Hme Ey. by apply (HF me y). }
    split; [done|]. intros pre fld rest Hsplit. rewrite Hsplit in Hrun.
    destruct (forM_app _ _ _ _ _ Hrun) as (s & Hpre & Hrest).
    exists s. split; [done|]. split; [done|].
    eapply entries_typed_cstep; [|done].
    by apply (classifyFields_cstep _ _ _ Hpre).
  - intros s Ht fld me y Hme Ey Hlen.
    pose proof (Ht me y Hme Ey) as HF.
    destruct (m_fields y) as [|f0 [|f1 fs]] eqn:Ef; simpl in Hlen; try lia.
    apply Forall_cons in HF as [(z0 & t0 & E0 & Ht0) HF].
    apply Forall_cons in HF as [(z1 & t1 & E1 & Ht1) _].
    exists f0, f1, z0, z1, t0, t1. repeat (split; [done|]).
    rewrite (hydrateMapFieldType_run _ _ _ _ Ey).
    unfold entry_elem. rewrite Ef. simpl. by rewrite E0, Ht0, E1, Ht1.
Qed.

Lemma map_entries_classified_first_witness :
  ∃ st_mid,
    forM_ (λ me, flds <- Fields me ;; classifyFields flds) [6] Example.final
    = Done tt st_mid ∧
    classifyFields [9; 10; 11; 12; 13] st_mid = Done tt Example.final.
Proof.
  destruct (proj1 (map_entries_classified_first 5 _ Example.final
                     Example.final eq_refl
                     ltac:(vm_compute; reflexivity)))
    as (st_mid & H1 & H2 & _).
  exists st_mid. by split.
Defined.

(** ** Further properties of [ast.go] *)

(** *** Unchecked type assertions *)

Definition is_enum_obj (o : object) : bool :=
  match o with OEnum _ => true | _ => false end.
Definition is_msg_obj (o : object) : bool :=
  match o with OMsg _ => true | _ => false end.

Lemma asMessage_panic p o st :
  heap st !! p = Some o → is_msg_obj o = false → asMessage p st = Panic.
Proof.
  intros E H. unfold asMessage, bind, deref. rewrite E. by destruct o.
Qed.

(** The assertions [.(Enum)] and [.(Message)] on what [mustSeen] returns
    are unchecked: a type name that the registry holds for an entity of
    another kind makes the classifier panic, for a singular and for a
    repeated field alike, and makes [hydrateMethod] panic on its input
    type; nothing is reported to the [Debugger]. *)
Theorem wrong_kind_reference_panics :
  (∀ fld x st e o,
     heap st !! fld = Some (OField x) →
     entities (gr st) !! fdp_type_name (fl_desc x) = Some e →
     heap st !! e = Some o →
     (fdp_type (fl_desc x) = EnumT ∧ is_enum_obj o = false) ∨
     (fdp_type (fl_desc x) = MessageT ∧ is_msg_obj o = false) →
     hydrateFieldType fld st = Panic) ∧
  (∀ s so md st i o,
     heap st !! s = Some so →
     entities (gr (after_new_add (new_method s so md) st))
       !! mdp_input_type md = Some i →
     heap (after_new_add (new_method s so md) st) !! i = Some o →
     is_msg_obj o = false →
     hydrateMethod s md st = Panic).
Proof.
  split.
  - intros fld x st e o Ex Ee Eo Hk.
    rewrite (hydrateFieldType_run _ _ _ Ex).
    case_decide as Hg; [destruct Hk as [[? _]|[? _]]; congruence|].
    case_decide.
    { rewrite (hydrateRepeatedFieldType_run _ _ _ Ex).
      destruct Hk as [[-> Ho]|[-> Ho]]; rewrite Ee, Eo; by destruct o. }
    case_decide as He.
    { rewrite (hydrateEnumFieldType_run _ _ _ Ex), Ee, Eo.
      destruct Hk as [[_ Ho]|[? _]]; [by destruct o|congruence]. }
    case_decide as Hm; [|destruct Hk as [[? _]|[? _]]; congruence].
    rewrite (hydrateEmbedFieldType_run _ _ _ Ex), Ee, Eo.
    destruct Hk as [[? _]|[_ Ho]]; [congruence|by destruct o].
  - intros s so md st i o Es Ei Eo Ho. unfold hydrateMethod.
    unfold bind at 1. rewrite (fullyQualifiedName_run _ _ _ _ Es).
    rewrite new_add_eq. fold (new_method s so md).
    unfold bind at 1. rewrite mustSeen_run, Ei.
    unfold bind at 1. by rewrite (asMessage_panic _ _ _ Eo Ho).
Qed.

(** A store in which the name [".x.E"] is registered for an enum, and a
    field of message type refers to it. *)
Module KindExample.
Local Open Scope string_scope.

Definition st : state :=
  {| heap := [OEnum {| e_desc := Example.E; e_parent := 0; e_fqn := ".x.E";
                       e_vals := []; e_info := None |};
              OField {| fl_desc := Example.fld "f" 1 Optional MessageT ".x.E";
                        fl_msg := 0; fl_fqn := ".x.M.f"; fl_typ := None;
                        fl_info := None |}];
     pkgs := [];
     gr := {| targets := ∅; packages := ∅;
              entities := {[ ".x.E" := 0 ]} |} |}.
End KindExample.

Lemma wrong_kind_reference_panics_witness :
  hydrateFieldType 1 KindExample.st = Panic.
Proof.
  refine (proj1 wrong_kind_reference_panics 1 _ KindExample.st 0 _
            eq_refl eq_refl eq_refl _).
  right. split; reflexivity.
Defined.

(** *** The registry *)

(** [Lookup] in a returned graph is sound and complete for the hydrated
    entities, whether or not names collide: an entity it returns is a
    stored object whose resolved FQN is the name asked for; the resolved
    FQN of every stored object is found; and a name is not found exactly
    when no stored object resolves to it. *)
Theorem lookup_sound_complete req st :
  ProcessDescriptors req = Done tt st →
  (∀ name e found, Lookup (gr st) name = (Some e, found) →
     found = true ∧ ∃ o, heap st !! e = Some o ∧ resolveFQN o = name) ∧
  (∀ e o, heap st !! e = Some o →
     ∃ e', Lookup (gr st) (resolveFQN o) = (Some e', true)) ∧
  (∀ name, Lookup (gr st) name = (None, false) ↔
           ∀ e o, heap st !! e = Some o → resolveFQN o ≠ name).
Proof.
  intros Hrun.
  pose proof (top_inv _ _ _ (ProcessDescriptors_top _ _ Hrun)) as HI.
  unfold Lookup. split; [|split].
  - intros name e found.
    destruct (entities (gr st) !! name) as [e'|] eqn:E; [|done].
    intros [= -> <-]. split; [done|]. by apply (ents_ok _ HI).
  - intros e o Eo. destruct (all_reg _ HI _ _ Eo) as [e' ->]. eauto.
  - intros name. destruct (entities (gr st) !! name) as [e'|] eqn:E.
    + split; [done|]. intros H.
      destruct (ents_ok _ HI _ _ E) as (o & Eo & F). by destruct (H _ _ Eo).
    + split; [|done]. intros _ e o Eo F.
      destruct (all_reg _ HI _ _ Eo) as [e' E']. congruence.
Qed.

Lemma lookup_sound_complete_witness :
  Lookup (gr Example.final) ".x.Nope" = (None, false) ↔
  ∀ e o, heap Example.final !! e = Some o → resolveFQN o ≠ ".x.Nope".
Proof.
  exact (proj2 (proj2 (lookup_sound_complete Example.req Example.final
                         Example.run)) ".x.Nope").
Defined.

(** *** Build targets *)

Lemma processFile_file_at f st st' :
  Inv st → processFile f st = Done tt st' →
  ∀ fl pkg d bt,
    file_at (heap st') fl pkg d bt ↔
    file_at (heap st) fl pkg d bt ∨
    (fl = length (heap st) ∧ d = f ∧
     (∃ st_p, hydratePackage f st = Done pkg st_p) ∧
     bt = match targets (gr st) !! fdesc_name f with
          | Some _ => true
          | None => false
          end).
Proof.
  intros HI Hrun.
  destruct (processFile_run _ _ _ HI Hrun)
    as (p & st_p & st_r & pk & EP & [HIr Hin] & Epk & ->).
  destruct (hydratePackage_post _ _ _ _ EP) as (Hh & Ht & _).
  intros fl pkg d bt. simpl.
  rewrite (file_at_inner _ _ _ _ _ _ Hin), file_at_after_file, Hh, Ht.
  split; (intros [H|(-> & H)]; [by left|right]).
  - destruct H as (-> & -> & ->). eauto.
  - destruct H as (-> & [st_p' E] & ->). rewrite EP in E.
    by injection E as <- <-.
Qed.

(** The state in which the loop over the descriptors starts. *)
Lemma initTargets_top names :
  ∃ st0, initTargets names empty_state = Done tt st0 ∧
         Top names [] st0 ∧ heap st0 = [].
Proof.
  destruct (initTargets_run names empty_state)
    as (st0 & E0 & Hh & Hp & Hpa & He & Ht).
  exists st0. split; [done|]. split; [|done].
  split; rewrite ?Hh, ?Hp, ?Hpa, ?He; simpl.
  - eapply Inv_frame; [done..|apply Inv_empty].
  - intros n. rewrite Ht. case_decide; [done|]. simpl.
    rewrite lookup_empty. split; [by intros []|done].
  - intros n fl'. rewrite Ht. case_decide; [done|]. simpl.
    by rewrite lookup_empty.
  - intros n _ d Hd. by apply elem_of_nil in Hd.
  - intros k p. by rewrite lookup_empty.
  - intros k. rewrite lookup_empty. split; [by intros []|].
    intros (d & Hd & _). by apply elem_of_nil in Hd.
  - intros fl' pkg d bt (x' & E & _). by rewrite lookup_nil in E.
  - intros d Hd. by apply elem_of_nil in Hd.
Qed.

(** The build-target flag and the keys of the target map.  In a returned
    graph a [File] has its build-target flag set exactly when its path is
    one of the requested names, and the target map has exactly the
    requested names as keys: processing a descriptor never adds a key. *)
Theorem build_target_flag req st :
  ProcessDescriptors req = Done tt st →
  (∀ fl x, heap st !! fl = Some (OFile x) →
     (f_buildTarget x = true ↔ fdesc_name (f_desc x) ∈ file_to_generate req)) ∧
  (∀ n, is_Some (Targets (gr st) !! n) ↔ n ∈ file_to_generate req).
Proof.
  intros Hrun. split; [|apply (top_dom _ _ _ (ProcessDescriptors_top _ _ Hrun))].
  assert (Hloop : ∀ l done s s',
    Top (file_to_generate req) done s →
    (∀ fl pkg d bt, file_at (heap s) fl pkg d bt →
       (bt = true ↔ fdesc_name d ∈ file_to_generate req)) →
    forM_ processFile l s = Done tt s' →
    ∀ fl pkg d bt, file_at (heap s') fl pkg d bt →
       (bt = true ↔ fdesc_name d ∈ file_to_generate req)).
  { induction l as [|f l IH]; intros done s s' HT HP; [by intros [= <-]|].
    simpl. unfold bind at 1.
    destruct (processFile f s) as [[] s1| | |] eqn:E; try done.
    apply (IH (done ++ [f])); [by eapply processFile_top|].
    intros fl pkg d bt Hf.
    apply (processFile_file_at _ _ _ (top_inv _ _ _ HT) E) in Hf
      as [Hf|(-> & -> & _ & ->)]; [by eapply HP|].
    rewrite <- (top_dom _ _ _ HT).
    destruct (targets (gr s) !! fdesc_name f); split;
      first [done | by intros [] | eauto]. }
  revert Hrun. unfold ProcessDescriptors, bind.
  destruct (initTargets_top (file_to_generate req)) as (st0 & -> & HT0 & Hh).
  intros Hrun fl x Ex.
  refine (Hloop (proto_file req) [] st0 st HT0 _ Hrun fl (f_pkg x)
            (f_desc x) (f_buildTarget x) _); [|by exists x].
  intros fl' pkg d bt (x' & E & _). rewrite Hh in E. by rewrite lookup_nil in E.
Qed.

Lemma build_target_flag_witness :
  is_Some (Targets (gr Example.final) !! "b.proto") ↔
  "b.proto" ∈ file_to_generate Example.req.
Proof.
  exact (proj2 (build_target_flag Example.req Example.final Example.run)
           "b.proto").
Defined.

(** *** Termination *)

(** [never c]: the computation [c] ends, from every state. *)
Definition never {A} (c : M A) : Prop := ∀ st, c st ≠ Diverge.

Lemma never_ret {A} (a : A) : never (ret a).
Proof. done. Qed.
Lemma never_bind {A B} (c : M A) (k : A → M B) :
  never c → (∀ a, never (k a)) → never (bind c k).
Proof.
  intros Hc Hk st. unfold bind. specialize (Hc st).
  destruct (c st); try done. apply Hk.
Qed.
Lemma never_get : never get.
Proof. done. Qed.
Lemma never_put s : never (put s).
Proof. done. Qed.
Lemma never_fail {A} e : never (@fail A e).
Proof. done. Qed.
Lemma never_panic {A} : never (@panic A).
Proof. done. Qed.
Lemma never_new o : never (new o).
Proof. done. Qed.
Lemma never_deref p : never (deref p).
Proof. intros st. unfold deref. by destruct (heap st !! p). Qed.
Lemma never_store p o : never (store p o).
Proof. intros st. unfold store. by destruct (heap st !! p). Qed.
Lemma never_index {A} (l : list A) i : never (index l i).
Proof. unfold index. by destruct (l !! i). Qed.
Lemma never_forM_ {A} (f : A → M unit) l : (∀ x, never (f x)) → never (forM_ f l).
Proof.
  intros Hf. induction l; simpl; [apply never_ret|].
  apply never_bind; auto.
Qed.
Lemma never_forMi_ {A} (f : nat → A → M unit) l :
  (∀ i x, x ∈ l → never (f i x)) → ∀ i, never (forMi_ f i l).
Proof.
  induction l as [|x l IH]; intros Hf i; simpl; [apply never_ret|].
  apply never_bind; [apply Hf; by left|]. intros _. apply IH.
  intros j y Hy. apply Hf. by right.
Qed.

Create HintDb never discriminated.
#[local] Hint Resolve never_ret never_get never_put never_fail never_panic
  never_new never_deref never_store never_index : never.

(** Decompose a computation built from the primitives. *)
Ltac never_step :=
  lazymatch goal with
  | |- never (bind _ _) => apply never_bind; [|intros ?]
  | |- never (forM_ _ _) => apply never_forM_; intros ?
  | |- never (match ?x with _ => _ end) => destruct x
  | |- never (if ?x then _ else _) => destruct x
  | |- never (let _ := _ in _) => cbv zeta
  | |- _ => solve [auto with never]
  end.
Ltac never_tac := repeat never_step.

Lemma never_asFile p : never (asFile p).
Proof. unfold asFile. never_tac. Qed.
Lemma never_asMessage p : never (asMessage p).
Proof. unfold asMessage. never_tac. Qed.
Lemma never_asEnum p : never (asEnum p).
Proof. unfold asEnum. never_tac. Qed.
Lemma never_asService p : never (asService p).
Proof. unfold asService. never_tac. Qed.
Lemma never_asMethod p : never (asMethod p).
Proof. unfold asMethod. never_tac. Qed.
Lemma never_asField p : never (asField p).
Proof. unfold asField. never_tac. Qed.
Lemma never_asOneOf p : never (asOneOf p).
Proof. unfold asOneOf. never_tac. Qed.
#[local] Hint Resolve never_asFile never_asMessage never_asEnum
  never_asService never_asMethod never_asField never_asOneOf : never.

Lemma never_add e : never (add e).
Proof. unfold add. never_tac. Qed.
Lemma never_mustSeen fqn : never (mustSeen fqn).
Proof. unfold mustSeen. never_tac. Qed.
Lemma never_fullyQualifiedName p n : never (fullyQualifiedName p n).
Proof. unfold fullyQualifiedName. never_tac. Qed.
Lemma never_updFile p f : never (updFile p f).
Proof. unfold updFile. never_tac. Qed.
Lemma never_updMessage p f : never (updMessage p f).
Proof. unfold updMessage. never_tac. Qed.
Lemma never_updEnum p f : never (updEnum p f).
Proof. unfold updEnum. never_tac. Qed.
Lemma never_updService p f : never (updService p f).
Proof. unfold updService. never_tac. Qed.
Lemma never_updMethod p f : never (updMethod p f).
Proof. unfold updMethod. never_tac. Qed.
Lemma never_updField p f : never (updField p f).
Proof. unfold updField. never_tac. Qed.
Lemma never_updOneOf p f : never (updOneOf p f).
Proof. unfold updOneOf. never_tac. Qed.
#[local] Hint Resolve never_add never_mustSeen never_fullyQualifiedName
  never_updFile never_updMessage never_updEnum never_updService
  never_updMethod never_updField never_updOneOf : never.

Lemma never_hydrateEnum p ed : never (hydrateEnum p ed).
Proof.
  unfold hydrateEnum, hydrateEnumValue, enum_addValue. never_tac.
Qed.
Lemma never_hydrateService f sd : never (hydrateService f sd).
Proof.
  unfold hydrateService, hydrateMethod, service_addMethod. never_tac.
Qed.
#[local] Hint Resolve never_hydrateEnum never_hydrateService : never.

Lemma never_hydrateMessage md : ∀ p, never (hydrateMessage p md).
Proof.
  induction md as [name field nested_type enum_type oneof_decl map_entry IH]
    using DescriptorProto_nested_ind.
  intros p. simpl.
  apply never_bind; [auto with never|]. intros fqn.
  apply never_bind; [auto with never|]. intros m.
  apply never_bind; [auto with never|]. intros _.
  apply never_bind; [unfold msg_addEnum; never_tac|]. intros _.
  apply never_bind; [auto with never|]. intros _.
  apply never_bind.
  { apply never_forMi_. intros i nmd Hnmd.
    apply never_bind; [by apply (proj1 (Forall_forall _ _) IH)|]. intros nm.
    unfold IsMapEntry, msg_addMapEntry, msg_addMessage, setPreservedMsg.
    never_tac. }
  intros _.
  apply never_bind;
    [unfold hydrateOneOf, msg_addOneOf; never_tac|]. intros _.
  apply never_bind; [|auto with never].
  unfold hydrateField, msg_addField, Descriptor, addToOneOf, oneof_addField.
  never_tac.
Qed.
#[local] Hint Resolve never_hydrateMessage : never.

Lemma never_hydrateFieldType fld : never (hydrateFieldType fld).
Proof.
  unfold hydrateFieldType, hydrateRepeatedFieldType, hydrateEnumFieldType,
    hydrateEmbedFieldType, hydrateMapFieldType, scalarT_ProtoType,
    scalarT_ProtoLabel, IsMapEntry, Fields, field_Type, Descriptor.
  never_tac; unfold toElem, scalarT_ProtoType, Descriptor; never_tac.
Qed.
#[local] Hint Resolve never_hydrateFieldType : never.

Lemma never_classifyMessage m : never (classifyMessage m).
Proof.
  unfold classifyMessage, classifyFields, MapEntries, Fields, field_addType.
  never_tac.
Qed.

Lemma never_hydrateSourceCodeInfo f fd : never (hydrateSourceCodeInfo f fd).
Proof.
  unfold hydrateSourceCodeInfo, hydrateLocation, addSourceCodeInfo,
    addPackageSourceCodeInfo.
  never_tac.
Qed.
#[local] Hint Resolve never_classifyMessage never_hydrateSourceCodeInfo
  : never.

Lemma mapM_done {A B} (f : A → M B) l st :
  (∀ x, x ∈ l → ∃ y, f x st = Done y st) → ∃ ys, mapM f l st = Done ys st.
Proof.
  induction l as [|x l IH]; intros Hf; [by eexists|].
  destruct (Hf x) as [y Ey]; [by left|].
  destruct IH as [ys Eys]; [intros z Hz; apply Hf; by right|].
  exists (y :: ys). simpl. unfold bind. by rewrite Ey, Eys.
Qed.

(** In a state that satisfies the invariant the nested messages of a
    message were created after it, so the recursion of [AllMessages]
    ends within the size of the store. *)
Lemma msg_AllMessages_terminates st : Inv st →
  ∀ fuel m, is_msg (heap st) m → length (heap st) ≤ fuel + m →
            ∃ l, msg_AllMessages fuel m st = Done l st.
Proof.
  intros HI. induction fuel as [|n IH]; intros m [x Ex] Hlen.
  - apply lookup_lt_Some in Ex. lia.
  - simpl. unfold bind at 1. rewrite (asMessage_run _ _ _ Ex).
    destruct (objs_ok _ HI _ _ Ex) as [Hmsgs _].
    destruct (mapM_done (msg_AllMessages n) (m_msgs x) st) as [sub Esub].
    { intros c Hc.
      destruct (proj1 (Forall_forall _ _) Hmsgs _ Hc) as [Hlt (y & Ey & _)].
      apply IH; [by exists y|lia]. }
    unfold bind. rewrite Esub. by eexists.
Qed.

Lemma fileAllMessages_terminates st fl x :
  Inv st → heap st !! fl = Some (OFile x) →
  ∃ l, file_AllMessages fl st = Done l st.
Proof.
  intros HI Ex. unfold file_AllMessages, bind at 1, get.
  unfold bind at 1, asFile, bind at 1, deref. rewrite Ex. simpl.
  destruct (mapM_done (msg_AllMessages (length (heap st))) (f_msgs x) st)
    as [sub Esub].
  { intros c Hc. apply msg_AllMessages_terminates; [done| |lia].
    by apply (proj1 (Forall_forall _ _) (objs_ok _ HI _ _ Ex)). }
  unfold bind. rewrite Esub. by eexists.
Qed.

(** The first three loops of [hydrateFile_rest]. *)
Definition hydrateFile_structure (fl : ptr) (f : FileDescriptorProto)
  : M unit :=
  forM_ (λ e, x <- hydrateEnum fl e ;; file_addEnum fl x)
        (fdesc_enum_type f) ;;
  forM_ (λ md, x <- hydrateMessage fl md ;; file_addMessage fl x)
        (fdesc_message_type f) ;;
  forM_ (λ sd, x <- hydrateService fl sd ;; file_addService fl x)
        (fdesc_service f).

Lemma hydrateFile_structure_good fl f st0 st :
  good st0 st → wp (hydrateFile_structure fl f) (λ _, good st0) st.
Proof.
  intros HG. unfold hydrateFile_structure.
  apply wp_bind. eapply wp_mono.
  { apply (wp_forM_ _ (good st0)); [done|].
    intros ed s _ Hs. apply wp_bind.
    eapply wp_mono; [by apply hydrateEnum_good|].
    intros e s' Hs'. apply wp_updFile. intros x E.
    by eapply good_store_same. }
  intros [] s1 Hs1.
  apply wp_bind. eapply wp_mono.
  { apply (wp_forM_ _ (good st0)); [done|].
    intros md s _ Hs. apply wp_bind.
    eapply wp_mono; [by apply hydrateMessage_good|].
    intros m s' (Hs' & _ & Hm). apply wp_updFile. intros x E.
    eapply good_store_same; [done..|]. simpl. intros H.
    apply Forall_app. split; [done|]. by constructor. }
  intros [] s2 Hs2.
  apply (wp_forM_ _ (good st0)); [done|].
  intros sd s _ Hs. apply wp_bind.
  eapply wp_mono; [by apply hydrateService_good|].
  intros e s' Hs'. apply wp_updFile. intros x E.
  by eapply good_store_same.
Qed.

Lemma hydrateFile_rest_split fl f st :
  hydrateFile_rest fl f st
  = (hydrateFile_structure fl f ;;
     ms <- file_AllMessages fl ;;
     forM_ classifyMessage ms ;;
     hydrateSourceCodeInfo fl f ;;
     ret fl) st.
Proof.
  unfold hydrateFile_rest, hydrateFile_structure, bind.
  destruct (forM_ _ (fdesc_enum_type f) st) as [[] s1| | |]; try done.
  destruct (forM_ _ (fdesc_message_type f) s1) as [[] s2| | |]; try done.
Qed.

Lemma hydrateFile_rest_ends fl f st0 st x :
  good st0 st → heap st0 !! fl = Some (OFile x) →
  hydrateFile_rest fl f st ≠ Diverge.
Proof.
  intros HG Ex. rewrite hydrateFile_rest_split. unfold bind at 1.
  pose proof (hydrateFile_structure_good fl f st0 st HG) as Hw.
  unfold wp in Hw.
  destruct (hydrateFile_structure fl f st) as [[] s| | |] eqn:Es; try done.
  - destruct (good_valid _ _ _ _ Hw Ex) as (o' & Eo & C).
    destruct o'; simplify_eq/=.
    destruct (fileAllMessages_terminates s fl _ (proj1 Hw) Eo) as [l El].
    unfold bind at 1. rewrite El.
    assert (Hn : never (forM_ classifyMessage l ;;
                        hydrateSourceCodeInfo fl f ;; ret fl))
      by never_tac.
    apply Hn.
  - assert (Hn : never (hydrateFile_structure fl f)).
    { unfold hydrateFile_structure, file_addEnum, file_addMessage,
        file_addService. never_tac. }
    by destruct (Hn st).
Qed.

Lemma processFile_ends f st : Inv st → processFile f st ≠ Diverge.
Proof.
  intros HI. unfold processFile. unfold bind at 1.
  destruct (hydratePackage f st) as [p st_p| | |] eqn:EP; try done.
  2:{ assert (Hn : never (hydratePackage f)).
      { unfold hydratePackage, new_pkg. never_tac. done. }
      by destruct (Hn st). }
  destruct (hydratePackage_post _ _ _ _ EP) as (Hh & _ & He & _).
  assert (HIp : Inv st_p) by by eapply Inv_frame.
  unfold bind at 1. rewrite hydrateFile_eq.
  pose proof (hydrateFile_rest_ends (length (heap st_p)) f
                (after_file p f st_p) (after_file p f st_p)
                (new_file p f st_p)) as Hnd.
  destruct (hydrateFile_rest _ _ _) as [fl s| | |]; try done.
  - unfold pkg_addFile. by destruct (pkgs s !! p).
  - destruct Hnd; [by apply good_refl, Inv_after_file| |done].
    simpl. by rewrite lookup_app_r, Nat.sub_diag.
Qed.

(** [ProcessDescriptors] always ends: with a graph, with a fatal failure
    reported to the [Debugger], or with a panic.  The one recursion that
    follows the store, [AllMessages], runs on a graph in which every
    ordinary nested message was created after the message that holds it,
    so that the nested messages form a forest. *)
Theorem ProcessDescriptors_ends req :
  ProcessDescriptors req ≠ Diverge ∧
  ∀ st, ProcessDescriptors req = Done tt st →
    ∀ m x c, heap st !! m = Some (OMsg x) → c ∈ m_msgs x →
             m < c ∧ is_msg (heap st) c.
Proof.
  split.
  - unfold ProcessDescriptors, bind.
    destruct (initTargets_top (file_to_generate req)) as (st0 & -> & HT & _).
    revert HT. generalize (@nil FileDescriptorProto). revert st0.
    induction (proto_file req) as [|f l IH]; intros st0 dn HT; [done|].
    simpl. unfold bind.
    pose proof (processFile_ends f st0 (top_inv _ _ _ HT)) as Hnd.
    destruct (processFile f st0) as [[] s| | |] eqn:E; try done.
    eapply IH. by eapply processFile_top.
  - intros st Hrun m x c Ex Hc.
    pose proof (top_inv _ _ _ (ProcessDescriptors_top _ _ Hrun)) as HI.
    destruct (objs_ok _ HI _ _ Ex) as [Hmsgs _].
    destruct (proj1 (Forall_forall _ _) Hmsgs _ Hc) as [Hlt (y & Ey & _)].
    split; [done|by exists y].
Qed.

(** *** Package records *)

(** In a returned graph every entry of the package map is a stored package
    record whose descriptor declares the entry's name, so that two package
    names never share a record. *)
Theorem package_records req st :
  ProcessDescriptors req = Done tt st →
  (∀ k p, Packages (gr st) !! k = Some p →
     ∃ pk, pkgs st !! p = Some pk ∧ fdesc_package (pk_fd pk) = k) ∧
  (∀ k1 k2 p, Packages (gr st) !! k1 = Some p →
              Packages (gr st) !! k2 = Some p → k1 = k2).
Proof.
  intros Hrun. pose proof (ProcessDescriptors_top _ _ Hrun) as HT.
  split; [apply (top_pkg _ _ _ HT)|].
  intros k1 k2 p E1 E2.
  destruct (top_pkg _ _ _ HT _ _ E1) as (pk1 & Ep1 & <-).
  destruct (top_pkg _ _ _ HT _ _ E2) as (pk2 & Ep2 & <-).
  congruence.
Qed.

Lemma package_records_witness :
  ∃ pk, pkgs Example.final !! 0 = Some pk ∧ fdesc_package (pk_fd pk) = "x".
Proof.
  exact (proj1 (package_records Example.req Example.final Example.run)
           "x" 0 eq_refl).
Defined.

(** *** The empty batch *)

(** With no descriptor, [ProcessDescriptors] returns a graph with no
    entity and no package, in which every requested name, and no other,
    has a [nil] target. *)
Theorem empty_batch names :
  ∃ st, ProcessDescriptors {| file_to_generate := names; proto_file := [] |}
        = Done tt st ∧
        heap st = [] ∧ pkgs st = [] ∧ Packages (gr st) = ∅ ∧
        entities (gr st) = ∅ ∧
        ∀ n, Targets (gr st) !! n
             = if decide (n ∈ names) then Some None else None.
Proof.
  unfold ProcessDescriptors, bind. simpl.
  destruct (initTargets_run names empty_state)
    as (st0 & -> & Hh & Hp & Hpa & He & Ht).
  exists st0. repeat (split; [done|]). intros n. unfold Targets.
  rewrite Ht. case_decide; [done|]. apply lookup_empty.
Qed.

(** ** The graph mirrors the descriptors *)

(** Loops, with an invariant that follows the elements done so far. *)
Lemma wp_forM_prefix {A} (f : A → M unit) (I : list A → state → Prop) l st :
  I [] st →
  (∀ pre x rest s, l = pre ++ x :: rest → I pre s →
                   wp (f x) (λ _, I (pre ++ [x])) s) →
  wp (forM_ f l) (λ _, I l) st.
Proof.
  intros H0 Hf.
  assert (H : ∀ rest pre s, l = pre ++ rest → I pre s →
                            wp (forM_ f rest) (λ _, I l) s).
  { induction rest as [|x rest IH]; intros pre s Hl Hs.
    - rewrite app_nil_r in Hl. subst. by apply wp_ret.
    - simpl. apply wp_bind. eapply wp_mono; [by eapply Hf|].
      intros [] s' Hs'. apply (IH (pre ++ [x])); [|done].
      by rewrite <- app_assoc. }
  by apply (H l []).
Qed.

Lemma wp_forMi_prefix {A} (f : nat → A → M unit)
  (I : list A → state → Prop) l st :
  I [] st →
  (∀ pre x rest s, l = pre ++ x :: rest → I pre s →
                   wp (f (length pre) x) (λ _, I (pre ++ [x])) s) →
  wp (forMi_ f 0 l) (λ _, I l) st.
Proof.
  intros H0 Hf.
  assert (H : ∀ rest pre s, l = pre ++ rest → I pre s →
                            wp (forMi_ f (length pre) rest) (λ _, I l) s).
  { induction rest as [|x rest IH]; intros pre s Hl Hs.
    - rewrite app_nil_r in Hl. subst. by apply wp_ret.
    - simpl. apply wp_bind. eapply wp_mono; [by eapply Hf|].
      intros [] s' Hs'.
      replace (S (length pre)) with (length (pre ++ [x]))
        by (rewrite length_app; simpl; lia).
      apply IH; [|done]. by rewrite <- app_assoc. }
  by apply (H l []).
Qed.

(** [same_on P st st']: the objects at the addresses in [P] are the same
    in [st'] as in [st]. *)
Definition same_on (P : ptr → Prop) (st st' : state) : Prop :=
  ∀ q o, P q → heap st !! q = Some o → heap st' !! q = Some o.

Lemma same_on_refl P st : same_on P st st.
Proof. by intros q o _ E. Qed.

Lemma same_on_trans P st1 st2 st3 :
  same_on P st1 st2 → same_on P st2 st3 → same_on P st1 st3.
Proof. intros H1 H2 q o Hq E. apply H2; [done|]. by apply H1. Qed.

Lemma same_on_weaken (P Q : ptr → Prop) st st' :
  (∀ q, Q q → P q) → same_on P st st' → same_on Q st st'.
Proof. intros HPQ H q o Hq. apply H. by apply HPQ. Qed.

Lemma same_on_new_add P o st : same_on P st (after_new_add o st).
Proof. intros q o' _ E. simpl. by apply lookup_app_l_Some. Qed.

Lemma same_on_store (P : ptr → Prop) p o st :
  ¬ P p → same_on P st (set_heap (<[p:=o]> (heap st)) st).
Proof.
  intros Hp q o' Hq E. simpl. rewrite list_lookup_insert_ne; [done|].
  by intros ->.
Qed.

Lemma same_on_length st st' :
  same_on (λ _, True) st st' → length (heap st) ≤ length (heap st').
Proof.
  intros H. destruct (heap st) as [|o h] eqn:Eh using rev_ind; [simpl; lia|].
  clear IHh. specialize (H (length h) o I).
  rewrite Eh, lookup_app_r, Nat.sub_diag in H by done.
  specialize (H eq_refl). apply lookup_lt_Some in H.
  rewrite length_app. simpl. lia.
Qed.

(** *** Enums *)

Definition enumVal_mirrors (h : list object) (e : ptr) (ev : ptr)
  (vd : EnumValueDescriptorProto) : Prop :=
  ∃ z, h !! ev = Some (OEnumVal z) ∧ ev_desc z = vd ∧ ev_enum z = e ∧ e < ev.

Definition enum_mirrors (h : list object) (p : ptr) (e : ptr)
  (ed : EnumDescriptorProto) : Prop :=
  ∃ x, h !! e = Some (OEnum x) ∧ e_desc x = ed ∧ e_parent x = p ∧ p < e ∧
       Forall2 (enumVal_mirrors h e) (e_vals x) (edp_value ed).

Lemma hydrateEnumValue_mirrors e vd st :
  wp (hydrateEnumValue e vd)
     (λ ev st', ev = length (heap st) ∧ same_on (λ _, True) st st' ∧
                ∃ z, heap st' !! ev = Some (OEnumVal z) ∧ ev_desc z = vd ∧
                     ev_enum z = e) st.
Proof.
  unfold hydrateEnumValue. apply wp_bind, wp_fullyQualifiedName. intros fqn.
  apply wp_new_add, wp_ret. split; [done|]. split; [apply same_on_new_add|].
  eexists. split; [apply after_new_add_lookup|done].
Qed.

Lemma same_on_old (P : ptr → Prop) st s :
  (∀ q, q < length (heap st) → P q) → same_on P st s →
  same_on (λ _, True) st s.
Proof.
  intros HP H q o _ E. apply H; [|done]. apply HP. by eapply lookup_lt_Some.
Qed.

Lemma hydrateEnum_mirrors p ed st :
  p < length (heap st) →
  wp (hydrateEnum p ed)
     (λ e st', e = length (heap st) ∧ same_on (λ _, True) st st' ∧
               enum_mirrors (heap st') p e ed) st.
Proof.
  intros Hp. unfold hydrateEnum.
  apply wp_bind, wp_fullyQualifiedName. intros fqn. apply wp_new_add.
  set (e := length (heap st)).
  match goal with |- wp _ _ ?s => set (st1 := s) end.
  set (J := λ (pre : list EnumValueDescriptorProto) (s : state),
         same_on (λ q, q ≠ e) st s ∧
         ∃ x, heap s !! e = Some (OEnum x) ∧ e_desc x = ed ∧ e_parent x = p ∧
              Forall2 (enumVal_mirrors (heap s) e) (e_vals x) pre).
  apply wp_bind. eapply wp_mono.
  { apply (wp_forM_prefix _ J).
    - split; [apply same_on_new_add|]. eexists.
      split; [apply after_new_add_lookup|]. simpl. repeat split. constructor.
    - intros pre vd rest s Hl [Hsame (x & Ex & Hd & Hpar & Hvals)].
      apply wp_bind. eapply wp_mono; [apply hydrateEnumValue_mirrors|].
      intros ev s' (-> & Hsame' & z & Ez & Hzd & Hze).
      apply wp_updEnum. intros x' Ex'.
      pose proof (Hsame' _ _ Logic.I Ex) as Ex2. rewrite Ex2 in Ex'.
      injection Ex' as <-.
      assert (Hlt : e < length (heap s)) by by eapply lookup_lt_Some.
      split.
      { eapply same_on_trans; [done|]. eapply same_on_trans.
        - eapply same_on_weaken; [|done]. done.
        - apply same_on_store. by intros []. }
      eexists. split; [apply set_heap_lookup; by eapply lookup_lt_Some|].
      simpl. repeat split; try done.
      apply Forall2_app.
      + eapply Forall2_impl; [done|]. intros ev vd' (z' & Ez' & ? & ? & ?).
        exists z'. split; [|done]. simpl.
        rewrite list_lookup_insert_ne by lia. by apply Hsame'.
      + constructor; [|constructor]. exists z. split; [|done]. simpl.
        rewrite list_lookup_insert_ne by lia. done. }
  intros [] s (Hsame & x & Ex & Hd & Hpar & Hvals). apply wp_ret.
  split; [done|]. split.
  { eapply same_on_old; [|done]. intros q Hq. unfold e. simpl. lia. }
  exists x. repeat split; try done.
Qed.

(** *** Messages *)

(** The object without what the last two passes of [hydrateFile] assign:
    the type of a field and the source-code information. *)
Definition shape (o : object) : object :=
  match o with
  | OFile x => OFile (file_set_packageInfo None (file_set_syntaxInfo None x))
  | OMsg x => OMsg (msg_set_info None x)
  | OEnum x => OEnum (enum_set_info None x)
  | OEnumVal x => OEnumVal (enumVal_set_info None x)
  | OService x => OService (service_set_info None x)
  | OMethod x => OMethod (method_set_info None x)
  | OField x => OField (field_set_info None (field_set_typ None x))
  | OOneOf x => OOneOf (oneof_set_info None x)
  end.

(** [kept P h h']: the objects of [h] at the addresses in [P] are in [h']
    with the same shape. *)
Definition kept (P : ptr → Prop) (h h' : list object) : Prop :=
  ∀ q o, P q → h !! q = Some o → ∃ o', h' !! q = Some o' ∧ shape o' = shape o.

Lemma kept_refl P h : kept P h h.
Proof. intros q o _ E. eauto. Qed.

Lemma kept_trans P h1 h2 h3 : kept P h1 h2 → kept P h2 h3 → kept P h1 h3.
Proof.
  intros H1 H2 q o Hq E. destruct (H1 _ _ Hq E) as (o2 & E2 & S2).
  destruct (H2 _ _ Hq E2) as (o3 & E3 & S3). exists o3. split; congruence.
Qed.

Lemma kept_weaken (P Q : ptr → Prop) h h' :
  (∀ q, Q q → P q) → kept P h h' → kept Q h h'.
Proof. intros HPQ H q o Hq. apply H. by apply HPQ. Qed.

Lemma same_on_kept P st st' : same_on P st st' → kept P (heap st) (heap st').
Proof. intros H q o Hq E. exists o. split; [by apply H|done]. Qed.

(** The members of the [j]-th one-of group among the fields [fs] with
    descriptors [fds], in the order of declaration. *)
Definition oneof_members (j : nat) (fs : list ptr)
  (fds : list FieldDescriptorProto) : list ptr :=
  (filter (λ p, fdp_oneof_index p.2 = Some (Z.of_nat j)) (zip fs fds)).*1.

(** The nested messages [nms] with descriptors [nested] whose map-entry
    flag is [b]. *)
Definition nested_sel (b : bool) (nms : list ptr)
  (nested : list DescriptorProto) : list ptr :=
  (filter (λ p, dp_map_entry p.2 = b) (zip nms nested)).*1.

(** [all2 R ds xs]: the lists have the same length and [R] relates their
    elements in order. *)
Definition all2 {A B} (R : A → B → Prop) : list A → list B → Prop :=
  fix go ds xs {struct ds} :=
    match ds, xs with
    | [], [] => True
    | d :: ds', x :: xs' => R d x ∧ go ds' xs'
    | _, _ => False
    end.

Lemma all2_Forall2 {A B} (R : A → B → Prop) ds xs :
  all2 R ds xs ↔ Forall2 R ds xs.
Proof.
  revert xs. induction ds as [|d ds IH]; intros [|x xs]; simpl.
  - split; [constructor|done].
  - split; [done|]. intros H. inversion H.
  - split; [done|]. intros H. inversion H.
  - rewrite IH. split.
    + intros [? ?]. by constructor.
    + intros H. by inversion H.
Qed.

Definition field_mirrors (h : list object) (m : ptr) (f : ptr)
  (fd : FieldDescriptorProto) : Prop :=
  ∃ z, h !! f = Some (OField z) ∧ fl_desc z = fd ∧ fl_msg z = m ∧ m < f.

Definition oneof_mirrors (h : list object) (m : ptr) (members : list ptr)
  (o : ptr) (od : OneofDescriptorProto) : Prop :=
  ∃ z, h !! o = Some (OOneOf z) ∧ o_desc z = od ∧ o_msg z = m ∧ m < o ∧
       o_flds z = members.

(** [msg_mirrors h md p m]: the object at [m] is the message of the
    descriptor [md] under the parent [p]: it has one enum, one field and
    one one-of group for each of the descriptor's, in order; each one-of
    group holds the fields that declare its index; [preservedMsgs] holds
    the messages of the nested types in order, which mirror theirs, and
    [msgs] and [maps] split them by the map-entry flag. *)
Fixpoint msg_mirrors (h : list object) (md : DescriptorProto) (p m : ptr)
  {struct md} : Prop :=
  match md with
  | MkDescriptorProto name field nested_type enum_type oneof_decl _ =>
      ∃ x, h !! m = Some (OMsg x) ∧ m_desc x = md ∧ m_parent x = p ∧ p < m ∧
           Forall2 (enum_mirrors h m) (m_enums x) enum_type ∧
           Forall2 (field_mirrors h m) (m_fields x) field ∧
           length (m_oneofs x) = length oneof_decl ∧
           (∀ j o od, m_oneofs x !! j = Some o → oneof_decl !! j = Some od →
              oneof_mirrors h m (oneof_members j (m_fields x) field) o od) ∧
           ∃ nms, m_preservedMsgs x = Some <$> nms ∧
                  all2 (λ nmd nm, msg_mirrors h nmd m nm) nested_type nms ∧
                  m_msgs x = nested_sel false nms nested_type ∧
                  m_maps x = nested_sel true nms nested_type
  end.

Lemma enum_mirrors_kept h h' p e ed :
  kept (λ q, p < q) h h' → enum_mirrors h p e ed → enum_mirrors h' p e ed.
Proof.
  intros Hk (x & Ex & Hd & Hp & Hlt & Hv).
  destruct (Hk _ _ Hlt Ex) as (o' & Eo' & S).
  destruct o' as [| |x'| | | | |]; simplify_eq/=.
  exists x'. repeat split; try congruence.
  replace (e_vals x') with (e_vals x) by congruence.
  eapply Forall2_impl; [done|]. intros ev vd (z & Ez & ? & ? & Hev).
  eapply Hk in Ez as (oz & Eoz & Sz); [|simpl; lia].
  destruct oz as [| | |z'| | | |]; simplify_eq/=.
  exists z'. repeat split; congruence.
Qed.

Lemma field_mirrors_kept h h' m f fd :
  kept (λ q, m < q) h h' → field_mirrors h m f fd → field_mirrors h' m f fd.
Proof.
  intros Hk (z & Ez & Hd & Hm & Hlt).
  destruct (Hk _ _ Hlt Ez) as (o' & Eo' & S).
  destruct o' as [| | | | | |z'|]; simplify_eq/=.
  exists z'. repeat split; congruence.
Qed.

Lemma oneof_mirrors_kept h h' m fs o od :
  kept (λ q, m < q) h h' → oneof_mirrors h m fs o od →
  oneof_mirrors h' m fs o od.
Proof.
  intros Hk (z & Ez & Hd & Hm & Hlt & Hf).
  destruct (Hk _ _ Hlt Ez) as (o' & Eo' & S).
  destruct o' as [| | | | | | |z']; simplify_eq/=.
  exists z'. repeat split; congruence.
Qed.

Lemma msg_mirrors_kept md : ∀ h h' p m,
  kept (λ q, p < q) h h' → msg_mirrors h md p m → msg_mirrors h' md p m.
Proof.
  induction md as [name field nested_type enum_type oneof_decl map_entry IH]
    using DescriptorProto_nested_ind.
  intros h h' p m Hk.
  assert (Hall : kept (λ q, m < q) h h' → ∀ nms,
            all2 (λ nmd nm, msg_mirrors h nmd m nm) nested_type nms →
            all2 (λ nmd nm, msg_mirrors h' nmd m nm) nested_type nms).
  { intros Hk'. induction IH as [|nmd nested P0 HP0 IHn]; intros [|nm nms];
      simpl; try done.
    intros [Hm1 Hm2]. split; [by eapply P0|by apply IHn]. }
  simpl.
  intros (x & Ex & Hd & Hp & Hlt & He & Hf & Hol & Ho & nms & Hpr & Hn & Hms
          & Hmp).
  destruct (Hk _ _ Hlt Ex) as (o' & Eo' & S).
  destruct o' as [|x'| | | | | |]; simplify_eq/=.
  assert (Hk' : kept (λ q, m < q) h h').
  { eapply kept_weaken; [|done]. simpl. lia. }
  exists x'. split; [done|]. split; [congruence|]. split; [congruence|].
  split; [done|].
  replace (m_enums x') with (m_enums x) by congruence.
  replace (m_fields x') with (m_fields x) by congruence.
  replace (m_oneofs x') with (m_oneofs x) by congruence.
  replace (m_preservedMsgs x') with (m_preservedMsgs x) by congruence.
  replace (m_msgs x') with (m_msgs x) by congruence.
  replace (m_maps x') with (m_maps x) by congruence.
  split. { eapply Forall2_impl; [done|]. eauto using enum_mirrors_kept. }
  split. { eapply Forall2_impl; [done|]. eauto using field_mirrors_kept. }
  split; [done|]. split.
  { intros j o od Eo Eod. eapply oneof_mirrors_kept; [done|]. by eapply Ho. }
  exists nms. split; [done|]. split; [|done]. by apply Hall.
Qed.

Lemma kept_bound (P : ptr → Prop) h h' :
  kept (λ q, P q ∧ q < length h) h h' → kept P h h'.
Proof.
  intros H q o Hq E. apply H; [|done]. split; [done|].
  by eapply lookup_lt_Some.
Qed.

Lemma kept_store (P : ptr → Prop) p o h :
  ¬ P p → kept P h (<[p:=o]> h).
Proof.
  intros Hp q o' Hq E. exists o'. split; [|done].
  rewrite list_lookup_insert_ne; [done|]. by intros ->.
Qed.

Lemma nested_sel_snoc b nms pre nm nmd :
  length nms = length pre →
  nested_sel b (nms ++ [nm]) (pre ++ [nmd])
  = nested_sel b nms pre ++ (if decide (dp_map_entry nmd = b) then [nm] else []).
Proof.
  intros Hlen. unfold nested_sel.
  rewrite zip_with_app by done. rewrite filter_app, fmap_app. f_equal.
  simpl. rewrite filter_cons. simpl. by case_decide.
Qed.

Lemma oneof_members_snoc j fs pre f fd :
  length fs = length pre →
  oneof_members j (fs ++ [f]) (pre ++ [fd])
  = oneof_members j fs pre ++
    (if decide (fdp_oneof_index fd = Some (Z.of_nat j)) then [f] else []).
Proof.
  intros Hlen. unfold oneof_members.
  rewrite zip_with_app by done. rewrite filter_app, fmap_app. f_equal.
  simpl. rewrite filter_cons. simpl. by case_decide.
Qed.

Lemma insert_preserved (nms : list ptr) nm k :
  <[length nms := Some nm]> ((Some <$> nms) ++ replicate (S k) None)
  = (Some <$> (nms ++ [nm])) ++ replicate k None.
Proof.
  rewrite insert_app_r_alt by (rewrite length_fmap; lia).
  rewrite length_fmap, Nat.sub_diag. simpl.
  by rewrite fmap_app, <- app_assoc.
Qed.

Lemma hydrateOneOf_mirrors m od st :
  m < length (heap st) →
  wp (hydrateOneOf m od)
     (λ o st', o = length (heap st) ∧ same_on (λ _, True) st st' ∧
               oneof_mirrors (heap st') m [] o od) st.
Proof.
  intros Hm. unfold hydrateOneOf.
  apply wp_bind, wp_fullyQualifiedName. intros fqn.
  apply wp_new_add, wp_ret. split; [done|]. split; [apply same_on_new_add|].
  eexists. split; [apply after_new_add_lookup|done].
Qed.

Lemma hydrateField_mirrors m fd st :
  m < length (heap st) →
  wp (hydrateField m fd)
     (λ f st', f = length (heap st) ∧ same_on (λ _, True) st st' ∧
               field_mirrors (heap st') m f fd) st.
Proof.
  intros Hm. unfold hydrateField.
  apply wp_bind, wp_fullyQualifiedName. intros fqn.
  apply wp_new_add, wp_ret. split; [done|]. split; [apply same_on_new_add|].
  eexists. split; [apply after_new_add_lookup|done].
Qed.

(** The lists of a stored message. *)
Definition msg_with (md : DescriptorProto) (p : ptr) (x : msg)
  (ms : list ptr) (pres : list (option ptr)) (es fs os maps : list ptr)
  : Prop :=
  m_desc x = md ∧ m_parent x = p ∧ m_msgs x = ms ∧ m_preservedMsgs x = pres ∧
  m_enums x = es ∧ m_fields x = fs ∧ m_oneofs x = os ∧ m_maps x = maps.
